(** * loom-dl: URL extraction, retry with backoff and the batch pool

    A shallow embedding of the logic of [loom-dl.js]:
    - [extractId], the JavaScript string helpers it relies on;
    - [backoff], the recursive retry wrapper, with the attempts and the
      timer waits it performs recorded as a trace;
    - the five in-page strategies of [fetchLoomDownloadUrl], over a small
      backtracking matcher for the regular expressions of the source and a
      [JSON.parse] for the embedded Apollo state;
    - [downloadFromList], [downloadTask] and [asyncPool], as a transition
      system over the promises of the pool and the log file;
    - [downloadLoomVideo], [downloadSingleFile], the functions that start
      yt-dlp and ffmpeg, and [main], over the exit of each program and the
      answer of the server.

    JavaScript strings are sequences of UTF-16 code units: they are lists
    of [N] here, and [str] turns an ASCII literal into one. *)

From Stdlib Require Import ZArith NArith Lia String Ascii.
From Stdlib Require Import DecimalString DecimalZ DecimalPos.
From Equations Require Import Equations.
From stdpp Require Import base list gmap.

#[local] Open Scope Z_scope.

(** ** JavaScript strings *)

Abbreviation jsstring := (list N).

Fixpoint str (s : string) : jsstring :=
  match s with
  | EmptyString => []
  | String a s' => N_of_ascii a :: str s'
  end.
Arguments str s%_string : simpl never.

(** Code units of the characters the source names. *)
Definition c_dquote : N := 34.
Definition c_squote : N := 39.
Definition c_slash : N := 47.
Definition c_qmark : N := 63.
Definition c_bslash : N := 92.
Definition c_lf : N := 10.
Definition c_cr : N := 13.

(** [WhiteSpace] and [LineTerminator] of ECMAScript: what [\s] matches and
    what [String.prototype.trim] removes. *)
Definition is_space (c : N) : bool :=
  ((9 <=? c) && (c <=? 13) || (c =? 32) || (c =? 160) || (c =? 5760)
   || (8192 <=? c) && (c <=? 8202) || (c =? 8232) || (c =? 8233)
   || (c =? 8239) || (c =? 8287) || (c =? 12288) || (c =? 65279))%N.

(** A string is truthy when it is not empty. *)
Definition nonempty (s : jsstring) : bool :=
  match s with [] => false | _ :: _ => true end.

(** [s.startsWith(p)] *)
Fixpoint startsWith (s p : jsstring) : bool :=
  match p, s with
  | [], _ => true
  | _ :: _, [] => false
  | a :: p', b :: s' => (a =? b)%N && startsWith s' p'
  end.

(** [s.split(sep)] for a separator of one code unit: never an empty array. *)
Fixpoint split_on (sep : N) (s : jsstring) : list jsstring :=
  match s with
  | [] => [[]]
  | c :: s' =>
      if (c =? sep)%N then [] :: split_on sep s'
      else match split_on sep s' with
           | seg :: segs => (c :: seg) :: segs
           | [] => [[c]]
           end
  end.

(** [s.split(/\r?\n/)]: a line feed, or a carriage return followed by a line
    feed, separates; a carriage return alone is ordinary text. *)
Fixpoint split_lines (s : jsstring) : list jsstring :=
  match s with
  | [] => [[]]
  | c :: s' =>
      let cons_char :=
        match split_lines s' with
        | seg :: segs => (c :: seg) :: segs
        | [] => [[c]]
        end in
      if (c =? c_lf)%N then [] :: split_lines s'
      else if (c =? c_cr)%N then
        match s' with
        | d :: _ => if (d =? c_lf)%N then split_lines s' else cons_char
        | [] => cons_char
        end
      else cons_char
  end.

(** [s.trim()] *)
Fixpoint trimStart (s : jsstring) : jsstring :=
  match s with
  | c :: s' => if is_space c then trimStart s' else s
  | [] => []
  end.

Definition trim (s : jsstring) : jsstring :=
  rev (trimStart (rev (trimStart s))).

(** ** [extractId] (loom-dl.js, lines 343-346)

    [url.split('?')[0]], then [.split('/').pop()]. Both arrays are
    non-empty, so the index and the [pop] always find an element. *)
Definition extractId (url : jsstring) : jsstring :=
  let url := hd [] (split_on c_qmark url) in
  List.last (split_on c_slash url) [].

(** ** [backoff] (loom-dl.js, line 215)

    [delay] has the default value 1000 in the source; a caller that leaves
    it out passes 1000 here. [fn] is called once per round and may answer
    differently each time: it is a function of the number of calls made
    before, [None] for a promise that resolves and [Some err] for one that
    rejects with [err]. The recursive call sees the attempts that remain,
    [fn_after fn].

    The result is the trace of what was done, in order, and how the
    returned promise settles. [retries] and [delay] are JavaScript numbers
    holding integers; they are integers here. *)

Inductive event :=
  | Attempt
  | Sleep (ms : Z).

Definition fn_after {E} (fn : nat → option E) : nat → option E :=
  fun k => fn (S k).

Equations? backoff {E} (retries : Z) (fn : nat → option E) (delay : Z)
  : list event * option E by wf (Z.to_nat retries) lt :=
  backoff retries fn delay with fn 0%nat => {
    | None := ([Attempt], None)
    | Some err
      with Sumbool.sumbool_of_bool ((1 <? retries) && (delay <=? 32000)) => {
      | left _ :=
          let r := backoff (retries - 1) (fn_after fn) (delay * 2) in
          (Attempt :: Sleep delay :: r.1, r.2)
      | right _ := ([Attempt], Some err) } }.
Proof. apply andb_prop in e as [H%Z.ltb_lt _]. lia. Qed.

Definition attempts (tr : list event) : nat :=
  length (List.filter
            (fun e => match e with Attempt => true | Sleep _ => false end) tr).

Definition sleeps (tr : list event) : list Z :=
  omap (fun e => match e with Sleep d => Some d | Attempt => None end) tr.

(** ** Regular expressions

    The source uses regular expressions made of literal characters,
    character classes, [*], [+] and [*?] applied to one class, and one
    capture group. [run] is the usual backtracking matcher: a greedy
    repetition tries the longest run first, a lazy one the shortest, and
    the rest of the pattern is the continuation that is retried. *)

Inductive atom :=
  | Chr (c : N)                    (* one literal character *)
  | ChrI (c : N)                   (* a literal character under the [i] flag *)
  | AnyChar                        (* [.] under the [s] flag *)
  | SpaceChar                      (* [\s] *)
  | NotIn (cs : list N) (spaces : bool).
                                   (* [[^...]]; [spaces]: the class lists [\s] *)

(** [Canonicalize] without the [u] flag maps a character to its upper case,
    except that no character outside ASCII is mapped into ASCII: an ASCII
    letter of the pattern matches its two cases and nothing else. *)
Definition upper_ascii (c : N) : N :=
  if ((97 <=? c) && (c <=? 122))%N then (c - 32)%N else c.

Definition atom_matches (a : atom) (c : N) : bool :=
  match a with
  | Chr x => (c =? x)%N
  | ChrI x => (upper_ascii c =? upper_ascii x)%N && (c <? 128)%N
  | AnyChar => true
  | SpaceChar => is_space c
  | NotIn cs spaces =>
      negb (existsb (N.eqb c) cs) && negb (spaces && is_space c)
  end.

Inductive node :=
  | One (a : atom)
  | Star (greedy : bool) (a : atom)
  | Open                           (* the opening parenthesis of group 1 *)
  | Close.

Abbreviation regex := (list node).

Definition lit (s : jsstring) : regex := map (fun c => One (Chr c)) s.
Definition lit_i (s : jsstring) : regex := map (fun c => One (ChrI c)) s.
Definition plus (a : atom) : regex := [One a; Star true a].

(** What has been matched so far, most recent character first. *)
Record captures := {
  whole : jsstring;
  group : option jsstring;
  group_open : bool
}.

Definition no_captures : captures :=
  {| whole := []; group := None; group_open := false |}.

Definition take_char (c : N) (m : captures) : captures :=
  {| whole := c :: whole m;
     group := if group_open m then option_map (cons c) (group m) else group m;
     group_open := group_open m |}.

Definition open_group (m : captures) : captures :=
  {| whole := whole m; group := Some []; group_open := true |}.

Definition close_group (m : captures) : captures :=
  {| whole := whole m; group := group m; group_open := false |}.

(** [a*] or [a*?] followed by the rest of the pattern, [k]. *)
Fixpoint star (k : jsstring → captures → option (captures * jsstring))
    (greedy : bool) (a : atom) (s : jsstring) (m : captures)
  : option (captures * jsstring) :=
  let more :=
    match s with
    | c :: s' =>
        if atom_matches a c then star k greedy a s' (take_char c m) else None
    | [] => None
    end in
  if greedy then
    match more with Some x => Some x | None => k s m end
  else
    match k s m with Some x => Some x | None => more end.

Fixpoint run (r : regex) (s : jsstring) (m : captures)
  : option (captures * jsstring) :=
  match r with
  | [] => Some (m, s)
  | One a :: r' =>
      match s with
      | c :: s' => if atom_matches a c then run r' s' (take_char c m) else None
      | [] => None
      end
  | Open :: r' => run r' s (open_group m)
  | Close :: r' => run r' s (close_group m)
  | Star greedy a :: r' => star (run r') greedy a s m
  end.

(** The result of a successful match: the matched text and group 1. *)
Record found := { matched : jsstring; group1 : option jsstring }.

Definition found_of (m : captures) : found :=
  {| matched := rev (whole m); group1 := option_map (@rev N) (group m) |}.

(** [regex.exec(s)] on a fresh regular expression: the leftmost match. *)
Fixpoint exec (r : regex) (s : jsstring) : option found :=
  match run r s no_captures with
  | Some (m, _) => Some (found_of m)
  | None => match s with [] => None | _ :: s' => exec r s' end
  end.

(** [s.match(regex)] with the [g] flag: all matches, left to right, each
    search starting where the previous match ended. [skip] counts the
    characters still covered by the previous match. *)
Fixpoint match_all (r : regex) (s : jsstring) (skip : nat) : list jsstring :=
  match skip with
  | S k => match s with _ :: s' => match_all r s' k | [] => [] end
  | O =>
      match run r s no_captures with
      | Some (m, _) =>
          let w := rev (whole m) in
          w :: match s with
               | _ :: s' => match_all r s' (length w - 1)
               | [] => []
               end
      | None => match s with _ :: s' => match_all r s' 0 | [] => [] end
      end
  end.

(** [s.replace(regex, by)] with the [g] flag. *)
Fixpoint replace_all (r : regex) (by_ : jsstring) (s : jsstring) (skip : nat)
  : jsstring :=
  match skip with
  | S k => match s with _ :: s' => replace_all r by_ s' k | [] => [] end
  | O =>
      match run r s no_captures, s with
      | Some (m, _), c :: s' =>
          match length (whole m) with
          | O => by_ ++ c :: replace_all r by_ s' 0
          | S k => by_ ++ replace_all r by_ s' k
          end
      | Some _, [] => by_
      | None, c :: s' => c :: replace_all r by_ s' 0
      | None, [] => []
      end
  end.

(** The regular expressions of [fetchLoomDownloadUrl]. In the comments the
    double quote of the source is written [\x22]. *)

(** [/window\.__APOLLO_STATE__\s*=\s*({.*?});/s] *)
Definition apolloStateRegex : regex :=
  lit (str "window.__APOLLO_STATE__") ++ [Star true SpaceChar] ++
  lit (str "=") ++ [Star true SpaceChar] ++
  [Open] ++ lit (str "{") ++ [Star false AnyChar] ++ lit (str "}") ++ [Close] ++
  lit (str ";").

(** [/https:\/\/[^\x22'\s]+\.mp4[^\x22'\s]*/g] *)
Definition mp4Regex : regex :=
  lit (str "https://") ++ plus (NotIn [c_dquote; c_squote] true) ++
  lit (str ".mp4") ++ [Star true (NotIn [c_dquote; c_squote] true)].

(** [/\x22videoUrl\x22:\s*\x22([^\x22]+)\x22/g] *)
Definition scriptRegex : regex :=
  [One (Chr c_dquote)] ++ lit (str "videoUrl") ++ [One (Chr c_dquote)] ++
  lit (str ":") ++ [Star true SpaceChar] ++ [One (Chr c_dquote)] ++
  [Open] ++ plus (NotIn [c_dquote] false) ++ [Close] ++ [One (Chr c_dquote)].

(** [/\x22downloadUrl\x22:\s*\x22([^\x22]+)\x22/g] *)
Definition downloadRegex : regex :=
  [One (Chr c_dquote)] ++ lit (str "downloadUrl") ++ [One (Chr c_dquote)] ++
  lit (str ":") ++ [Star true SpaceChar] ++ [One (Chr c_dquote)] ++
  [Open] ++ plus (NotIn [c_dquote] false) ++ [Close] ++ [One (Chr c_dquote)].

(** [/\x22[^\x22]*video[^\x22]*\x22:\s*\x22(https:\/\/[^\x22]+)\x22/gi] *)
Definition videoRegex : regex :=
  [One (ChrI c_dquote); Star true (NotIn [c_dquote] false)] ++
  lit_i (str "video") ++ [Star true (NotIn [c_dquote] false)] ++
  lit_i ([c_dquote] ++ str ":") ++ [Star true SpaceChar] ++
  [One (ChrI c_dquote)] ++
  [Open] ++ lit_i (str "https://") ++ plus (NotIn [c_dquote] false) ++ [Close] ++
  [One (ChrI c_dquote)].

(** [/\\u002F/g]: a backslash followed by [u002F] *)
Definition escapedSlashRegex : regex := lit ([c_bslash] ++ str "u002F").

(** ** JSON values and [JSON.parse]

    A number keeps the exact decimal value of its literal,
    [(-1)^neg * mant * 10^exp10]; the only thing the source asks of a
    number is whether it is truthy. An object keeps its properties in
    creation order. [JUndefined] is what reading a missing property gives;
    [JSON.parse] never produces it. *)

Record number := { neg : bool; mant : N; exp10 : Z }.

#[local] Set Warnings "-register-all".

Inductive JsValue :=
  | JUndefined
  | JNull
  | JBool (b : bool)
  | JNum (n : number)
  | JStr (s : jsstring)
  | JArr (items : list JsValue)
  | JObj (props : list (jsstring * JsValue)).

Inductive token :=
  | TLBrace | TRBrace | TLBracket | TRBracket | TColon | TComma
  | TScalar (v : JsValue)
  | TString (s : jsstring).

(** The states of the scanner between two characters. *)
Inductive num_phase :=
  | PMinus | PZero | PInt | PDot | PFrac | PExpMark | PExpSign | PExp.

Inductive lex_state :=
  | LDefault
  | LString (acc : jsstring)                  (* inside a string, reversed *)
  | LEscape (acc : jsstring)                  (* after a backslash *)
  | LUnicode (acc : jsstring) (hex : list N)  (* after a backslash and u *)
  | LWord (rest : jsstring) (v : JsValue)     (* inside true, false, null *)
  | LNumber (ph : num_phase) (neg : bool) (mant : N) (scale : N)
            (eneg : bool) (e : N).

Definition is_digit (c : N) : bool := ((48 <=? c) && (c <=? 57))%N.

Definition hex_value (c : N) : option N :=
  if is_digit c then Some (c - 48)%N
  else if ((97 <=? c) && (c <=? 102))%N then Some (c - 87)%N
  else if ((65 <=? c) && (c <=? 70))%N then Some (c - 55)%N
  else None.

(** The white space of the JSON grammar: tab, line feed, carriage return and
    space. *)
Definition is_json_space (c : N) : bool :=
  ((c =? 9) || (c =? 10) || (c =? 13) || (c =? 32))%N.

Definition number_of (neg : bool) (mant scale : N) (eneg : bool) (e : N)
  : number :=
  {| neg := neg; mant := mant;
     exp10 := (if eneg then - Z.of_N e else Z.of_N e) - Z.of_N scale |}.

Definition lex_default (c : N) : option (lex_state * list token) :=
  if is_json_space c then Some (LDefault, [])
  else if (c =? 123)%N then Some (LDefault, [TLBrace])
  else if (c =? 125)%N then Some (LDefault, [TRBrace])
  else if (c =? 91)%N then Some (LDefault, [TLBracket])
  else if (c =? 93)%N then Some (LDefault, [TRBracket])
  else if (c =? 58)%N then Some (LDefault, [TColon])
  else if (c =? 44)%N then Some (LDefault, [TComma])
  else if (c =? c_dquote)%N then Some (LString [], [])
  else if (c =? 116)%N then Some (LWord (str "rue") (JBool true), [])
  else if (c =? 102)%N then Some (LWord (str "alse") (JBool false), [])
  else if (c =? 110)%N then Some (LWord (str "ull") JNull, [])
  else if (c =? 45)%N then Some (LNumber PMinus true 0 0 false 0, [])
  else if (c =? 48)%N then Some (LNumber PZero false 0 0 false 0, [])
  else if is_digit c then Some (LNumber PInt false (c - 48) 0 false 0, [])
  else None.

(** A number ends at the first character that cannot continue it, which
    then starts the next token. *)
Definition lex_number_end (ph : num_phase) (neg : bool) (mant scale : N)
    (eneg : bool) (e : N) (c : N) : option (lex_state * list token) :=
  match ph with
  | PZero | PInt | PFrac | PExp =>
      match lex_default c with
      | Some (st, toks) =>
          Some (st, TScalar (JNum (number_of neg mant scale eneg e)) :: toks)
      | None => None
      end
  | _ => None
  end.

Definition lex_number (ph : num_phase) (neg : bool) (mant scale : N)
    (eneg : bool) (e : N) (c : N) : option (lex_state * list token) :=
  let d := (c - 48)%N in
  let dot := (c =? 46)%N in
  let emark := ((c =? 101) || (c =? 69))%N in
  match ph with
  | PMinus =>
      if (c =? 48)%N then Some (LNumber PZero neg 0 0 false 0, [])
      else if is_digit c then Some (LNumber PInt neg d 0 false 0, [])
      else None
  | PZero =>
      if dot then Some (LNumber PDot neg mant scale eneg e, [])
      else if emark then Some (LNumber PExpMark neg mant scale eneg e, [])
      else lex_number_end ph neg mant scale eneg e c
  | PInt =>
      if is_digit c then Some (LNumber PInt neg (mant * 10 + d) scale eneg e, [])
      else if dot then Some (LNumber PDot neg mant scale eneg e, [])
      else if emark then Some (LNumber PExpMark neg mant scale eneg e, [])
      else lex_number_end ph neg mant scale eneg e c
  | PDot =>
      if is_digit c
      then Some (LNumber PFrac neg (mant * 10 + d) (scale + 1) eneg e, [])
      else None
  | PFrac =>
      if is_digit c
      then Some (LNumber PFrac neg (mant * 10 + d) (scale + 1) eneg e, [])
      else if emark then Some (LNumber PExpMark neg mant scale eneg e, [])
      else lex_number_end ph neg mant scale eneg e c
  | PExpMark =>
      if (c =? 43)%N then Some (LNumber PExpSign neg mant scale false e, [])
      else if (c =? 45)%N then Some (LNumber PExpSign neg mant scale true e, [])
      else if is_digit c then Some (LNumber PExp neg mant scale eneg d, [])
      else None
  | PExpSign =>
      if is_digit c then Some (LNumber PExp neg mant scale eneg d, [])
      else None
  | PExp =>
      if is_digit c then Some (LNumber PExp neg mant scale eneg (e * 10 + d), [])
      else lex_number_end ph neg mant scale eneg e c
  end%N.

Definition lex_escape (acc : jsstring) (c : N) : option (lex_state * list token) :=
  if ((c =? c_dquote) || (c =? c_bslash) || (c =? c_slash))%N
  then Some (LString (c :: acc), [])
  else if (c =? 98)%N then Some (LString (8%N :: acc), [])
  else if (c =? 102)%N then Some (LString (12%N :: acc), [])
  else if (c =? 110)%N then Some (LString (10%N :: acc), [])
  else if (c =? 114)%N then Some (LString (13%N :: acc), [])
  else if (c =? 116)%N then Some (LString (9%N :: acc), [])
  else if (c =? 117)%N then Some (LUnicode acc [], [])
  else None.

Definition lex_step (st : lex_state) (c : N) : option (lex_state * list token) :=
  match st with
  | LDefault => lex_default c
  | LString acc =>
      if (c =? c_dquote)%N then Some (LDefault, [TString (rev acc)])
      else if (c =? c_bslash)%N then Some (LEscape acc, [])
      else if (c <? 32)%N then None
      else Some (LString (c :: acc), [])
  | LEscape acc => lex_escape acc c
  | LUnicode acc hex =>
      match hex_value c with
      | Some h =>
          match hex with
          | [a; b; d] =>
              Some (LString ((((a * 16 + b) * 16 + d) * 16 + h)%N :: acc), [])
          | _ => Some (LUnicode acc (hex ++ [h]), [])
          end
      | None => None
      end
  | LWord rest v =>
      match rest with
      | x :: rest' =>
          if (c =? x)%N then
            match rest' with
            | [] => Some (LDefault, [TScalar v])
            | _ :: _ => Some (LWord rest' v, [])
            end
          else None
      | [] => None
      end
  | LNumber ph neg mant scale eneg e => lex_number ph neg mant scale eneg e c
  end.

Fixpoint lex (st : lex_state) (s : jsstring) : option (list token) :=
  match s with
  | c :: s' =>
      match lex_step st c with
      | Some (st', toks) => option_map (app toks) (lex st' s')
      | None => None
      end
  | [] =>
      match st with
      | LDefault => Some []
      | LNumber (PZero | PInt | PFrac | PExp) neg mant scale eneg e =>
          Some [TScalar (JNum (number_of neg mant scale eneg e))]
      | _ => None
      end
  end.

(** [CreateDataProperty]: a key that is already there keeps its place and
    takes the new value. *)
Fixpoint set_prop (props : list (jsstring * JsValue)) (k : jsstring) (v : JsValue)
  : list (jsstring * JsValue) :=
  match props with
  | [] => [(k, v)]
  | (k', v') :: rest =>
      if bool_decide (k' = k) then (k', v) :: rest
      else (k', v') :: set_prop rest k v
  end.

(** The containers that are open while the tokens are read. *)
Inductive frame :=
  | FArr (items : list JsValue)
  | FObj (props : list (jsstring * JsValue)) (key : jsstring).

Inductive parse_state :=
  | SValue (stack : list frame)            (* a value is expected *)
  | SArrStart (stack : list frame)         (* after an opening bracket *)
  | SObjStart (stack : list frame)         (* after an opening brace *)
  | SKey (props : list (jsstring * JsValue)) (stack : list frame)
  | SColon (props : list (jsstring * JsValue)) (key : jsstring)
           (stack : list frame)
  | SArrNext (items : list JsValue) (stack : list frame)
  | SObjNext (props : list (jsstring * JsValue)) (stack : list frame)
  | SDone (v : JsValue).

Definition complete (v : JsValue) (stack : list frame) : parse_state :=
  match stack with
  | [] => SDone v
  | FArr items :: stack' => SArrNext (items ++ [v]) stack'
  | FObj props key :: stack' => SObjNext (set_prop props key v) stack'
  end.

Definition parse_value (stack : list frame) (t : token) : option parse_state :=
  match t with
  | TScalar v => Some (complete v stack)
  | TString s => Some (complete (JStr s) stack)
  | TLBracket => Some (SArrStart stack)
  | TLBrace => Some (SObjStart stack)
  | _ => None
  end.

Definition parse_step (st : parse_state) (t : token) : option parse_state :=
  match st, t with
  | SValue stack, _ => parse_value stack t
  | SArrStart stack, TRBracket => Some (complete (JArr []) stack)
  | SArrStart stack, _ => parse_value (FArr [] :: stack) t
  | SObjStart stack, TRBrace => Some (complete (JObj []) stack)
  | SObjStart stack, TString k => Some (SColon [] k stack)
  | SKey props stack, TString k => Some (SColon props k stack)
  | SColon props k stack, TColon => Some (SValue (FObj props k :: stack))
  | SArrNext items stack, TComma => Some (SValue (FArr items :: stack))
  | SArrNext items stack, TRBracket => Some (complete (JArr items) stack)
  | SObjNext props stack, TComma => Some (SKey props stack)
  | SObjNext props stack, TRBrace => Some (complete (JObj props) stack)
  | _, _ => None
  end.

Fixpoint parse_tokens (st : parse_state) (ts : list token) : option JsValue :=
  match ts with
  | t :: ts' =>
      match parse_step st t with
      | Some st' => parse_tokens st' ts'
      | None => None
      end
  | [] => match st with SDone v => Some v | _ => None end
  end.

(** [JSON.parse(text)]: [None] stands for the [SyntaxError] it throws. The
    limit an engine puts on the depth of nesting is not modelled. *)
Definition JSON_parse (text : jsstring) : option JsValue :=
  match lex LDefault text with
  | Some ts => parse_tokens (SValue []) ts
  | None => None
  end.

(** ** Truthiness and property access *)

(** A number is falsy when it is a zero. The literal is rounded to the
    nearest double, ties to even, and the least positive double is
    [2^-1074]: the result is a zero exactly when the decimal value is at
    most [2^-1075]. *)
Definition number_truthy (n : number) : bool :=
  negb (mant n =? 0)%N &&
  ((0 <=? exp10 n) || (10 ^ (- exp10 n) <? Z.of_N (mant n) * 2 ^ 1075)).

Definition truthy (v : JsValue) : bool :=
  match v with
  | JUndefined | JNull => false
  | JBool b => b
  | JNum n => number_truthy n
  | JStr s => nonempty s
  | JArr _ | JObj _ => true
  end.

Fixpoint assoc (k : jsstring) (props : list (jsstring * JsValue)) : option JsValue :=
  match props with
  | [] => None
  | (k', v) :: rest => if bool_decide (k' = k) then Some v else assoc k rest
  end.

(** [v[k]] for a key [k] that no prototype defines and that is neither an
    index nor [length] (the keys the source reads are of this kind): the
    own property of an object, [undefined] on anything else. *)
Definition get (v : JsValue) (k : jsstring) : JsValue :=
  match v with
  | JObj props => default JUndefined (assoc k props)
  | _ => JUndefined
  end.

(** The order of [for (key in object)]: the keys that are array indices
    (the canonical decimal of an integer below [2^32 - 1]) in ascending
    order, then the other keys in creation order. *)
Definition decimal_value (k : jsstring) : N :=
  fold_left (fun acc c => (acc * 10 + (c - 48))%N) k 0%N.

Definition array_index (k : jsstring) : option N :=
  match k with
  | [] => None
  | c :: rest =>
      if forallb is_digit k && (negb (c =? 48)%N || (length rest =? 0)%nat)
         && (decimal_value k <? 2 ^ 32 - 1)%N
      then Some (decimal_value k) else None
  end.

Fixpoint insert_index (i : N) (k : jsstring) (l : list (N * jsstring))
  : list (N * jsstring) :=
  match l with
  | [] => [(i, k)]
  | (j, k') :: rest =>
      if (i <? j)%N then (i, k) :: l else (j, k') :: insert_index i k rest
  end.

Definition index_keys (props : list (jsstring * JsValue)) : list jsstring :=
  map snd
    (fold_left
       (fun acc p => match array_index p.1 with
                     | Some i => insert_index i p.1 acc
                     | None => acc
                     end) props []).

Definition name_keys (props : list (jsstring * JsValue)) : list jsstring :=
  omap (fun p => match array_index p.1 with
                 | Some _ => None
                 | None => Some p.1
                 end) props.

(** On a value that is not an object the loop of the source meets index
    keys at most, which its test on the key skips; no key is listed for
    those. *)
Definition for_in_keys (v : JsValue) : list jsstring :=
  match v with
  | JObj props => index_keys props ++ name_keys props
  | _ => []
  end.

(** ** The in-page strategies of [fetchLoomDownloadUrl] (lines 94-176) *)

(** [nullableRawCdnUrl({\x22acceptableMimes\x22:[\x22M3U8\x22]})] *)
Definition cdn_key (mime : jsstring) : jsstring :=
  str "nullableRawCdnUrl({" ++ [c_dquote] ++ str "acceptableMimes" ++
  [c_dquote] ++ str ":[" ++ [c_dquote] ++ mime ++ [c_dquote] ++ str "]})".

Definition M3U8_key : jsstring := cdn_key (str "M3U8").
Definition DASH_key : jsstring := cdn_key (str "DASH").

(** The [for ... in] loop of method 1 (lines 106-130); returning without
    the recursive call is the [break]. *)
Fixpoint apollo_scan (apolloState : JsValue) (keys : list jsstring)
    (videoUrl : JsValue) : JsValue :=
  match keys with
  | [] => videoUrl
  | key :: rest =>
      if startsWith key (str "RegularUserVideo:") && truthy (get apolloState key)
      then
        let videoData := get apolloState key in
        let m3u8Data := get videoData M3U8_key in
        if truthy m3u8Data && truthy (get m3u8Data (str "url"))
        then get m3u8Data (str "url")
        else
          let dashData := get videoData DASH_key in
          if negb (truthy videoUrl) && truthy dashData
             && truthy (get dashData (str "url"))
          then get dashData (str "url")
          else apollo_scan apolloState rest videoUrl
      else apollo_scan apolloState rest videoUrl
  end.

(** Method 1 (lines 97-134): only [JSON.parse] can throw inside the [try],
    and the [catch] leaves [videoUrl] as it was. *)
Definition method1 (html : jsstring) (videoUrl : JsValue) : JsValue :=
  match exec apolloStateRegex html with
  | Some apolloMatch =>
      match group1 apolloMatch with
      | Some text =>
          if nonempty text then
            match JSON_parse text with
            | Some apolloState =>
                apollo_scan apolloState (for_in_keys apolloState) videoUrl
            | None => videoUrl
            end
          else videoUrl
      | None => videoUrl
      end
  | None => videoUrl
  end.

(** The [reduce] of method 2, without an initial value: the first match is
    the first accumulator. *)
Definition pick_longer (longest current : jsstring) : jsstring :=
  if (length longest <? length current)%nat then current else longest.

Definition longest (mp4Matches : list jsstring) : option jsstring :=
  match mp4Matches with
  | [] => None
  | first :: others => Some (fold_left pick_longer others first)
  end.

(** Method 2 (lines 136-147) *)
Definition method2 (html : jsstring) (videoUrl : JsValue) : JsValue :=
  if negb (truthy videoUrl) then
    match longest (match_all mp4Regex html 0) with
    | Some url => JStr url
    | None => videoUrl
    end
  else videoUrl.

(** Methods 3, 4 and 5 (lines 149-174) differ in their regular expression
    only. *)
Definition method_field (r : regex) (html : jsstring) (videoUrl : JsValue)
  : JsValue :=
  if negb (truthy videoUrl) then
    match exec r html with
    | Some m =>
        match group1 m with
        | Some g =>
            if nonempty g
            then JStr (replace_all escapedSlashRegex (str "/") g 0)
            else videoUrl
        | None => videoUrl
        end
    | None => videoUrl
    end
  else videoUrl.

(** [videoUrl] after the five methods, from [let videoUrl = null]. *)
Definition extract_from_page (html : jsstring) : JsValue :=
  let videoUrl := JNull in
  let videoUrl := method1 html videoUrl in
  let videoUrl := method2 html videoUrl in
  let videoUrl := method_field scriptRegex html videoUrl in
  let videoUrl := method_field downloadRegex html videoUrl in
  let videoUrl := method_field videoRegex html videoUrl in
  videoUrl.

(** ** [fetchLoomDownloadUrl] (lines 69-213)

    What the function asks of the outside world is a parameter: the answer
    to the GET of the share page (the body, a string), the answer to the
    POST to the old API (the parsed body), and whether the page could be
    saved for debugging. A promise either fulfils with a value or rejects
    with an error, named here by its message. *)

Inductive outcome (A : Type) :=
  | Return (a : A)
  | Throw (message : jsstring).
Arguments Return {A} a.
Arguments Throw {A} message.

Record env := {
  http_get : jsstring → outcome jsstring;
  http_post : jsstring → outcome JsValue;
  write_file : jsstring → outcome unit
}.

Definition not_found_message : jsstring :=
  str "No video download URL found. The video might be private or the download might be disabled.".

(** Lines 178-195: the old API is asked only when the page gave nothing,
    and an error of the request is caught. *)
Definition old_api (w : env) (id : jsstring) (videoUrl : JsValue) : JsValue :=
  if negb (truthy videoUrl) then
    match http_post w (str "https://www.loom.com/api/campaigns/sessions/" ++ id
                       ++ str "/transcoded-url") with
    | Return data =>
        if truthy data && truthy (get data (str "url"))
        then get data (str "url") else videoUrl
    | Throw _ => videoUrl
    end
  else videoUrl.

Definition videoPageUrl (id : jsstring) : jsstring :=
  str "https://www.loom.com/share/" ++ id.

(** The outer [catch] logs and throws the same error again. *)
Definition fetchLoomDownloadUrl (w : env) (id : jsstring) : outcome JsValue :=
  match http_get w (videoPageUrl id) with
  | Throw e => Throw e
  | Return html =>
      match write_file w html with
      | Throw e => Throw e
      | Return _ =>
          let videoUrl := extract_from_page html in
          let videoUrl := old_api w id videoUrl in
          if negb (truthy videoUrl) then Throw not_found_message
          else Return videoUrl
      end
  end.

(** ** The command line (lines 13-53)

    [argv] as yargs delivers it; an option that was not given is [None]. *)

Record argv := {
  argv_url : option jsstring;
  argv_list : option jsstring;
  argv_prefix : option jsstring;
  argv_out : option jsstring;
  argv_timeout : option Z
}.

Definition given (o : option jsstring) : bool :=
  match o with Some s => nonempty s | None => false end.

(** The [.check] callback: [None] when it returns [true], the message of
    the error it throws otherwise. *)
Definition check (a : argv) : option jsstring :=
  if negb (given (argv_url a)) && negb (given (argv_list a)) then
    Some (str "Please provide either a single video URL with --url or a list of URLs with --list to proceed")
  else if given (argv_url a) && given (argv_list a) then
    Some (str "Please provide either --url or --list, not both")
  else
    match argv_timeout a with
    | Some t =>
        if negb (t =? 0) && (t <? 0)
        then Some (str "Please provide a non-negative number for --timeout")
        else None
    | None => None
    end.

(** ** The log of downloaded URLs (lines 330-341)

    The file [downloaded.log] is its content, [None] while it does not
    exist. *)

Definition appendFile (file : option jsstring) (data : jsstring) : option jsstring :=
  Some (default [] file ++ data).

(** The data [appendToLogFile(id)] appends. *)
Definition log_line (id : jsstring) : jsstring := id ++ [c_lf].

Definition readDownloadedLog (file : option jsstring) : gset jsstring :=
  match file with
  | Some data => list_to_set (split_lines data)
  | None => ∅
  end.

(** ** [downloadTask] (lines 458-473)

    A task is the sequence of asynchronous operations it awaits. What the
    outside world answers to the task is a parameter: the network and file
    system seen by [fetchLoomDownloadUrl], the result of each call of
    [downloadLoomVideo] ([None] when it succeeds, the message of its error
    otherwise), and whether the append to the log goes through. The output
    path handed to [downloadLoomVideo] plays no part in the control flow
    and is left out. *)

Inductive action :=
  | AFetch (id : jsstring)              (* await fetchLoomDownloadUrl(id) *)
  | ADownload (downloadUrl : JsValue)   (* one call of downloadLoomVideo *)
  | ASleep (ms : Z)                     (* a timer *)
  | AAppend (data : jsstring) (ok : bool).
                                        (* appendFile on downloaded.log *)

Record task_env := {
  net : env;
  download : nat → option jsstring;
  append_ok : bool
}.

(** What a call of the iterator function does: the operations it awaits,
    and whether the promise it returns rejects in the end. *)
Record program := { steps : list action; rejects : bool }.

Definition event_action (downloadUrl : JsValue) (e : event) : action :=
  match e with
  | Attempt => ADownload downloadUrl
  | Sleep ms => ASleep ms
  end.

(** Every error is caught by the [catch] of the task, which only logs: the
    promise of a task never rejects. *)
Definition downloadTask (a : argv) (te : task_env) (url : jsstring) : program :=
  let id := extractId url in
  {| steps :=
       AFetch id ::
       match fetchLoomDownloadUrl (net te) id with
       | Throw _ => []
       | Return downloadUrl =>
           let r := backoff 5 (download te) 1000 in
           map (event_action downloadUrl) r.1 ++
           match r.2 with
           | Some _ => []
           | None =>
               if append_ok te
               then [AAppend (log_line url) true; ASleep 5000]
               else [AAppend (log_line url) false]
           end
       end;
     rejects := false |}.

(** ** [asyncPool] (lines 431-447)

    JavaScript runs the body of [asyncPool], the tasks and the callbacks of
    the promises on one thread, piece by piece, in an order that depends on
    when the awaited operations complete. The model is a transition system
    whose steps are these pieces, taken in any order the promises allow: a
    turn of the [for] loop up to its [await], the start of a task, one
    awaited operation of a task, the settlement of its promise [p], the
    callback chained on [p], and the resumption of the body after an
    [await].

    The promises [p] of [ret] are named by their position; the promise [e]
    chained on [p] carries the same name in [executing]. The body of
    [asyncPool] is at the head of its loop, suspended on [Promise.race],
    suspended on [Promise.all], or it has returned or thrown. An [e] that
    is still in [executing] has not run its callback, so it is pending
    when [Promise.race] is called on the array and the race waits for a
    settlement that comes later: [Racing false] turns into [Racing true]
    at the first callback that runs. *)

Inductive status :=
  | Scheduled                     (* created, the iterator not yet called *)
  | Running (rest : list action)
  | Fulfilled
  | Rejected.

Record promise := { item : jsstring; prog : program; state : status }.

Inductive control :=
  | Looping
  | Racing (settled : bool)
  | Gathering
  | Returned
  | Failed.

Record pool := {
  todo : list jsstring;
  ret : list promise;
  executing : list nat;
  ctl : control;
  logfile : option jsstring
}.

(** Who runs next: the body of [asyncPool], the task behind [p_i], the
    callback of [e_i], or the rejection of a promise the body awaits. *)
Inductive choice :=
  | Main
  | Task (i : nat)
  | Then (i : nat)
  | Abort.

Definition pending (p : promise) : bool :=
  match state p with
  | Scheduled | Running _ => true
  | Fulfilled | Rejected => false
  end.

Definition is_fulfilled (p : promise) : bool :=
  match state p with Fulfilled => true | _ => false end.

Definition is_rejected (p : promise) : bool :=
  match state p with Rejected => true | _ => false end.


(** [executing.splice(executing.indexOf(e), 1)], for an [e] of the array *)
Fixpoint splice_out (i : nat) (l : list nat) : list nat :=
  match l with
  | [] => []
  | j :: l' => if (j =? i)%nat then l' else j :: splice_out i l'
  end.

Definition set_state (i : nat) (s : status) (l : list promise) : list promise :=
  alter (fun p => {| item := item p; prog := prog p; state := s |}) i l.

Definition perform (a : action) (file : option jsstring) : option jsstring :=
  match a with
  | AAppend data true => appendFile file data
  | _ => file
  end.

Section AsyncPool.
Variable poolLimit : Z.
Variable array : list jsstring.
(** The iterator function; its first argument counts the calls made
    before, as the world may answer each call differently. *)
Variable iteratorFn : nat → jsstring → program.

Definition pool_init (file : option jsstring) : pool :=
  {| todo := array; ret := []; executing := []; ctl := Looping;
     logfile := file |}.

(** [asyncPool] tracks the promises in [executing] only when the limit
    does not exceed the length of the array (line 438). *)
Definition tracked : bool := poolLimit <=? Z.of_nat (length array).

(** One turn of the [for] loop on the item [x], up to the [await] when
    there is one. *)
Definition push (x : jsstring) (rest : list jsstring) (st : pool) : pool :=
  let i := length (ret st) in
  let p := {| item := x; prog := iteratorFn i x; state := Scheduled |} in
  let executing' := if tracked then executing st ++ [i] else executing st in
  let ctl' :=
    if tracked && (poolLimit <=? Z.of_nat (length executing'))
    then Racing false else Looping in
  {| todo := rest; ret := ret st ++ [p]; executing := executing';
     ctl := ctl'; logfile := logfile st |}.

Definition with_ctl (c : control) (st : pool) : pool :=
  {| todo := todo st; ret := ret st; executing := executing st; ctl := c;
     logfile := logfile st |}.

Definition with_task (i : nat) (s : status) (file : option jsstring)
    (st : pool) : pool :=
  {| todo := todo st; ret := set_state i s (ret st);
     executing := executing st; ctl := ctl st; logfile := file |}.

Definition spliced (i : nat) (st : pool) : pool :=
  {| todo := todo st; ret := ret st;
     executing := splice_out i (executing st);
     ctl := match ctl st with Racing _ => Racing true | c => c end;
     logfile := logfile st |}.

(** The body of [asyncPool]: a turn of the loop, the [Promise.all] after
    the loop, the resumption after [Promise.race], the return. *)
Definition main_step (st : pool) : option pool :=
  match ctl st with
  | Looping =>
      match todo st with
      | x :: rest => Some (push x rest st)
      | [] => Some (with_ctl Gathering st)
      end
  | Racing true => Some (with_ctl Looping st)
  | Gathering =>
      if forallb is_fulfilled (ret st) then Some (with_ctl Returned st)
      else None
  | Racing false | Returned | Failed => None
  end.

(** The task behind [p_i] starts, performs the operation it awaits, or
    settles its promise. *)
Definition task_step (i : nat) (st : pool) : option pool :=
  match ret st !! i with
  | Some p =>
      match state p with
      | Scheduled =>
          Some (with_task i (Running (steps (prog p))) (logfile st) st)
      | Running (a :: rest) =>
          Some (with_task i (Running rest) (perform a (logfile st)) st)
      | Running [] =>
          Some (with_task i
                  (if rejects (prog p) then Rejected else Fulfilled)
                  (logfile st) st)
      | Fulfilled | Rejected => None
      end
  | None => None
  end.

(** The callback of [e_i] runs once [p_i] is fulfilled: it takes [e_i]
    out of [executing], and [e_i] is fulfilled, which wakes a pending
    [Promise.race]. *)
Definition then_step (i : nat) (st : pool) : option pool :=
  match ret st !! i with
  | Some p =>
      if is_fulfilled p && bool_decide (i ∈ executing st)
      then Some (spliced i st) else None
  | None => None
  end.

(** A rejected [p] rejects its [e], and with it the [Promise.race] or
    the [Promise.all] the body awaits: [asyncPool] throws. *)
Definition abort_step (st : pool) : option pool :=
  match ctl st with
  | Racing _ | Gathering =>
      if existsb is_rejected (ret st) then Some (with_ctl Failed st)
      else None
  | _ => None
  end.

Definition step (c : choice) (st : pool) : option pool :=
  match c with
  | Main => main_step st
  | Task i => task_step i st
  | Then i => then_step i st
  | Abort => abort_step st
  end.

(** The same steps as a relation, one rule for each case. *)
Inductive transition (st : pool) : pool → Prop :=
  | t_push x rest :
      ctl st = Looping → todo st = x :: rest →
      transition st (push x rest st)
  | t_gather :
      ctl st = Looping → todo st = [] →
      transition st (with_ctl Gathering st)
  | t_resume :
      ctl st = Racing true → transition st (with_ctl Looping st)
  | t_return :
      ctl st = Gathering → forallb is_fulfilled (ret st) = true →
      transition st (with_ctl Returned st)
  | t_start i p :
      ret st !! i = Some p → state p = Scheduled →
      transition st (with_task i (Running (steps (prog p))) (logfile st) st)
  | t_perform i p a rest :
      ret st !! i = Some p → state p = Running (a :: rest) →
      transition st (with_task i (Running rest) (perform a (logfile st)) st)
  | t_settle i p :
      ret st !! i = Some p → state p = Running [] →
      transition st
        (with_task i (if rejects (prog p) then Rejected else Fulfilled)
           (logfile st) st)
  | t_then i p :
      ret st !! i = Some p → state p = Fulfilled → i ∈ executing st →
      transition st (spliced i st)
  | t_abort :
      (∃ b, ctl st = Racing b) ∨ ctl st = Gathering →
      existsb is_rejected (ret st) = true →
      transition st (with_ctl Failed st).

(** A schedule is the list of who ran, in order. *)
Fixpoint run_pool (cs : list choice) (st : pool) : option pool :=
  match cs with
  | [] => Some st
  | c :: cs' =>
      match step c st with
      | Some st' => run_pool cs' st'
      | None => None
      end
  end.

Definition reachable (file : option jsstring) (st : pool) : Prop :=
  ∃ cs, run_pool cs (pool_init file) = Some st.

(** Nothing can run any more. *)
Definition quiescent (st : pool) : Prop := ∀ c, step c st = None.

(** One schedule among all: the body of [asyncPool] whenever it can run,
    else the first callback or task that can. *)
Definition enabled (st : pool) : list choice :=
  List.filter (fun c => bool_decide (is_Some (step c st)))
    (Main :: Abort :: map Then (seq 0 (length (ret st)))
       ++ map Task (seq 0 (length (ret st)))).

Fixpoint first_schedule (fuel : nat) (st : pool) : list choice :=
  match fuel with
  | O => []
  | S fuel' =>
      match enabled st with
      | c :: _ => match step c st with
                  | Some st' => c :: first_schedule fuel' st'
                  | None => []
                  end
      | [] => []
      end
  end.

Fixpoint run_first (fuel : nat) (st : pool) : pool :=
  match fuel with
  | O => st
  | S fuel' =>
      match enabled st with
      | c :: _ => match step c st with
                  | Some st' => run_first fuel' st'
                  | None => st
                  end
      | [] => st
      end
  end.
End AsyncPool.

(** ** [downloadFromList] (lines 450-478) *)

(** The filter on the lines of the list file (line 454). *)
Definition batch_urls (downloadedSet : gset jsstring) (fileContent : jsstring)
  : list jsstring :=
  List.filter
    (fun url => nonempty (trim url) && negb (bool_decide (url ∈ downloadedSet)))
    (split_lines fileContent).

Definition concurrencyLimit : Z := 5.

(** A batch run, from the command line, the log file as it is on disk
    and the content of the list file; [world i] is what the [i]-th task
    meets. *)
Section Batch.
Variable a : argv.
Variable world : nat → task_env.
Variable logfile0 : option jsstring.
Variable fileContent : jsstring.

Definition urls : list jsstring :=
  batch_urls (readDownloadedLog logfile0) fileContent.

Definition batch_task (i : nat) (url : jsstring) : program :=
  downloadTask a (world i) url.

Definition batch_run (cs : list choice) : option pool :=
  run_pool concurrencyLimit urls batch_task cs (pool_init urls logfile0).

Definition batch_reachable (st : pool) : Prop :=
  reachable concurrencyLimit urls batch_task logfile0 st.


(** The task of the [i]-th URL gets through: the URL is resolved, a
    download attempt succeeds within the retries, and the append to the
    log goes through. *)
Definition succeeds (i : nat) (url : jsstring) : bool :=
  match fetchLoomDownloadUrl (net (world i)) (extractId url) with
  | Throw _ => false
  | Return _ =>
      match (backoff 5 (download (world i)) 1000).2 with
      | Some _ => false
      | None => append_ok (world i)
      end
  end.

(** The lines of the tasks that get through, in the order of the list. *)
Definition succeeded_lines : list jsstring :=
  concat (imap (fun i url => if succeeds i url then [log_line url] else [])
            urls).
End Batch.


(** ** Invariants of the pool *)

(** The data of the appends that go through, among some operations. *)
Definition writes (l : list action) : list jsstring :=
  omap (fun a => match a with
                 | AAppend data true => Some data
                 | _ => None
                 end) l.

Definition write_all (file : option jsstring) (ds : list jsstring)
  : option jsstring :=
  fold_left appendFile ds file.

(** The operations a task has still to perform. *)
Definition remaining (p : promise) : list action :=
  match state p with
  | Scheduled => steps (prog p)
  | Running rest => rest
  | Fulfilled | Rejected => []
  end.

Section PoolInvariants.
Variable poolLimit : Z.
Variable array : list jsstring.
Variable iteratorFn : nat → jsstring → program.

Record structure_inv (st : pool) : Prop := {
  inv_items : map item (ret st) ++ todo st = array;
  inv_range : ∀ i, i ∈ executing st → (i < length (ret st))%nat;
  inv_pending :
    tracked poolLimit array = true →
    ∀ i p, ret st !! i = Some p → pending p = true → i ∈ executing st;
  inv_untracked :
    tracked poolLimit array = false →
    executing st = [] ∧ ∀ b, ctl st ≠ Racing b;
  inv_bound : Z.of_nat (length (executing st)) ≤ Z.max poolLimit 1;
  inv_room :
    ctl st = Looping ∨ ctl st = Racing true →
    Z.of_nat (length (executing st)) < Z.max poolLimit 1;
  inv_racing : ctl st = Racing false → executing st ≠ [];
  inv_done : ctl st = Gathering ∨ ctl st = Returned → todo st = [];
  inv_returned : ctl st = Returned → forallb is_fulfilled (ret st) = true
}.

(** Every write the tasks will ever make, and those still to come in a
    state. *)
Definition task_writes (i : nat) (x : jsstring) : list jsstring :=
  writes (steps (iteratorFn i x)).

Definition total_writes : list jsstring :=
  concat (imap task_writes array).

Definition pending_writes (st : pool) : list jsstring :=
  concat (map (fun p => writes (remaining p)) (ret st))
  ++ concat (imap (fun j => task_writes (length (ret st) + j)) (todo st)).

Definition writes_inv (file : option jsstring) (st : pool) : Prop :=
  ∃ written,
    logfile st = write_all file written
    ∧ written ++ pending_writes st ≡ₚ total_writes.

(** No promise has rejected and [asyncPool] has not thrown. *)
Definition never_rejected (st : pool) : Prop :=
  (∀ p, p ∈ ret st → rejects (prog p) = false ∧ state p ≠ Rejected)
  ∧ ctl st ≠ Failed.

(** A measure that every step decreases. *)
Definition status_weight (p : promise) : nat :=
  match state p with
  | Scheduled => length (steps (prog p)) + 2
  | Running rest => length rest + 1
  | Fulfilled | Rejected => 0
  end%nat.

Definition control_weight (c : control) : nat :=
  match c with
  | Racing false => 4
  | Racing true => 3
  | Looping => 2
  | Gathering => 1
  | Returned | Failed => 0
  end%nat.

Definition task_weight (i : nat) (x : jsstring) : nat :=
  (length (steps (iteratorFn i x)) + 6)%nat.

Definition measure (st : pool) : nat :=
  (sum_list (imap (fun j => task_weight (length (ret st) + j)) (todo st))
   + sum_list_with status_weight (ret st)
   + length (executing st) + control_weight (ctl st))%nat.
End PoolInvariants.

(** ** Predicates and inputs of the statements below *)

(** An attempt that fails at every call. *)
Definition always_fails {E} (fn : nat → option E) : Prop := ∀ k, fn k ≠ None.

Definition failing_attempt : nat → option jsstring :=
  fun _ => Some (str "ffmpeg exited with code 1").

Definition three_attempts : list event :=
  [Attempt; Sleep 1000; Attempt; Sleep 2000; Attempt].

Definition example_share_url : jsstring :=
  str "https://example.com/share/abc123?t=5".

Definition trailing_slash_url : jsstring :=
  str "https://www.loom.com/share/abc123/".

(** The page has an embedded state that [JSON.parse] accepts. *)
Definition embedded_state (html : jsstring) (apolloState : JsValue) : Prop :=
  ∃ m text,
    exec apolloStateRegex html = Some m ∧ group1 m = Some text
    ∧ JSON_parse text = Some apolloState.

(** The URL a video record holds for a class of media, and whether the
    record [key] is a video record that holds a usable one. *)
Definition media_url (mime_key : jsstring) (apolloState : JsValue)
    (key : jsstring) : JsValue :=
  get (get (get apolloState key) mime_key) (str "url").

Definition has_media (mime_key : jsstring) (apolloState : JsValue)
    (key : jsstring) : bool :=
  startsWith key (str "RegularUserVideo:")
  && truthy (get apolloState key)
  && truthy (get (get apolloState key) mime_key)
  && truthy (media_url mime_key apolloState key).

(** None of the five methods finds a URL in the page. *)
Definition no_strategy_matches (html : jsstring) : Prop :=
  method1 html JNull = JNull
  ∧ match_all mp4Regex html 0 = []
  ∧ exec scriptRegex html = None
  ∧ exec downloadRegex html = None
  ∧ exec videoRegex html = None.

(** JSON text of a property [key: value] and of a record with one URL. *)
Definition json_string (s : jsstring) : jsstring :=
  [c_dquote] ++ s ++ [c_dquote].

Definition json_cdn_key (mime : jsstring) : jsstring :=
  [c_dquote] ++ str "nullableRawCdnUrl({" ++ [c_bslash; c_dquote]
  ++ str "acceptableMimes" ++ [c_bslash; c_dquote] ++ str ":["
  ++ [c_bslash; c_dquote] ++ mime ++ [c_bslash; c_dquote] ++ str "]})"
  ++ [c_dquote].

Definition json_media (mime url : jsstring) : jsstring :=
  json_cdn_key mime ++ str ":{" ++ json_string (str "url") ++ str ":"
  ++ json_string url ++ str "}".

Definition m3u8_url : jsstring := str "https://cdn.loom.com/v/2.m3u8".
Definition dash_url : jsstring := str "https://cdn.loom.com/v/1.mpd".

(** A page whose state has a record with a DASH URL only, followed by a
    record with an M3U8 URL. *)
Definition dash_first_page : jsstring :=
  str "<script>window.__APOLLO_STATE__ = {"
  ++ json_string (str "RegularUserVideo:1") ++ str ":{"
  ++ json_media (str "DASH") dash_url ++ str "},"
  ++ json_string (str "RegularUserVideo:2") ++ str ":{"
  ++ json_media (str "M3U8") m3u8_url ++ str "}};</script>".

Definition dash_first_state : JsValue :=
  JObj [(str "RegularUserVideo:1",
         JObj [(DASH_key, JObj [(str "url", JStr dash_url)])]);
        (str "RegularUserVideo:2",
         JObj [(M3U8_key, JObj [(str "url", JStr m3u8_url)])])].

(** A page whose state has one record, with both URLs, DASH first. *)
Definition both_page : jsstring :=
  str "<script>window.__APOLLO_STATE__ = {"
  ++ json_string (str "RegularUserVideo:1") ++ str ":{"
  ++ json_media (str "DASH") dash_url ++ str ","
  ++ json_media (str "M3U8") m3u8_url ++ str "}};</script>".

Definition both_state : JsValue :=
  JObj [(str "RegularUserVideo:1",
         JObj [(DASH_key, JObj [(str "url", JStr dash_url)]);
               (M3U8_key, JObj [(str "url", JStr m3u8_url)])])].

(** A page without any URL, and a world that serves it and whose old API
    answers with an error. *)
Definition private_page : jsstring :=
  str "<html><body>This video is private</body></html>".

Definition private_world : env :=
  {| http_get := fun _ => Return private_page;
     http_post := fun _ => Throw (str "Request failed with status code 404");
     write_file := fun _ => Return () |}.

Definition two_links_page : jsstring :=
  str "<video src='https://cdn.loom.com/v/720.mp4'></video> <a href='https://cdn.loom.com/v/1080.mp4?sig=abc'>".

(** A batch: the log holds [url_A], the list holds [url_A] and [url_B]. *)
Definition url_A : jsstring := str "https://www.loom.com/share/aaa111".
Definition url_B : jsstring := str "https://www.loom.com/share/bbb222".
Definition log_with_A : option jsstring := Some (log_line url_A).
Definition list_A_B : jsstring := url_A ++ [c_lf] ++ url_B.

Definition timeout_argv (t : Z) : argv :=
  {| argv_url := None; argv_list := Some (str "urls.txt");
     argv_prefix := None; argv_out := None; argv_timeout := Some t |}.

(** A world in which a task gets through at the first attempt, and one in
    which the page holds no URL. *)
Definition links_world : env :=
  {| http_get := fun _ => Return two_links_page;
     http_post := fun _ => Throw (str "Request failed with status code 404");
     write_file := fun _ => Return () |}.

Definition good_task : task_env :=
  {| net := links_world; download := fun _ => None; append_ok := true |}.

Definition bad_task : task_env :=
  {| net := private_world; download := fun _ => None; append_ok := true |}.

(** Five tasks, of which the first and the third fail. *)
Definition five_urls : list jsstring :=
  [str "https://www.loom.com/share/v1"; str "https://www.loom.com/share/v2";
   str "https://www.loom.com/share/v3"; str "https://www.loom.com/share/v4";
   str "https://www.loom.com/share/v5"].

Definition five_list : jsstring :=
  concat (map (fun url => url ++ [c_lf]) five_urls).

Definition first_and_third_fail (i : nat) : task_env :=
  if ((i =? 0) || (i =? 2))%nat then bad_task else good_task.

Definition five_tasks (i : nat) (url : jsstring) : program :=
  downloadTask (timeout_argv 1000) (first_and_third_fail i) url.

(** The pool of limit 2 on the five tasks once two tasks are started, and
    at the end of its first schedule. *)
Definition two_started : pool :=
  default (pool_init five_urls None)
    (run_pool 2 five_urls five_tasks [Main; Main; Task 0; Task 1]
       (pool_init five_urls None)).

Definition five_done : pool :=
  run_first 2 five_urls five_tasks 100 (pool_init five_urls None).

(** The batch of [downloadFromList] on the same list, run to its end. *)
Definition batch_done : pool :=
  run_first concurrencyLimit five_urls five_tasks 100
    (pool_init five_urls None).

Definition batch_schedule : list choice :=
  first_schedule concurrencyLimit five_urls five_tasks 100
    (pool_init five_urls None).

(** ** External programs (lines 372-428, 537-581)

    A program that [spawn] starts ends with the [close] event and an exit
    code, [null] when a signal ended it, or never starts and gives the
    [error] event. *)

Inductive exit :=
  | Closed (code : option Z)
  | Errored (message : jsstring).

(** [code === 0] *)
Definition exited_zero (r : exit) : bool :=
  match r with
  | Closed (Some code) => code =? 0
  | _ => false
  end.

(** An integer in a template literal, and an exit code, which may be
    [null]. *)
Definition show_Z (z : Z) : jsstring :=
  str (NilZero.string_of_int (Z.to_int z)).

Definition show_code (code : option Z) : jsstring :=
  match code with
  | Some z => show_Z z
  | None => str "null"
  end.

(** The promise around a spawned program: it resolves on exit code 0,
    rejects with [failed_with] followed by the code on any other code, and
    with the error of the [error] event ([wrap] put before its message). *)
Definition spawned (failed_with wrap : jsstring) (r : exit) : outcome unit :=
  match r with
  | Closed code =>
      if exited_zero r then Return ()
      else Throw (failed_with ++ show_code code)
  | Errored message => Throw (wrap ++ message)
  end.

(** [checkYtDlpAvailability] and [checkFfmpegAvailability], on the end of
    [yt-dlp --version] and of [ffmpeg -version]. *)
Definition checkYtDlpAvailability (r : exit) : bool := exited_zero r.
Definition checkFfmpegAvailability (r : exit) : bool := exited_zero r.

Definition downloadWithYtDlp (r : exit) : outcome unit :=
  spawned (str "yt-dlp exited with code ") [] r.

(** Three more ways to call yt-dlp (lines 584-647 and 799-914), which
    nothing calls: each is one program. *)
Definition downloadWithYtDlpAdvanced (r : exit) : outcome unit :=
  spawned (str "yt-dlp advanced exited with code ") [] r.

Definition downloadWithAudioExtraction (r : exit) : outcome unit :=
  spawned (str "yt-dlp audio extraction exited with code ") [] r.

Definition downloadWithExplicitAudioVideo (r : exit) : outcome unit :=
  spawned (str "yt-dlp explicit A+V exited with code ") [] r.

(** [s.includes(sub)] *)
Fixpoint includes (s sub : jsstring) : bool :=
  startsWith s sub
  || match s with
     | [] => false
     | _ :: s' => includes s' sub
     end.

(** ** [downloadLoomVideo] (lines 217-328)

    The URL is a string here, as [fetchLoomDownloadUrl] returns it from
    every page whose state holds its URLs as strings. A program counts with
    the first of its events [close] and [error]; a response with status 200
    is taken to reach the file. *)

(** The answer to [https.get]: a status code and the [location] header, or
    the error of the request. *)
Inductive https_answer :=
  | Response (statusCode : Z) (location : option jsstring)
  | RequestError (message : jsstring).

Record download_world := {
  make_dir : outcome unit;       (* existsSync and mkdirSync, lines 221-223 *)
  ytdlp_version : exit;          (* yt-dlp --version *)
  ytdlp : exit;                  (* yt-dlp on the URL *)
  ffmpeg : exit;                 (* ffmpeg -i url ... *)
  https : https_answer           (* https.get(url) *)
}.

(** Lines 239-282: the stream is copied by ffmpeg. *)
Definition download_m3u8 (r : exit) : outcome unit :=
  spawned (str "ffmpeg exited with code ") [] r.

(** Lines 300-321: only the status 200 is piped to the file. *)
Definition download_https (a : https_answer) : outcome unit :=
  match a with
  | Response statusCode location =>
      if statusCode =? 403 then Throw (str "Received 403 Forbidden")
      else if (statusCode =? 302) || (statusCode =? 301) then
        Throw (str "Received redirect " ++ show_Z statusCode ++ str " to "
               ++ default (str "undefined") location)
      else if negb (statusCode =? 200) then
        Throw (str "Received status code " ++ show_Z statusCode)
      else Return ()
  | RequestError message => Throw message
  end.

Definition is_return {A} (o : outcome A) : bool :=
  match o with Return _ => true | Throw _ => false end.

Definition downloadLoomVideo (w : download_world) (url : jsstring)
  : outcome unit :=
  match make_dir w with
  | Throw e => Throw e
  | Return _ =>
      if checkYtDlpAvailability (ytdlp_version w)
         && is_return (downloadWithYtDlp (ytdlp w))
      then Return ()
      else if includes url (str ".m3u8") then download_m3u8 (ffmpeg w)
      else download_https (https w)
  end.

(** ** [listAvailableFormats] (lines 650-720)

    The chunks of the standard output are strings already. A chunk is put
    to lower case to look for two words of ASCII letters. Outside ASCII
    only the Kelvin sign and the dotted capital I have ASCII letters in
    their lower case, a [k] and an [i] followed by a combining dot, and
    neither gives an occurrence of the two words: the lower case of the
    ASCII letters decides. *)

Definition lower_ascii (c : N) : N :=
  if ((65 <=? c) && (c <=? 90))%N then (c + 32)%N else c.

Record format_info := { output : jsstring; hasAudio : bool; hasVideo : bool }.

Definition audio_chunk (chunk : jsstring) : bool :=
  includes (map lower_ascii chunk) (str "audio")
  || includes chunk (str "m4a") || includes chunk (str "aac").

Definition video_chunk (chunk : jsstring) : bool :=
  includes (map lower_ascii chunk) (str "video")
  || includes chunk (str "mp4") || includes chunk (str "m3u8").

Definition listAvailableFormats (stdout : list jsstring) (r : exit)
  : outcome format_info :=
  match spawned (str "Format check failed with code ") [] r with
  | Return _ =>
      Return {| output := concat stdout;
                hasAudio := existsb audio_chunk stdout;
                hasVideo := existsb video_chunk stdout |}
  | Throw e => Throw e
  end.

(** ** [downloadWithSeparateStreams] (lines 917-1066)

    Three programs in a row: yt-dlp for the video stream, yt-dlp for the
    audio stream, ffmpeg to combine them. The names of the files play no
    part in the control flow and are left out. *)

Record streams_world := {
  video_stream : exit;
  audio_stream : exit;
  combine : exit
}.

Definition downloadWithSeparateStreams (w : streams_world) : outcome unit :=
  match spawned (str "Video download failed with code ") [] (video_stream w) with
  | Throw e => Throw e
  | Return _ =>
      match spawned (str "Audio download failed with code ") []
              (audio_stream w) with
      | Throw e => Throw e
      | Return _ =>
          spawned (str "FFmpeg failed with code ") (str "FFmpeg error: ")
            (combine w)
      end
  end.

(** ** [downloadSingleFile] (lines 480-534)

    [url] is [argv.url], which [main] has found truthy. *)

Record single_world := {
  single_version : exit;             (* yt-dlp --version, line 484 *)
  formats_stdout : list jsstring;    (* yt-dlp --list-formats *)
  formats : exit;
  streams : streams_world;
  single_net : env;
  single_download : download_world;
  (* downloadLoomVideo on a URL that is not a string: what the engine and
     the programs make of it is not modelled *)
  other_download : JsValue -> outcome unit
}.

(** Lines 508-533: the page is fetched and the URL found is downloaded;
    the [catch] prints advice and throws the same error again. *)
Definition manual_download (w : single_world) (url : jsstring) : outcome unit :=
  match fetchLoomDownloadUrl (single_net w) (extractId url) with
  | Throw e => Throw e
  | Return (JStr downloadUrl) =>
      downloadLoomVideo (single_download w) downloadUrl
  | Return downloadUrl => other_download w downloadUrl
  end.

Definition downloadSingleFile (w : single_world) (url : jsstring)
  : outcome unit :=
  if checkYtDlpAvailability (single_version w)
     && is_return (listAvailableFormats (formats_stdout w) (formats w))
     && is_return (downloadWithSeparateStreams (streams w))
  then Return ()
  else manual_download w url.

(** ** [main] (lines 1068-1097) and [testNetworkConnectivity] (352-369) *)

(** The request of the connectivity test succeeds or throws; the function
    returns [true] in both cases. *)
Definition testNetworkConnectivity (request : outcome Z) : bool :=
  match request with
  | Return _ => true
  | Throw _ => true
  end.

Record main_world := {
  connectivity : outcome Z;
  ffmpeg_version : exit;
  main_ytdlp_version : exit
}.

(** What [main] does: it ends the process with code 1, it runs
    [downloadFromList], it runs [downloadSingleFile] on [argv.url], or it
    does nothing. *)
Inductive main_action :=
  | Exit1
  | RunList
  | RunSingle (url : jsstring)
  | Nothing.

Definition main (a : argv) (w : main_world) : main_action :=
  if negb (testNetworkConnectivity (connectivity w)) then Exit1
  else if negb (checkFfmpegAvailability (ffmpeg_version w))
          && negb (checkYtDlpAvailability (main_ytdlp_version w))
  then Exit1
  else if given (argv_list a) then RunList
  else
    match argv_url a with
    | Some url => if nonempty url then RunSingle url else Nothing
    | None => Nothing
    end.

(** ** Predicates and inputs of the further statements *)

(** The log is written and read as UTF-8, which carries a string over
    when its surrogates come in pairs. *)
Definition high_surrogate (c : N) : bool := ((55296 <=? c) && (c <=? 56319))%N.
Definition low_surrogate (c : N) : bool := ((56320 <=? c) && (c <=? 57343))%N.

Fixpoint well_formed (s : jsstring) : bool :=
  match s with
  | [] => true
  | c :: s' =>
      if high_surrogate c then
        match s' with
        | d :: s'' => low_surrogate d && well_formed s''
        | [] => false
        end
      else negb (low_surrogate c) && well_formed s'
  end.

(** A line that [appendToLogFile] and [readDownloadedLog] carry over
    unchanged: no line feed in it, no carriage return at its end. *)
Definition clean_line (url : jsstring) : Prop :=
  well_formed url = true ∧ (c_lf ∉ url) ∧ List.last url c_lf ≠ c_cr.

(** Some task of the batch on this URL got through. *)
Definition got_through (world : nat → task_env) (logfile0 : option jsstring)
    (fileContent url : jsstring) : bool :=
  existsb id
    (imap (fun i u => bool_decide (u = url) && succeeds world i u)
       (urls logfile0 fileContent)).

(** A log as [appendToLogFile] leaves it: missing, or empty, or ended by a
    line feed. *)
Definition closed_log (file : option jsstring) : Prop :=
  match file with
  | None => True
  | Some data => data = [] ∨ ∃ d, data = d ++ [c_lf]
  end.

(** The escape the pages use for a slash, a backslash followed by [u002F],
    and a URL with each slash escaped. *)
Definition escaped_slash : jsstring := [c_bslash] ++ str "u002F".

Definition escape_slashes (url : jsstring) : jsstring :=
  concat (map (fun c => if (c =? c_slash)%N then escaped_slash else [c]) url).

(** The calls of [downloadLoomVideo] among some operations. *)
Definition downloads (l : list action) : nat :=
  length (List.filter
            (fun a => match a with ADownload _ => true | _ => false end) l).

(** The strings a regular expression matches, the parentheses apart. *)
Inductive lang : regex → jsstring → Prop :=
  | lang_end : lang [] []
  | lang_one a r c w :
      atom_matches a c = true → lang r w → lang (One a :: r) (c :: w)
  | lang_star greedy a r cs w :
      Forall (fun c => atom_matches a c = true) cs → lang r w →
      lang (Star greedy a :: r) (cs ++ w)
  | lang_open r w : lang r w → lang (Open :: r) w
  | lang_close r w : lang r w → lang (Close :: r) w.

(** A field of a script of the page: the name in double quotes, a colon,
    white space, the value in double quotes. *)
Definition field_text (name ws value : jsstring) : jsstring :=
  [c_dquote] ++ name ++ [c_dquote] ++ str ":" ++ ws ++
  [c_dquote] ++ value ++ [c_dquote].

(** The regular expression of methods 3 and 4 for a field name. *)
Definition field_regex (name : jsstring) : regex :=
  [One (Chr c_dquote)] ++ lit name ++ [One (Chr c_dquote)] ++
  lit (str ":") ++ [Star true SpaceChar] ++ [One (Chr c_dquote)] ++
  [Open] ++ plus (NotIn [c_dquote] false) ++ [Close] ++ [One (Chr c_dquote)].

(** The characters a match has taken, in order. *)
Definition taken (cs : jsstring) (m : captures) : captures :=
  fold_left (fun m c => take_char c m) cs m.

(** An iterator function whose promises reject at once. *)
Definition rejecting_task (i : nat) (x : jsstring) : program :=
  {| steps := []; rejects := true |}.

(** Two ways the same output of [yt-dlp --list-formats] can arrive. *)
Definition one_chunk : list jsstring := [str "audio only"].
Definition two_chunks : list jsstring := [str "au"; str "dio only"].

(** A world of [downloadLoomVideo] in which yt-dlp is missing and the
    server answers with a redirect. *)
Definition redirect_world : download_world :=
  {| make_dir := Return ();
     ytdlp_version := Errored (str "spawn yt-dlp ENOENT");
     ytdlp := Errored (str "spawn yt-dlp ENOENT");
     ffmpeg := Closed (Some 0);
     https := Response 302 (Some (str "https://cdn.loom.com/next.mp4")) |}.

(** A single download in which yt-dlp lists the formats and then fails on
    the video stream, and the page is private. *)
Definition failing_single : single_world :=
  {| single_version := Closed (Some 0);
     formats_stdout := one_chunk;
     formats := Closed (Some 0);
     streams := {| video_stream := Closed (Some 1);
                   audio_stream := Closed (Some 0);
                   combine := Closed (Some 0) |};
     single_net := private_world;
     single_download := redirect_world;
     other_download := fun _ => Return () |}.

Definition url_argv (url : jsstring) : argv :=
  {| argv_url := Some url; argv_list := None; argv_prefix := None;
     argv_out := None; argv_timeout := None |}.

Definition tools_world : main_world :=
  {| connectivity := Throw (str "timeout of 30000ms exceeded");
     ffmpeg_version := Closed (Some 0);
     main_ytdlp_version := Errored (str "spawn yt-dlp ENOENT") |}.

(** ** The output file of a task (lines 462-463)

    [urls.indexOf(url)]: the first position of the URL in the work list,
    and -1 when it is not there. The name is joined to the output
    directory afterwards, which is left out. *)
Fixpoint indexOf_from (k : Z) (url : jsstring) (l : list jsstring) : Z :=
  match l with
  | [] => -1
  | x :: l' => if bool_decide (x = url) then k else indexOf_from (k + 1) url l'
  end.

Definition indexOf (url : jsstring) (l : list jsstring) : Z :=
  indexOf_from 0 url l.

Definition task_filename (a : argv) (urls : list jsstring) (url : jsstring)
  : jsstring :=
  let id := extractId url in
  if given (argv_prefix a) then
    default [] (argv_prefix a) ++ str "-" ++ show_Z (indexOf url urls + 1)
    ++ str "-" ++ id ++ str ".mp4"
  else id ++ str ".mp4".

Definition c_minus : N := 45.

Definition prefix_argv (prefix : jsstring) : argv :=
  {| argv_url := None; argv_list := Some (str "urls.txt");
     argv_prefix := Some prefix; argv_out := None; argv_timeout := None |}.

(** * Properties *)

(** ** The helpers on small inputs *)

Example split_lines_crlf :
  split_lines (str "a" ++ [c_cr; c_lf] ++ str "b" ++ [c_cr] ++ str "c" ++ [c_lf])
  = [str "a"; str "b" ++ [c_cr] ++ str "c"; []].
Proof. vm_compute; reflexivity. Qed.

Example trim_spaces :
  trim ([9; 32; 160; 65279]%N ++ str "a b" ++ [10; 13; 8232]%N) = str "a b".
Proof. vm_compute; reflexivity. Qed.

Example apollo_regex_is_lazy :
  option_map group1
    (exec apolloStateRegex (str "window.__APOLLO_STATE__ = {a:{b:1};c};};"))
  = Some (Some (str "{a:{b:1}")).
Proof. vm_compute; reflexivity. Qed.

Example mp4_regex_matches :
  match_all mp4Regex
    (str "x https://a.b/c.mp4?x=1 https://z.mp4.mp4'https://q.mp3 https://.mp4") 0
  = [str "https://a.b/c.mp4?x=1"; str "https://z.mp4.mp4"].
Proof. vm_compute; reflexivity. Qed.

Example video_regex_ignores_case :
  option_map group1
    (exec videoRegex
       ([c_dquote] ++ str "thumbnailVIDEO_url" ++ [c_dquote] ++ str ": "
        ++ [c_dquote] ++ str "HTTPS://x.y/z" ++ [c_dquote]))
  = Some (Some (str "HTTPS://x.y/z")).
Proof. vm_compute; reflexivity. Qed.

Example escaped_slashes_replaced :
  replace_all escapedSlashRegex (str "/")
    (str "https:" ++ [c_bslash] ++ str "u002F" ++ [c_bslash] ++ str "u002Fcdn") 0
  = str "https://cdn".
Proof. vm_compute; reflexivity. Qed.

Example parse_duplicate_key :
  JSON_parse (str "{" ++ [c_dquote] ++ str "b" ++ [c_dquote] ++ str ":1, "
              ++ [c_dquote] ++ str "a" ++ [c_dquote] ++ str ":[true,null], "
              ++ [c_dquote] ++ str "b" ++ [c_dquote] ++ str ":-2.5e3}")
  = Some (JObj [(str "b", JNum {| neg := true; mant := 25; exp10 := 2 |});
                (str "a", JArr [JBool true; JNull])]).
Proof. vm_compute; reflexivity. Qed.

Example parse_rejects :
  JSON_parse (str "{a:1}") = None ∧ JSON_parse (str "[1,]") = None
  ∧ JSON_parse (str "01") = None ∧ JSON_parse (str "{} x") = None.
Proof. repeat split; vm_compute; reflexivity. Qed.

Example number_truthiness :
  map truthy
    [JNum {| neg := true; mant := 0; exp10 := 0 |};
     JNum {| neg := false; mant := 2; exp10 := -324 |};
     JNum {| neg := false; mant := 3; exp10 := -324 |};
     JStr []; JStr (str "0"); JArr []; JNull]
  = [false; false; true; false; true; true; false].
Proof. vm_compute; reflexivity. Qed.

Example for_in_order :
  for_in_keys (JObj [(str "b", JNull); (str "10", JNull); (str "2", JNull);
                     (str "01", JNull); (str "a", JNull)])
  = [str "2"; str "10"; str "b"; str "01"; str "a"].
Proof. vm_compute; reflexivity. Qed.

(** ** Splitting strings and [extractId] *)

(** The pieces of [split_on]: the first one is what precedes the first
    separator, the last one what follows the last separator. *)
Lemma split_on_shape sep s :
  ∃ seg segs, split_on sep s = seg :: segs ∧ (sep ∉ seg) ∧
    match segs with
    | [] => s = seg
    | _ :: _ =>
        ∃ mid, s = seg ++ sep :: mid ++ List.last segs []
               ∧ (mid = [] ∨ ∃ m, mid = m ++ [sep])
               ∧ (sep ∉ List.last segs [])
    end.
Proof.
  induction s as [|c s (seg & segs & Hs & Hseg & IH)]; simpl.
  - exists [], []. split_and!; [done|set_solver|done].
  - rewrite Hs. destruct (N.eqb_spec c sep) as [->|Hne].
    + exists [], (seg :: segs). split_and!; [done|set_solver|].
      destruct segs as [|seg' segs].
      * exists []. subst s. split_and!; [done|by left|done].
      * destruct IH as (mid & -> & Hmid & Hlast).
        exists (seg ++ sep :: mid).
        change (List.last (seg :: seg' :: segs) [])
          with (List.last (seg' :: segs) []).
        split_and!; [by rewrite <- app_assoc| |done].
        right. destruct Hmid as [->|[m ->]]; [by exists seg|].
        exists (seg ++ sep :: m). by rewrite <- app_assoc.
    + exists (c :: seg), segs. split; [done|].
      split; [intros [Heq|Hin]%elem_of_cons; [by subst|done]|].
      destruct segs as [|seg' segs]; [by subst|].
      destruct IH as (mid & -> & Hmid & Hlast). by exists mid.
Qed.

(** A share URL with a trailing slash has an empty identifier. *)
Lemma extractId_trailing_slash :
  extractId trailing_slash_url = []
  ∧ extractId (trailing_slash_url ++ str "?t=5") = [].
Proof. split; vm_compute; reflexivity. Qed.

(** The identifier is a piece of the URL: what precedes it is empty or
    ends in a slash, what follows it is empty or starts at the first
    question mark. *)
Lemma extractId_decompose url :
  ∃ pre rest,
    url = pre ++ extractId url ++ rest
    ∧ (rest = [] ∨ ∃ r, rest = c_qmark :: r)
    ∧ (pre = [] ∨ ∃ p, pre = p ++ [c_slash])
    ∧ (c_qmark ∉ pre ++ extractId url)
    ∧ (c_slash ∉ extractId url).
Proof.
  unfold extractId.
  destruct (split_on_shape c_qmark url) as (base & qs & Hq & Hbase & Hurl).
  rewrite Hq. simpl hd.
  assert (∃ rest, url = base ++ rest ∧ (rest = [] ∨ ∃ r, rest = c_qmark :: r))
    as (rest & -> & Hrest).
  { destruct qs as [|q qs].
    - exists []. rewrite app_nil_r. split; [done|by left].
    - destruct Hurl as (mid & -> & _ & _). eexists. split; [done|]. right; eauto. }
  clear Hq Hurl.
  destruct (split_on_shape c_slash base) as (seg & segs & Hs & Hseg & Hshape).
  rewrite Hs. destruct segs as [|seg' segs].
  - subst seg. exists [], rest. simpl. split_and!; try done. by left.
  - destruct Hshape as (mid & Hb & Hmid & Hlast).
    change (List.last (seg :: seg' :: segs) []) with (List.last (seg' :: segs) []).
    exists (seg ++ c_slash :: mid), rest.
    split_and!; try done.
    + rewrite Hb. by simplify_list_eq.
    + right. destruct Hmid as [->|[m ->]]; [by exists seg|].
      exists (seg ++ c_slash :: m). by simplify_list_eq.
    + replace ((seg ++ c_slash :: mid) ++ List.last (seg' :: segs) [])
        with base; [done|]. rewrite Hb. by simplify_list_eq.
Qed.

(** The part of a string that precedes the first occurrence of a character
    is determined. *)
Lemma before_first_unique (c : N) (l1 l2 r1 r2 : jsstring) :
  l1 ++ r1 = l2 ++ r2 →
  c ∉ l1 → c ∉ l2 →
  (r1 = [] ∨ ∃ r, r1 = c :: r) → (r2 = [] ∨ ∃ r, r2 = c :: r) →
  l1 = l2.
Proof.
  revert l2. induction l1 as [|x l1 IH]; intros [|y l2] Heq H1 H2 Hr1 Hr2;
    simpl in Heq.
  - done.
  - destruct Hr1 as [->|[r ->]]; [done|]. simplify_eq.
    exfalso. apply H2. by left.
  - destruct Hr2 as [->|[r ->]]; [done|]. simplify_eq.
    exfalso. apply H1. by left.
  - simplify_eq. f_equal. apply IH; try done.
    + intros ?. apply H1. by right.
    + intros ?. apply H2. by right.
Qed.

(** C8, as the code has it: [extractId] returns what follows the last [/]
    in the part of the URL that precedes the first [?], a segment without
    [/] and [?]; the segment is empty exactly when that part is empty or
    ends in [/]. On the example of the specification it is [abc123]. *)
Theorem extractId_last_segment url :
  (∃ pre rest,
      url = pre ++ extractId url ++ rest
      ∧ (rest = [] ∨ ∃ r, rest = c_qmark :: r)
      ∧ (pre = [] ∨ ∃ p, pre = p ++ [c_slash])
      ∧ (c_qmark ∉ pre ++ extractId url)
      ∧ (c_slash ∉ extractId url))
  ∧ (extractId url = [] ↔
     ∃ base rest,
       url = base ++ rest
       ∧ (c_qmark ∉ base)
       ∧ (rest = [] ∨ ∃ r, rest = c_qmark :: r)
       ∧ (base = [] ∨ ∃ p, base = p ++ [c_slash]))
  ∧ extractId example_share_url = str "abc123".
Proof.
  split; [apply extractId_decompose|]. split; [|vm_compute; reflexivity].
  destruct (extractId_decompose url) as (pre & rest & Hurl & Hrest & Hpre & Hq & Hs).
  split.
  - intros Hid. rewrite Hid, app_nil_r in Hq. rewrite Hid in Hurl.
    by exists pre, rest.
  - intros (base & rest' & Hurl' & Hq' & Hrest' & Hbase).
    rewrite app_assoc in Hurl. rewrite Hurl' in Hurl at 1.
    pose proof (before_first_unique _ _ _ _ _ Hurl Hq' Hq Hrest' Hrest) as Hb.
    destruct Hbase as [->|[p ->]].
    + symmetry in Hb. by apply app_eq_nil in Hb as [_ ?].
    + destruct (extractId url) as [|x id _] using rev_ind; [done|].
      rewrite app_assoc in Hb. apply app_inj_tail in Hb as [_ <-].
      exfalso. apply Hs. apply elem_of_app. right. by left.
Qed.

(** ** [backoff] *)

(** The body of [backoff], in one equation. *)
Lemma backoff_body {E} retries (fn : nat → option E) delay :
  backoff retries fn delay =
    match fn 0%nat with
    | None => ([Attempt], None)
    | Some err =>
        if (1 <? retries) && (delay <=? 32000) then
          let r := backoff (retries - 1) (fn_after fn) (delay * 2) in
          (Attempt :: Sleep delay :: r.1, r.2)
        else ([Attempt], Some err)
    end.
Proof.
  rewrite backoff_equation_1.
  destruct (fn 0%nat) as [err|]; simpl; [|done].
  destruct (Sumbool.sumbool_of_bool _) as [e|e]; simpl; by rewrite e.
Qed.

Lemma always_fails_after {E} (fn : nat → option E) :
  always_fails fn → always_fails (fn_after fn).
Proof. intros H k. apply H. Qed.

(** Induction on the retries that remain. *)
Lemma backoff_ind {E} (P : Z → (nat → option E) → Z → Prop) :
  (∀ retries fn delay,
      (1 < retries → P (retries - 1) (fn_after fn) (delay * 2)) →
      P retries fn delay) →
  ∀ retries fn delay, P retries fn delay.
Proof.
  intros Hstep retries.
  remember (Z.to_nat retries) as n eqn:Hn.
  revert retries Hn. induction (lt_wf n) as [n _ IH].
  intros retries -> fn delay. apply Hstep. intros Hr.
  apply (IH (Z.to_nat (retries - 1))); [lia|done].
Qed.

(** A trace starts with an attempt, and attempts and waits alternate. *)
Lemma backoff_attempts_sleeps {E} retries (fn : nat → option E) delay :
  attempts (backoff retries fn delay).1
  = S (length (sleeps (backoff retries fn delay).1)).
Proof.
  revert retries fn delay. apply backoff_ind. intros retries fn delay IH.
  rewrite backoff_body. destruct (fn 0%nat) as [err|]; [|done].
  destruct (1 <? retries) eqn:Hr; simpl; [|done].
  destruct (delay <=? 32000); simpl; [|done].
  unfold attempts in *. simpl. f_equal. apply IH. lia.
Qed.

(** Each wait doubles the delay, and waits stop above 32000 ms: after [k]
    doublings that pass this bound, at most [k] waits. *)
Lemma backoff_sleeps_bound {E} (k : nat) :
  ∀ retries (fn : nat → option E) delay,
    32000 < delay * 2 ^ Z.of_nat k →
    (length (sleeps (backoff retries fn delay).1) ≤ k)%nat.
Proof.
  induction k as [|k IH]; intros retries fn delay Hk;
    rewrite backoff_body; destruct (fn 0%nat) as [err|]; simpl; try lia.
  - assert ((delay <=? 32000) = false) as -> by lia.
    rewrite andb_false_r. simpl. lia.
  - destruct ((1 <? retries) && (delay <=? 32000)); simpl; [|lia].
    apply le_n_S, IH.
    replace (2 ^ Z.of_nat (S k)) with (2 * 2 ^ Z.of_nat k) in Hk; [lia|].
    rewrite Nat2Z.inj_succ, Z.pow_succ_r; lia.
Qed.

(** The error that comes out is the one of the last attempt made. *)
Lemma backoff_result {E} retries (fn : nat → option E) delay :
  (backoff retries fn delay).2
  = fn (length (sleeps (backoff retries fn delay).1)).
Proof.
  revert retries fn delay. apply backoff_ind. intros retries fn delay IH.
  rewrite backoff_body. destruct (fn 0%nat) as [err|] eqn:Hfn; [|done].
  destruct (1 <? retries) eqn:Hr; simpl; [|done].
  destruct (delay <=? 32000); simpl; [|done].
  rewrite IH by lia. done.
Qed.

(** C2: with an attempt that always fails, [backoff] runs the attempt again
    exactly when [retries > 1] and [delay <= 32000], after waiting [delay]
    and with the delay doubled, and otherwise rejects with the error of the
    attempt; [backoff(3, fn, 1000)] makes three attempts, waits 1000 ms and
    then 2000 ms between them, and rejects with the error of the third. *)
Theorem backoff_always_failing {E} (fn : nat → option E) retries delay :
  always_fails fn →
  backoff retries fn delay =
    (if (1 <? retries) && (delay <=? 32000)
     then (Attempt :: Sleep delay
             :: (backoff (retries - 1) (fn_after fn) (delay * 2)).1,
           (backoff (retries - 1) (fn_after fn) (delay * 2)).2)
     else ([Attempt], fn 0%nat))
  ∧ backoff 3 fn 1000 = (three_attempts, fn 2%nat)
  ∧ fn 2%nat ≠ None.
Proof.
  intros Hfail.
  assert (Hstep : ∀ (g : nat → option E) r d, always_fails g →
    backoff r g d =
      (if (1 <? r) && (d <=? 32000)
       then (Attempt :: Sleep d :: (backoff (r - 1) (fn_after g) (d * 2)).1,
             (backoff (r - 1) (fn_after g) (d * 2)).2)
       else ([Attempt], g 0%nat))).
  { intros g r d Hg. rewrite backoff_body at 1.
    specialize (Hg 0%nat). destruct (g 0%nat); [|done].
    by destruct ((1 <? r) && (d <=? 32000)). }
  split_and!; [by apply Hstep| |by apply Hfail].
  rewrite Hstep by done. simpl.
  rewrite Hstep by by apply always_fails_after. simpl.
  rewrite Hstep by by do 2 apply always_fails_after. simpl.
  done.
Qed.

Lemma backoff_always_failing_witness :
  backoff 3 failing_attempt 1000
  = (three_attempts, Some (str "ffmpeg exited with code 1")).
Proof.
  refine (proj1 (proj2 (backoff_always_failing failing_attempt 3 1000 _))).
  intros k. unfold failing_attempt. discriminate.
Defined.

(** C10: from the default delay of 1000 ms, whatever the retry count and
    whatever the attempts answer, [backoff] makes at most 7 attempts and
    waits at most 6 times; a retry count of 7 or more reaches both when all
    attempts fail. *)
Theorem backoff_at_most_seven {E} retries (fn : nat → option E) :
  (attempts (backoff retries fn 1000).1 ≤ 7)%nat
  ∧ (length (sleeps (backoff retries fn 1000).1) ≤ 6)%nat
  ∧ sleeps (backoff 1000000 failing_attempt 1000).1
    = [1000; 2000; 4000; 8000; 16000; 32000].
Proof.
  assert (length (sleeps (backoff retries fn 1000).1) ≤ 6)%nat as H
    by (apply backoff_sleeps_bound; vm_compute; reflexivity).
  rewrite backoff_attempts_sleeps.
  split_and!; [lia|done|vm_compute; reflexivity].
Qed.

(** ** The matcher *)

(** A match only adds to what was matched before. *)
Lemma star_whole k greedy a :
  (∀ s m m' rest, k s m = Some (m', rest) → ∃ extra, whole m' = extra ++ whole m) →
  ∀ s m m' rest,
    star k greedy a s m = Some (m', rest) → ∃ extra, whole m' = extra ++ whole m.
Proof.
  intros Hk. induction s as [|c s IH]; intros m m' rest H; simpl in H.
  - destruct greedy; [by eapply Hk|].
    destruct (k [] m) eqn:Hk0; [|done]. simplify_eq. by eapply Hk.
  - assert (Hmore : ∀ x,
      (if atom_matches a c then star k greedy a s (take_char c m) else None)
      = Some x → ∃ extra, whole x.1 = extra ++ whole m).
    { intros [m1 r1] Hx. destruct (atom_matches a c); [|done].
      apply IH in Hx as [extra Hx]. exists (extra ++ [c]).
      simpl. rewrite Hx. simpl. by rewrite <- app_assoc. }
    destruct greedy.
    + destruct (if atom_matches a c then _ else _) as [x|] eqn:Hx.
      * simplify_eq. by apply (Hmore (m', rest)).
      * by eapply Hk.
    + destruct (k (c :: s) m) eqn:Hk0.
      * simplify_eq. by eapply Hk.
      * by apply (Hmore (m', rest)).
Qed.

Lemma run_whole r :
  ∀ s m m' rest,
    run r s m = Some (m', rest) → ∃ extra, whole m' = extra ++ whole m.
Proof.
  induction r as [|n r IH]; intros s m m' rest H; simpl in H.
  - simplify_eq. by exists [].
  - destruct n as [a|greedy a| |].
    + destruct s as [|c s]; [done|]. destruct (atom_matches a c); [|done].
      apply IH in H as [extra H]. exists (extra ++ [c]).
      rewrite H. simpl. by rewrite <- app_assoc.
    + by eapply star_whole.
    + apply IH in H as [extra H]. by exists extra.
    + apply IH in H as [extra H]. by exists extra.
Qed.

(** A pattern that starts with a character matches no empty string. *)
Lemma run_nonempty a r s m rest :
  run (One a :: r) s no_captures = Some (m, rest) → whole m ≠ [].
Proof.
  simpl. destruct s as [|c s]; [done|]. destruct (atom_matches a c); [|done].
  intros [extra H]%run_whole. rewrite H. simpl. by destruct extra.
Qed.

Lemma match_all_nonempty a r s : ∀ skip w,
  w ∈ match_all (One a :: r) s skip → w ≠ [].
Proof.
  induction s as [|c s IH]; intros skip w.
  - destruct skip; simpl; [|set_solver]. set_solver.
  - destruct skip as [|k]; [|by apply IH].
    cbn [match_all].
    destruct (run (One a :: r) (c :: s) no_captures) as [[m rest]|] eqn:Hrun;
      [|by apply IH].
    intros [->|Hw]%elem_of_cons; [|by eapply IH].
    apply run_nonempty in Hrun. by destruct (whole m) using rev_ind;
      [|rewrite rev_app_distr].
Qed.

(** ** The in-page strategies *)

(** A URL that was found is not replaced by a later method. *)
Lemma method2_keeps html v : truthy v = true → method2 html v = v.
Proof. intros H. unfold method2. by rewrite H. Qed.

Lemma method_field_keeps r html v : truthy v = true → method_field r html v = v.
Proof. intros H. unfold method_field. by rewrite H. Qed.

Lemma later_methods_keep html v :
  truthy v = true →
  method_field videoRegex html
    (method_field downloadRegex html
       (method_field scriptRegex html (method2 html v))) = v.
Proof.
  intros H. by rewrite method2_keeps, !(method_field_keeps _ _ v) by done.
Qed.

(** The [reduce] of method 2 returns a match that no match exceeds in
    length. *)
Lemma fold_longest l : ∀ first,
  fold_left pick_longer l first ∈ first :: l
  ∧ ∀ m, m ∈ first :: l →
         (length m ≤ length (fold_left pick_longer l first))%nat.
Proof.
  induction l as [|x l IH]; intros first; simpl.
  - split; [by left|]. intros m ->%list_elem_of_singleton. lia.
  - destruct (IH (pick_longer first x)) as [Hin Hmax].
    assert (Hpick : (length first ≤ length (pick_longer first x)
                     ∧ length x ≤ length (pick_longer first x))%nat).
    { unfold pick_longer.
      destruct (Nat.ltb_spec (length first) (length x)); lia. }
    split.
    + apply elem_of_cons in Hin as [->|Hin]; [|by do 2 right].
      unfold pick_longer. destruct (_ <? _)%nat; [right|]; by left.
    + intros m Hm.
      assert (length (pick_longer first x)
              ≤ length (fold_left pick_longer l (pick_longer first x)))%nat
        by (apply Hmax; by left).
      apply elem_of_cons in Hm as [->|Hm]; [lia|].
      apply elem_of_cons in Hm as [->|Hm]; [lia|].
      apply Hmax. by right.
Qed.

Lemma longest_spec l :
  l ≠ [] →
  ∃ url, longest l = Some url ∧ url ∈ l
         ∧ ∀ m, m ∈ l → (length m ≤ length url)%nat.
Proof.
  destruct l as [|first l]; [done|]. intros _. simpl.
  eexists. split; [done|]. apply fold_longest.
Qed.

(** C9: when method 1 finds no URL in an embedded state and the page has
    matches of the MP4 pattern, the extraction returns one of these
    matches, and no match is longer. *)
Theorem longest_mp4_link html :
  method1 html JNull = JNull →
  match_all mp4Regex html 0 ≠ [] →
  ∃ url,
    extract_from_page html = JStr url
    ∧ url ∈ match_all mp4Regex html 0
    ∧ (∀ m, m ∈ match_all mp4Regex html 0 → (length m ≤ length url)%nat)
    ∧ ∀ w id,
        http_get w (videoPageUrl id) = Return html →
        write_file w html = Return () →
        fetchLoomDownloadUrl w id = Return (JStr url).
Proof.
  intros H1 Hm.
  destruct (longest_spec _ Hm) as (url & Hl & Hin & Hmax).
  assert (Htruthy : truthy (JStr url) = true).
  { apply match_all_nonempty in Hin. simpl. by destruct url. }
  assert (Hpage : extract_from_page html = JStr url).
  { unfold extract_from_page. rewrite H1.
    replace (method2 html JNull) with (JStr url)
      by (unfold method2; simpl; by rewrite Hl).
    by rewrite !(method_field_keeps _ _ (JStr url)) by done. }
  exists url. split_and!; [done|done|done|].
  intros w id Hget Hwrite. unfold fetchLoomDownloadUrl.
  rewrite Hget, Hwrite, Hpage.
  unfold old_api. rewrite Htruthy. simpl. simpl in Htruthy. by rewrite Htruthy.
Qed.

Example two_links_longest :
  match_all mp4Regex two_links_page 0
  = [str "https://cdn.loom.com/v/720.mp4";
     str "https://cdn.loom.com/v/1080.mp4?sig=abc"]
  ∧ extract_from_page two_links_page
    = JStr (str "https://cdn.loom.com/v/1080.mp4?sig=abc").
Proof. split; vm_compute; reflexivity. Qed.

Lemma longest_mp4_link_witness :
  ∃ url,
    extract_from_page two_links_page = JStr url
    ∧ url ∈ match_all mp4Regex two_links_page 0
    ∧ (∀ m, m ∈ match_all mp4Regex two_links_page 0
            → (length m ≤ length url)%nat)
    ∧ ∀ w id,
        http_get w (videoPageUrl id) = Return two_links_page →
        write_file w two_links_page = Return () →
        fetchLoomDownloadUrl w id = Return (JStr url).
Proof.
  apply (longest_mp4_link two_links_page);
    vm_compute; [reflexivity|discriminate].
Defined.

(** ** Method 1: the scan of the embedded state *)

(** Records without a usable URL are passed over. *)
Lemma apollo_scan_skip apolloState pre rest :
  (∀ k, k ∈ pre →
        has_media M3U8_key apolloState k = false
        ∧ has_media DASH_key apolloState k = false) →
  apollo_scan apolloState (pre ++ rest) JNull
  = apollo_scan apolloState rest JNull.
Proof.
  induction pre as [|k pre IH]; intros Hpre; [done|].
  destruct (Hpre k) as [Hm Hd]; [by left|].
  rewrite <- app_comm_cons. cbn [apollo_scan].
  rewrite IH by (intros; apply Hpre; by right).
  unfold has_media, media_url in Hm, Hd.
  destruct (startsWith k _ && truthy (get apolloState k)); [|done].
  cbn [andb] in Hm, Hd. cbv zeta. rewrite Hm. cbn [negb truthy andb].
  by rewrite Hd.
Qed.

(** In a record the M3U8 URL is looked for first. *)
Lemma apollo_scan_m3u8 apolloState key rest videoUrl :
  has_media M3U8_key apolloState key = true →
  apollo_scan apolloState (key :: rest) videoUrl
  = media_url M3U8_key apolloState key.
Proof.
  unfold has_media, media_url. intros H. cbn [apollo_scan].
  destruct (startsWith key _ && truthy (get apolloState key)); [|done].
  cbn [andb] in H. cbv zeta. by rewrite H.
Qed.

Lemma apollo_scan_dash apolloState key rest :
  has_media M3U8_key apolloState key = false →
  has_media DASH_key apolloState key = true →
  apollo_scan apolloState (key :: rest) JNull
  = media_url DASH_key apolloState key.
Proof.
  unfold has_media, media_url. intros Hm Hd. cbn [apollo_scan].
  destruct (startsWith key _ && truthy (get apolloState key)); [|done].
  cbn [andb] in Hm, Hd. cbv zeta. rewrite Hm. cbn [negb truthy andb].
  by rewrite Hd.
Qed.

Lemma has_media_truthy mime_key apolloState key :
  has_media mime_key apolloState key = true →
  truthy (media_url mime_key apolloState key) = true.
Proof. unfold has_media. by intros [_ ?]%andb_prop. Qed.

Lemma method1_scan html apolloState :
  embedded_state html apolloState →
  method1 html JNull
  = apollo_scan apolloState (for_in_keys apolloState) JNull.
Proof.
  intros (m & text & Hexec & Hgroup & Hparse). unfold method1.
  rewrite Hexec, Hgroup. destruct text as [|c text]; [done|].
  simpl nonempty. cbv iota. by rewrite Hparse.
Qed.

(** C1, as the code has it: the first video record, in the order of the
    keys, that holds a usable M3U8 or DASH URL decides. Its M3U8 URL is
    returned when it has one, whatever DASH URLs it or later records hold;
    otherwise its DASH URL is returned, whatever later records hold. *)
Theorem first_record_decides html apolloState pre key post :
  embedded_state html apolloState →
  for_in_keys apolloState = pre ++ key :: post →
  (∀ k, k ∈ pre →
        has_media M3U8_key apolloState k = false
        ∧ has_media DASH_key apolloState k = false) →
  (has_media M3U8_key apolloState key = true →
   extract_from_page html = media_url M3U8_key apolloState key)
  ∧ (has_media M3U8_key apolloState key = false →
     has_media DASH_key apolloState key = true →
     extract_from_page html = media_url DASH_key apolloState key).
Proof.
  intros Hstate Hkeys Hpre. unfold extract_from_page.
  rewrite (method1_scan _ _ Hstate), Hkeys, apollo_scan_skip by done.
  split.
  - intros Hm. rewrite apollo_scan_m3u8 by done.
    apply later_methods_keep. by apply has_media_truthy.
  - intros Hm Hd. rewrite apollo_scan_dash by done.
    apply later_methods_keep. by apply has_media_truthy.
Qed.

Lemma both_page_state : embedded_state both_page both_state.
Proof. do 2 eexists. split_and!; vm_compute; reflexivity. Qed.

Lemma first_record_decides_witness :
  extract_from_page both_page = JStr m3u8_url.
Proof.
  refine (proj1 (first_record_decides both_page both_state []
                   (str "RegularUserVideo:1") [] both_page_state _ _) _).
  - vm_compute; reflexivity.
  - intros k Hk. by apply elem_of_nil in Hk.
  - vm_compute; reflexivity.
Defined.

(** The page [dash_first_page] parses, its state holds a DASH URL and an
    M3U8 URL, and the extraction returns the DASH URL. *)
Lemma dash_first_page_state : embedded_state dash_first_page dash_first_state.
Proof. do 2 eexists. split_and!; vm_compute; reflexivity. Qed.

Lemma m3u8_url_not_always_returned :
  ¬ (∀ html apolloState k1 k2,
       embedded_state html apolloState →
       has_media M3U8_key apolloState k1 = true →
       has_media DASH_key apolloState k2 = true →
       ∃ k, has_media M3U8_key apolloState k = true
            ∧ extract_from_page html = media_url M3U8_key apolloState k).
Proof.
  intros H.
  destruct (H dash_first_page dash_first_state
              (str "RegularUserVideo:2") (str "RegularUserVideo:1")
              dash_first_page_state) as (k & Hk & Hurl);
    [vm_compute; reflexivity..|].
  assert (Hpage : extract_from_page dash_first_page = JStr dash_url)
    by (vm_compute; reflexivity).
  rewrite Hpage in Hurl. clear H Hpage.
  unfold has_media, media_url, dash_first_state, get in *.
  cbn [assoc] in *.
  repeat case_bool_decide; subst; simpl in *;
    try discriminate; vm_compute in Hk; try discriminate;
    vm_compute in Hurl; discriminate.
Qed.

(** ** When no strategy matches *)

Lemma nothing_in_page html :
  no_strategy_matches html → extract_from_page html = JNull.
Proof.
  intros (H1 & H2 & H3 & H4 & H5). unfold extract_from_page.
  rewrite H1. unfold method2, method_field. simpl.
  by rewrite H2, H3, H4, H5.
Qed.

(** On [private_page], with an old API that answers with an error, the
    promise of [fetchLoomDownloadUrl] rejects. *)
Lemma not_found_raises :
  ¬ (∀ w id html,
       http_get w (videoPageUrl id) = Return html →
       no_strategy_matches html →
       ∃ v, fetchLoomDownloadUrl w id = Return v).
Proof.
  intros H.
  destruct (H private_world (str "abc123") private_page) as [v Hv].
  - reflexivity.
  - repeat split; vm_compute; reflexivity.
  - vm_compute in Hv. discriminate.
Qed.

(** C3, as the code has it: when none of the five methods matches, the
    in-page extraction ends with a null URL; the old API is asked, and
    when it gives no URL either, [fetchLoomDownloadUrl] throws the
    not-found error. A batch task catches it: the task ends after the
    fetch and its promise does not reject. *)
Theorem not_found_is_thrown w id html :
  http_get w (videoPageUrl id) = Return html →
  write_file w html = Return () →
  no_strategy_matches html →
  extract_from_page html = JNull
  ∧ fetchLoomDownloadUrl w id
    = (if truthy (old_api w id JNull) then Return (old_api w id JNull)
       else Throw not_found_message)
  ∧ (truthy (old_api w id JNull) = false →
     ∀ a te url, net te = w → extractId url = id →
       downloadTask a te url = {| steps := [AFetch id]; rejects := false |}).
Proof.
  intros Hget Hwrite Hnone.
  assert (Hfetch : fetchLoomDownloadUrl w id
    = (if truthy (old_api w id JNull) then Return (old_api w id JNull)
       else Throw not_found_message)).
  { unfold fetchLoomDownloadUrl. rewrite Hget, Hwrite.
    rewrite (nothing_in_page _ Hnone). by destruct (truthy _). }
  split_and!; [by apply nothing_in_page|done|].
  intros Hapi a te url Hnet Hid. unfold downloadTask.
  rewrite Hnet, Hid, Hfetch, Hapi. done.
Qed.

Lemma not_found_is_thrown_witness :
  fetchLoomDownloadUrl private_world (str "abc123") = Throw not_found_message.
Proof.
  refine (proj1 (proj2 (not_found_is_thrown private_world (str "abc123")
                          private_page _ _ _))).
  - reflexivity.
  - reflexivity.
  - repeat split; vm_compute; reflexivity.
Defined.

(** ** The pool: steps and reachable states *)

Section PoolProofs.
Context (poolLimit : Z) (array : list jsstring)
        (iteratorFn : nat → jsstring → program).

Abbreviation Step := (step poolLimit array iteratorFn).
Abbreviation Run := (run_pool poolLimit array iteratorFn).
Abbreviation Reachable := (reachable poolLimit array iteratorFn).
Abbreviation Transition := (transition poolLimit array iteratorFn).
Abbreviation Push := (push poolLimit array iteratorFn).
Abbreviation StructureInv := (structure_inv poolLimit array).
Abbreviation Tracked := (tracked poolLimit array).

(** The step function and the step relation agree. *)
Lemma step_transition c st st' : Step c st = Some st' → Transition st st'.
Proof.
  destruct c as [|i|i|]; simpl.
  - unfold main_step. destruct (ctl st) as [|[]| | |] eqn:Hc; try done.
    + destruct (todo st) as [|x rest] eqn:Ht; intros; simplify_eq.
      * by apply t_gather.
      * by apply t_push.
    + intros; simplify_eq. by apply t_resume.
    + destruct (forallb _ _) eqn:Hf; intros; simplify_eq.
      by apply t_return.
  - unfold task_step. destruct (ret st !! i) as [p|] eqn:Hp; [|done].
    destruct (state p) as [|[|a rest]| |] eqn:Hs; intros; simplify_eq.
    + by eapply t_start.
    + by eapply t_settle.
    + by eapply t_perform.
  - unfold then_step. destruct (ret st !! i) as [p|] eqn:Hp; [|done].
    destruct (is_fulfilled p) eqn:Hf; [|done]. case_bool_decide; [|done].
    simpl. intros; simplify_eq. eapply t_then; [done| |done].
    unfold is_fulfilled in Hf. by destruct (state p).
  - unfold abort_step.
    destruct (ctl st) as [|b| | |] eqn:Hc; try done;
      destruct (existsb _ _) eqn:He; intros; simplify_eq;
      apply t_abort; eauto.
Qed.

Lemma transition_step st st' : Transition st st' → ∃ c, Step c st = Some st'.
Proof.
  destruct 1 as [x rest Hc Ht|Hc Ht|Hc|Hc Hf|i p Hp Hs|i p a rest Hp Hs
                |i p Hp Hs|i p Hp Hs Hi|Hc He].
  - exists Main. simpl. unfold main_step. by rewrite Hc, Ht.
  - exists Main. simpl. unfold main_step. by rewrite Hc, Ht.
  - exists Main. simpl. unfold main_step. by rewrite Hc.
  - exists Main. simpl. unfold main_step. by rewrite Hc, Hf.
  - exists (Task i). simpl. unfold task_step. by rewrite Hp, Hs.
  - exists (Task i). simpl. unfold task_step. by rewrite Hp, Hs.
  - exists (Task i). simpl. unfold task_step. by rewrite Hp, Hs.
  - exists (Then i). simpl. unfold then_step, is_fulfilled.
    rewrite Hp, Hs. by rewrite bool_decide_true.
  - exists Abort. simpl. unfold abort_step.
    destruct Hc as [[b ->]| ->]; by rewrite He.
Qed.

Lemma run_pool_app cs1 cs2 st :
  Run (cs1 ++ cs2) st = Run cs1 st ≫= Run cs2.
Proof.
  revert st. induction cs1 as [|c cs1 IH]; intros st; simpl; [done|].
  destruct (Step c st); simpl; [apply IH|done].
Qed.

(** A property of the initial state that every step preserves holds of
    every Reachable state. *)
Lemma reachable_ind file (P : pool → Prop) :
  P (pool_init array file) →
  (∀ st st', P st → Transition st st' → P st') →
  ∀ st, Reachable file st → P st.
Proof.
  intros Hinit Hstep st [cs Hrun]. revert st Hrun.
  induction cs as [|c cs IH] using rev_ind; intros st Hrun.
  - simpl in Hrun. by simplify_eq.
  - rewrite run_pool_app in Hrun.
    destruct (Run cs (pool_init array file)) as [st0|] eqn:H0;
      [|done].
    simpl in Hrun. destruct (Step c st0) as [st1|] eqn:H1; [|done].
    simplify_eq. eapply Hstep; [by apply IH|].
    by eapply step_transition.
Qed.

(** ** The promises of [ret] *)

Lemma set_state_length i s l : length (set_state i s l) = length l.
Proof. apply length_alter. Qed.

Lemma set_state_item i s l : map item (set_state i s l) = map item l.
Proof.
  unfold set_state. apply list_eq. intros j.
  change (map item) with (fmap (M:=list) item). rewrite !list_lookup_fmap.
  destruct (decide (j = i)) as [->|Hne].
  - rewrite list_lookup_alter_eq. by destruct (l !! i).
  - by rewrite list_lookup_alter_ne.
Qed.

Lemma set_state_lookup i j s l p :
  set_state i s l !! j = Some p →
  (j = i ∧ ∃ p0, l !! i = Some p0 ∧ item p = item p0 ∧ prog p = prog p0
                 ∧ state p = s)
  ∨ (j ≠ i ∧ l !! j = Some p).
Proof.
  unfold set_state. intros H. destruct (decide (j = i)) as [->|Hne].
  - left. split; [done|]. rewrite list_lookup_alter_eq in H.
    destruct (l !! i) as [p0|]; [|done]. simpl in H. simplify_eq.
    by exists p0.
  - right. split; [done|]. by rewrite list_lookup_alter_ne in H.
Qed.

(** Around the promise at position [i]. *)
Lemma set_state_split i s l p :
  l !! i = Some p →
  ∃ l1 l2, l = l1 ++ p :: l2 ∧ length l1 = i
           ∧ set_state i s l
             = l1 ++ {| item := item p; prog := prog p; state := s |} :: l2.
Proof.
  intros H. exists (take i l), (drop (S i) l).
  assert (Hi : (i < length l)%nat) by by eapply lookup_lt_Some.
  split_and!.
  - by rewrite take_drop_middle.
  - rewrite length_take. lia.
  - unfold set_state. rewrite <- (take_drop_middle l i p) at 1 by done.
    rewrite alter_app_r_alt by (rewrite length_take; lia).
    rewrite length_take. replace (i - i `min` length l)%nat with 0%nat by lia.
    done.
Qed.

Lemma splice_out_subseteq i l j : j ∈ splice_out i l → j ∈ l.
Proof.
  induction l as [|k l IH]; simpl; [done|].
  destruct (k =? i)%nat; [by right|].
  intros [->|?]%elem_of_cons; [by left|right; by apply IH].
Qed.

Lemma splice_out_other i l j : j ≠ i → j ∈ l → j ∈ splice_out i l.
Proof.
  intros Hne. induction l as [|k l IH]; simpl; [done|].
  destruct (Nat.eqb_spec k i) as [->|?].
  - by intros [->|?]%elem_of_cons.
  - intros [->|?]%elem_of_cons; [by left|right; by apply IH].
Qed.

Lemma splice_out_length i l :
  i ∈ l → S (length (splice_out i l)) = length l.
Proof.
  induction l as [|k l IH]; simpl; [by intros ?%elem_of_nil|].
  destruct (Nat.eqb_spec k i) as [->|?]; [done|].
  intros [->|?]%elem_of_cons; [done|]. simpl. by rewrite IH.
Qed.

Lemma forallb_fulfilled_lookup l i p :
  forallb is_fulfilled l = true → l !! i = Some p → state p = Fulfilled.
Proof.
  intros Hall Hp. apply list_elem_of_lookup_2, list_elem_of_In in Hp.
  rewrite forallb_forall in Hall. specialize (Hall _ Hp).
  unfold is_fulfilled in Hall. by destruct (state p).
Qed.

(** ** The structure of the reachable states *)

Ltac structure H :=
  destruct H as [Hitems Hrange Hpending Huntracked Hbound Hroom0 Hracing
                 Hdone Hreturned].

Lemma structure_inv_init file : StructureInv (pool_init array file).
Proof.
  split; simpl; try done; try lia.
  - intros i Hi. by apply elem_of_nil in Hi.
  - intros [?|?]; done.
Qed.

Lemma structure_inv_task i s file st p :
  StructureInv st →
  ret st !! i = Some p → pending p = true →
  StructureInv (with_task i s file st).
Proof.
  intros Hinv Hp Hpend. structure Hinv.
  split; simpl; try done.
  - by rewrite set_state_item.
  - intros j Hj. rewrite set_state_length. auto.
  - intros Ht j q [(-> & _)|(_ & Hq)]%set_state_lookup Hq';
      by eapply Hpending.
  - intros Hc. specialize (Hreturned Hc). unfold pending in Hpend.
    by rewrite (forallb_fulfilled_lookup _ _ _ Hreturned Hp) in Hpend.
Qed.

Lemma structure_inv_step st st' :
  StructureInv st → Transition st st' → StructureInv st'.
Proof.
  intros Hinv Hstep.
  destruct Hstep as [x rest Hc Ht|Hc Ht|Hc|Hc Hf|i p Hp Hs|i p a rest Hp Hs
                    |i p Hp Hs|i p Hp Hs Hi|Hc He].
  - (* a turn of the loop *)
    structure Hinv.
    unfold push.
    assert (Hroom : Z.of_nat (length (executing st)) < Z.max poolLimit 1)
      by (apply Hroom0; by left).
    split; simpl.
    + rewrite map_app, <- app_assoc. simpl. by rewrite <- Ht.
    + intros i Hi. rewrite length_app. simpl.
      destruct Tracked; [|specialize (Hrange _ Hi); lia].
      apply elem_of_app in Hi as [Hi| ->%list_elem_of_singleton]; [|lia].
      specialize (Hrange _ Hi). lia.
    + intros Htr i p Hp Hpend. rewrite Htr. apply elem_of_app.
      apply lookup_app_Some in Hp as [Hp|[Hlen Hp]].
      * left. by eapply Hpending.
      * right. apply list_elem_of_singleton.
        apply lookup_lt_Some in Hp. simpl in Hp. lia.
    + intros Htr. rewrite Htr. simpl.
      destruct (Huntracked Htr) as [He _]. by split.
    + destruct Tracked; [rewrite length_app; simpl|]; lia.
    + destruct Tracked; simpl; [|intros _; lia].
      rewrite length_app. simpl.
      destruct (Z.leb_spec poolLimit (Z.of_nat (length (executing st) + 1)));
        [intros [?|?]; done|]. lia.
    + destruct Tracked; simpl; [|done]. intros _. by destruct (executing st).
    + destruct (Tracked && _); intros [?|?]; done.
    + by destruct (Tracked && _).
  - (* the end of the loop *)
    structure Hinv.
    split; simpl;
      [done|done|done| |done|intros [?|?]; done|done|done|done].
    intros Htr. destruct (Huntracked Htr). by split.
  - (* the resumption after the race *)
    structure Hinv.
    split; simpl;
      [done|done|done| |done| |done|intros [?|?]; done|done].
    + intros Htr. destruct (Huntracked Htr). by split.
    + intros _. apply Hroom0. by right.
  - (* the return *)
    structure Hinv.
    split; simpl;
      [done|done|done| |done|intros [?|?]; done|done| |done].
    + intros Htr. destruct (Huntracked Htr). by split.
    + intros _. apply Hdone. by left.
  - eapply structure_inv_task; [done..|]. unfold pending. by rewrite Hs.
  - eapply structure_inv_task; [done..|]. unfold pending. by rewrite Hs.
  - eapply structure_inv_task; [done..|]. unfold pending. by rewrite Hs.
  - (* the callback of e_i *)
    structure Hinv.
    pose proof (splice_out_length _ _ Hi) as Hlen.
    split; simpl; [done| | | |lia| | | | ].
    + intros j Hj. by apply Hrange, (splice_out_subseteq i).
    + intros Htr j q Hq Hpend. apply splice_out_other; [|by eauto].
      intros ->. simplify_eq. unfold pending in Hpend. by rewrite Hs in Hpend.
    + intros Htr. destruct (Huntracked Htr) as [He _].
      rewrite He in Hi. by apply elem_of_nil in Hi.
    + intros _. lia.
    + by destruct (ctl st).
    + destruct (ctl st); intros [?|?]; try done; apply Hdone; auto.
    + destruct (ctl st); try done; auto.
  - (* the rejection *)
    structure Hinv.
    split; simpl;
      [done|done|done| |done|intros [?|?]; done|done|intros [?|?]; done|done].
    intros Htr. destruct (Huntracked Htr). by split.
Qed.

Lemma reachable_structure file st : Reachable file st → StructureInv st.
Proof.
  apply reachable_ind; [apply structure_inv_init|apply structure_inv_step].
Qed.

(** ** The tasks in flight *)





(** The tasks that were started are the first items of the array. *)
Lemma reachable_items file st p :
  Reachable file st → p ∈ ret st → item p ∈ array.
Proof.
  intros [Hitems _ _ _ _ _ _ _ _]%reachable_structure Hp.
  rewrite <- Hitems. apply elem_of_app. left.
  apply list_elem_of_In, in_map, list_elem_of_In, Hp.
Qed.
End PoolProofs.

(** ** The writes to the log *)

Section PoolWrites.
Context (poolLimit : Z) (array : list jsstring)
        (iteratorFn : nat → jsstring → program).

Abbreviation Step := (step poolLimit array iteratorFn).
Abbreviation Run := (run_pool poolLimit array iteratorFn).
Abbreviation Reachable := (reachable poolLimit array iteratorFn).
Abbreviation Transition := (transition poolLimit array iteratorFn).
Abbreviation Quiescent := (quiescent poolLimit array iteratorFn).
Abbreviation StructureInv := (structure_inv poolLimit array).
Abbreviation WritesInv := (writes_inv array iteratorFn).
Abbreviation PendingWrites := (pending_writes iteratorFn).
Abbreviation TotalWrites := (total_writes array iteratorFn).
Abbreviation TaskWrites := (task_writes iteratorFn).
Abbreviation Measure := (measure iteratorFn).

Lemma write_all_snoc file ds d :
  write_all file (ds ++ [d]) = appendFile (write_all file ds) d.
Proof. unfold write_all. by rewrite fold_left_app. Qed.

Lemma writes_cons a l :
  writes (a :: l)
  = match a with AAppend d true => [d] | _ => [] end ++ writes l.
Proof. unfold writes. simpl. by destruct a as [| | |d []]. Qed.

Lemma perform_write a file ds :
  perform a (write_all file ds)
  = write_all file (ds ++ match a with AAppend d true => [d] | _ => [] end).
Proof.
  destruct a as [| | |d []]; simpl; rewrite ?app_nil_r; try done.
  by rewrite write_all_snoc.
Qed.

Lemma writes_inv_init file : WritesInv file (pool_init array file).
Proof. exists []. split; [done|]. done. Qed.

(** A step of a task changes what this task has still to write. *)
Lemma pending_writes_task i s file st p :
  ret st !! i = Some p →
  ∃ before after,
    PendingWrites st = before ++ writes (remaining p) ++ after
    ∧ PendingWrites (with_task i s file st)
      = before
        ++ writes (remaining {| item := item p; prog := prog p; state := s |})
        ++ after.
Proof.
  intros Hp. destruct (set_state_split i s _ _ Hp) as (l1 & l2 & Hl & _ & Hl').
  unfold pending_writes. simpl.
  rewrite set_state_length, Hl'.
  generalize (concat (imap (fun j => TaskWrites (length (ret st) + j))
                        (todo st))).
  intros later. rewrite Hl.
  exists (concat (map (fun p => writes (remaining p)) l1)).
  exists (concat (map (fun p => writes (remaining p)) l2) ++ later).
  rewrite !map_app, !concat_app. simpl. rewrite <- !app_assoc.
  split; reflexivity.
Qed.

Lemma writes_inv_step file st st' :
  WritesInv file st → Transition st st' → WritesInv file st'.
Proof.
  intros (written & Hlog & Hperm) Hstep.
  destruct Hstep as [x rest Hc Ht|Hc Ht|Hc|Hc Hf|i p Hp Hs|i p a rest Hp Hs
                    |i p Hp Hs|i p Hp Hs Hi|Hc He];
    try (by exists written).
  - (* a turn of the loop *)
    exists written. split; [done|]. rewrite <- Hperm.
    replace (PendingWrites (push poolLimit array iteratorFn x rest st))
      with (PendingWrites st); [done|].
    unfold pending_writes, push. simpl.
    rewrite Ht, map_app, concat_app, length_app. simpl.
    rewrite app_nil_r, <- app_assoc, Nat.add_0_r. do 3 f_equal.
    apply imap_ext. intros j y _. simpl. f_equal. lia.
  - (* the task starts *)
    exists written. split; [done|]. rewrite <- Hperm. f_equiv.
    destruct (pending_writes_task i (Running (steps (prog p))) (logfile st)
                st p Hp) as (before & after & -> & ->).
    unfold remaining. simpl. by rewrite Hs.
  - (* the task performs an operation *)
    exists (written ++ match a with AAppend d true => [d] | _ => [] end).
    split; [simpl; by rewrite Hlog, perform_write|].
    rewrite <- Hperm.
    destruct (pending_writes_task i (Running rest)
                (perform a (logfile st)) st p Hp)
      as (before & after & -> & ->).
    unfold remaining. simpl. rewrite Hs, writes_cons.
    rewrite <- !app_assoc. f_equiv.
    generalize (match a with AAppend d true => [d] | _ => [] end).
    intros ds. rewrite !app_assoc. do 2 f_equiv. apply Permutation_app_comm.
  - (* the task settles *)
    exists written. split; [done|]. rewrite <- Hperm. f_equiv.
    destruct (pending_writes_task i
                (if rejects (prog p) then Rejected else Fulfilled)
                (logfile st) st p Hp) as (before & after & -> & ->).
    unfold remaining. simpl. rewrite Hs. by destruct (rejects (prog p)).
Qed.

Lemma reachable_writes file st : Reachable file st → WritesInv file st.
Proof.
  apply reachable_ind; [apply writes_inv_init|apply writes_inv_step].
Qed.

(** ** An iterator that never rejects *)

Abbreviation NeverRejected := (@never_rejected).

Lemma existsb_rejected_elem l :
  existsb is_rejected l = true → ∃ p, p ∈ l ∧ state p = Rejected.
Proof.
  intros (p & Hp & Hr)%existsb_exists. exists p.
  split; [by apply list_elem_of_In|].
  unfold is_rejected in Hr. by destruct (state p).
Qed.

Lemma never_rejected_step st st' :
  (∀ i x, rejects (iteratorFn i x) = false) →
  NeverRejected st → Transition st st' → NeverRejected st'.
Proof.
  intros Hfn [Hret Hctl] Hstep.
  assert (Htask : ∀ i s file p,
    ret st !! i = Some p → s ≠ Rejected →
    NeverRejected (with_task i s file st)).
  { intros i s file p Hp Hs. split; [|done]. simpl.
    intros q (j & Hq)%list_elem_of_lookup_1.
    apply set_state_lookup in Hq as [(-> & p0 & Hp0 & _ & Hprog & Hst)|(_ & Hq)].
    - rewrite Hprog, Hst. split; [|done].
      by apply list_elem_of_lookup_2, Hret in Hp0 as [? _].
    - by apply list_elem_of_lookup_2, Hret in Hq. }
  destruct Hstep as [x rest Hc Ht|Hc Ht|Hc|Hc Hf|i p Hp Hs|i p a rest Hp Hs
                    |i p Hp Hs|i p Hp Hs Hi|Hc He];
    try (by split); try (by eapply Htask).
  - split; simpl.
    + intros q [Hq| ->%list_elem_of_singleton]%elem_of_app; [by apply Hret|].
      simpl. by split.
    + by destruct (_ && _).
  - eapply Htask; [done|].
    destruct (Hret p) as [-> _]; [by eapply list_elem_of_lookup_2|done].
  - split; [done|]. simpl. by destruct (ctl st).
  - apply existsb_rejected_elem in He as (p & Hp & Hr).
    by destruct (Hret p Hp).
Qed.

Lemma reachable_never_rejected file st :
  (∀ i x, rejects (iteratorFn i x) = false) →
  Reachable file st → NeverRejected st.
Proof.
  intros Hfn. apply reachable_ind.
  - split; [|done]. intros p Hp. by apply elem_of_nil in Hp.
  - intros. by eapply never_rejected_step.
Qed.

(** ** When nothing can run any more *)

Lemma quiescent_transition st st' : Quiescent st → ¬ Transition st st'.
Proof.
  intros Hq [c Hc]%transition_step. by rewrite Hq in Hc.
Qed.

Lemma not_all_fulfilled l :
  forallb is_fulfilled l = false →
  ∃ i p, l !! i = Some p ∧ state p ≠ Fulfilled.
Proof.
  induction l as [|p l IH]; [done|]. simpl.
  destruct (is_fulfilled p) eqn:Hp; simpl.
  - intros (i & q & Hq & Hs)%IH. by exists (S i), q.
  - intros _. exists 0%nat, p. split; [done|]. intros Hs.
    unfold is_fulfilled in Hp. by rewrite Hs in Hp.
Qed.

(** A promise that is not fulfilled lets its task run, or the pool fail. *)
Lemma unsettled_moves st i p :
  ret st !! i = Some p → state p ≠ Fulfilled →
  (∃ b, ctl st = Racing b) ∨ ctl st = Gathering →
  ∃ st', Transition st st'.
Proof.
  intros Hp Hs Hc. destruct (state p) as [|[|a rest]| |] eqn:Hst; [..|done|].
  - eexists. by eapply t_start.
  - eexists. by eapply t_settle.
  - eexists. by eapply t_perform.
  - eexists. apply t_abort; [done|]. apply existsb_exists. exists p.
    split; [by eapply list_elem_of_In, list_elem_of_lookup_2|].
    unfold is_rejected. by rewrite Hst.
Qed.

(** The pool is never stuck before [asyncPool] has returned or thrown. *)
Lemma progress st :
  StructureInv st →
  ctl st = Returned ∨ ctl st = Failed ∨ ∃ st', Transition st st'.
Proof.
  intros [_ Hrange _ _ _ _ Hracing _ _].
  destruct (ctl st) as [|[]| | |] eqn:Hc; auto; right; right.
  - destruct (todo st) as [|x rest] eqn:Ht; eexists;
      [by apply t_gather|by apply t_push].
  - eexists. by apply t_resume.
  - assert (∃ i, i ∈ executing st) as [i Hi].
    { destruct (executing st) as [|i ex]; [by destruct Hracing|].
      exists i. by left. }
    destruct (lookup_lt_is_Some_2 (ret st) i (Hrange i Hi)) as [p Hp].
    destruct (state p) eqn:Hs;
      [eapply unsettled_moves; eauto; by rewrite Hs..
      |eexists; by eapply t_then
      |eapply unsettled_moves; eauto; by rewrite Hs].
  - destruct (forallb is_fulfilled (ret st)) eqn:Hf.
    + eexists. by apply t_return.
    + apply not_all_fulfilled in Hf as (i & p & Hp & Hs).
      eapply unsettled_moves; eauto.
Qed.

Lemma quiescent_final st :
  StructureInv st → Quiescent st → ctl st = Returned ∨ ctl st = Failed.
Proof.
  intros Hinv Hq. destruct (progress st Hinv) as [?|[?|[st' Hst']]]; auto.
  by apply quiescent_transition in Hst'.
Qed.

(** ** Every schedule is finite *)

Lemma weight_task i s file st p :
  ret st !! i = Some p →
  (Measure (with_task i s file st) + status_weight p
   = Measure st
     + status_weight {| item := item p; prog := prog p; state := s |})%nat.
Proof.
  intros Hp. destruct (set_state_split i s _ _ Hp) as (l1 & l2 & Hl & _ & Hl').
  unfold measure. simpl. rewrite set_state_length, Hl'.
  generalize (sum_list (imap (fun j => task_weight iteratorFn
                                        (length (ret st) + j)) (todo st))).
  intros later. rewrite Hl, !sum_list_with_app. simpl. lia.
Qed.

Lemma measure_step st st' :
  Transition st st' → (Measure st' < Measure st)%nat.
Proof.
  destruct 1 as [x rest Hc Ht|Hc Ht|Hc|Hc Hf|i p Hp Hs|i p a rest Hp Hs
                |i p Hp Hs|i p Hp Hs Hi|Hc He].
  - unfold measure, push. simpl.
    rewrite Hc, Ht, sum_list_with_app, length_app. simpl.
    rewrite Nat.add_0_r.
    rewrite (imap_ext ((fun j => task_weight iteratorFn (length (ret st) + j)) ∘ S)
               (fun j => task_weight iteratorFn (length (ret st) + 1 + j)))
      by (intros; simpl; f_equal; lia).
    unfold task_weight at 2, status_weight at 2. simpl.
    unfold tracked.
    destruct (poolLimit <=? Z.of_nat (length array)); simpl;
      rewrite ?length_app; simpl;
      [destruct (poolLimit <=? _); simpl|]; rewrite ?Nat.add_0_r; lia.
  - unfold measure. simpl. rewrite Hc. simpl. lia.
  - unfold measure. simpl. rewrite Hc. simpl. lia.
  - unfold measure. simpl. rewrite Hc. simpl. lia.
  - pose proof (weight_task i (Running (steps (prog p))) (logfile st) st p Hp)
      as H. unfold status_weight in H. simpl in H. rewrite Hs in H. lia.
  - pose proof (weight_task i (Running rest) (perform a (logfile st)) st p Hp)
      as H. unfold status_weight in H. simpl in H. rewrite Hs in H.
    simpl in H. lia.
  - pose proof (weight_task i
      (if rejects (prog p) then Rejected else Fulfilled) (logfile st) st p Hp)
      as H. unfold status_weight in H. simpl in H. rewrite Hs in H.
    destruct (rejects (prog p)); simpl in H; lia.
  - pose proof (splice_out_length _ _ Hi).
    unfold measure. simpl.
    assert (control_weight (match ctl st with
                            | Racing _ => Racing true
                            | c => c
                            end) ≤ control_weight (ctl st))%nat
      by (destruct (ctl st) as [|[]| | |]; simpl; lia).
    lia.
  - unfold measure. simpl.
    destruct Hc as [[[] ->]| ->]; simpl; lia.
Qed.

Lemma run_pool_measure cs : ∀ st st',
  Run cs st = Some st' → (length cs + Measure st' ≤ Measure st)%nat.
Proof.
  induction cs as [|c cs IH]; intros st st' Hrun; simpl in *.
  - simplify_eq. lia.
  - destruct (Step c st) as [st1|] eqn:Hstep; [|done].
    apply step_transition, measure_step in Hstep.
    apply IH in Hrun. lia.
Qed.

(** Whoever keeps running something reaches a state in which
    [asyncPool] has returned or thrown. *)
Lemma completion st :
  StructureInv st →
  ∃ cs st', Run cs st = Some st'
            ∧ (ctl st' = Returned ∨ ctl st' = Failed).
Proof.
  remember (Measure st) as n eqn:Hn. revert st Hn.
  induction (lt_wf n) as [n _ IH]. intros st -> Hinv.
  destruct (progress st Hinv) as [?|[?|[st1 Hst1]]].
  - exists [], st. by auto.
  - exists [], st. by auto.
  - destruct (transition_step _ _ _ _ _ Hst1) as [c Hc].
    destruct (IH (Measure st1) (measure_step _ _ Hst1) st1 eq_refl)
      as (cs & st' & Hrun & Hfin).
    { by eapply structure_inv_step. }
    exists (c :: cs), st'. simpl. by rewrite Hc.
Qed.
End PoolWrites.

(** ** The batch *)

Lemma writes_events downloadUrl tr : writes (map (event_action downloadUrl) tr) = [].
Proof.
  induction tr as [|e tr IH]; [done|]. cbn [map]. rewrite writes_cons, IH.
  by destruct e.
Qed.

Lemma writes_app l k : writes (l ++ k) = writes l ++ writes k.
Proof.
  induction l as [|a l IH]; [done|].
  rewrite <- app_comm_cons, !writes_cons, IH. by rewrite app_assoc.
Qed.

Lemma fulfilled_no_writes l :
  forallb is_fulfilled l = true →
  concat (map (fun p => writes (remaining p)) l) = [].
Proof.
  induction l as [|p l IH]; [done|]. simpl.
  intros [Hp Hl]%andb_prop. rewrite IH by done.
  unfold is_fulfilled in Hp. unfold remaining. by destruct (state p).
Qed.

(** A task writes its line when it gets through, and nothing otherwise. *)
Lemma downloadTask_writes a world i url :
  task_writes (batch_task a world) i url
  = if succeeds world i url then [log_line url] else [].
Proof.
  unfold task_writes, batch_task, downloadTask, succeeds. simpl.
  destruct (fetchLoomDownloadUrl _ _) as [downloadUrl|msg]; [|done].
  change (writes (AFetch (extractId url) :: ?l)) with (writes l).
  rewrite writes_app, writes_events. simpl.
  destruct (backoff 5 _ 1000).2; [done|]. by destruct (append_ok _).
Qed.

Lemma batch_total_writes a world logfile0 fileContent :
  total_writes (urls logfile0 fileContent) (batch_task a world)
  = succeeded_lines world logfile0 fileContent.
Proof.
  unfold total_writes, succeeded_lines. f_equal. apply imap_ext.
  intros i url _. apply downloadTask_writes.
Qed.


(** C4: the wait after a successful download does not depend on the
    command line: with [--timeout 1000] the task still waits 5000 ms. *)
Theorem cooldown_ignores_timeout :
  (∀ a a' te url, downloadTask a te url = downloadTask a' te url)
  ∧ check (timeout_argv 1000) = None
  ∧ steps (downloadTask (timeout_argv 1000) good_task url_B)
    = [AFetch (str "bbb222");
       ADownload (JStr (str "https://cdn.loom.com/v/1080.mp4?sig=abc"));
       AAppend (log_line url_B) true;
       ASleep 5000].
Proof. split_and!; [done|vm_compute; reflexivity..]. Qed.

(** C5: a URL that is a line of the log when the batch starts is not among
    the URLs handed to the pool, and no task is ever started for it. *)
Theorem logged_urls_not_attempted a world logfile0 fileContent u st :
  u ∈ readDownloadedLog logfile0 →
  batch_reachable a world logfile0 fileContent st →
  (u ∉ urls logfile0 fileContent) ∧ ∀ p, p ∈ ret st → item p ≠ u.
Proof.
  intros Hu Hst.
  assert (Hurls : u ∉ urls logfile0 fileContent).
  { unfold urls, batch_urls. intros [_ Hin]%list_elem_of_In%List.filter_In.
    apply andb_prop in Hin as [_ Hin].
    by rewrite bool_decide_true in Hin. }
  split; [done|]. intros p Hp <-. apply Hurls.
  by eapply reachable_items.
Qed.

Example only_B_is_attempted :
  url_A ∈ readDownloadedLog log_with_A
  ∧ urls log_with_A list_A_B = [url_B].
Proof.
  split; [|vm_compute; reflexivity].
  unfold readDownloadedLog, log_with_A. apply elem_of_list_to_set.
  vm_compute. by left.
Qed.

Lemma logged_urls_not_attempted_witness :
  (url_A ∉ urls log_with_A list_A_B)
  ∧ ∀ p, p ∈ ret (pool_init (urls log_with_A list_A_B) log_with_A) →
         item p ≠ url_A.
Proof.
  apply (logged_urls_not_attempted (timeout_argv 1000) (fun _ => good_task)).
  - apply only_B_is_attempted.
  - by exists [].
Defined.


(** The example of five tasks under a limit of two, the first and the
    third failing: the pool returns and the log holds the three others. *)
Example five_tasks_two_fail :
  ctl five_done = Returned
  ∧ forallb is_fulfilled (ret five_done) = true
  ∧ map item (ret five_done) = five_urls
  ∧ logfile five_done
    = Some (log_line (str "https://www.loom.com/share/v2")
            ++ log_line (str "https://www.loom.com/share/v4")
            ++ log_line (str "https://www.loom.com/share/v5")).
Proof. split_and!; vm_compute; reflexivity. Qed.

Lemma batch_done_reachable :
  batch_reachable (timeout_argv 1000) first_and_third_fail None five_list
    batch_done.
Proof. exists batch_schedule. vm_compute. reflexivity. Qed.


Lemma two_started_reachable :
  reachable 2 five_urls five_tasks None two_started.
Proof. exists [Main; Main; Task 0%nat; Task 1%nat]. vm_compute. reflexivity. Qed.


(** * Further properties *)

(** ** [backoff]: the retry rule *)

Lemma sleeps_cons_attempt tr : sleeps (Attempt :: tr) = sleeps tr.
Proof. done. Qed.

Lemma sleeps_cons_sleep d tr : sleeps (Sleep d :: tr) = d :: sleeps tr.
Proof. done. Qed.

(** The number of waits [n] is the first round at which the attempt
    succeeds, the retries are used up or the delay has passed 32000 ms. *)
Lemma backoff_shape {E} retries (fn : nat → option E) delay :
  let n := length (sleeps (backoff retries fn delay).1) in
  sleeps (backoff retries fn delay).1
  = map (fun i => delay * 2 ^ Z.of_nat i) (seq 0 n)
  ∧ (∀ i, (i < n)%nat →
       fn i ≠ None ∧ Z.of_nat i + 1 < retries
       ∧ delay * 2 ^ Z.of_nat i <= 32000)
  ∧ (fn n = None ∨ retries <= Z.of_nat n + 1
     ∨ 32000 < delay * 2 ^ Z.of_nat n).
Proof.
  revert retries fn delay. apply backoff_ind. intros retries fn delay IH.
  rewrite backoff_body. destruct (fn 0%nat) as [err|] eqn:Hfn.
  2:{ simpl. split_and!; [done|intros; lia|by left]. }
  destruct (1 <? retries) eqn:Hr; simpl andb.
  2:{ simpl. split_and!; [done|intros; lia|right; left; lia]. }
  destruct (delay <=? 32000) eqn:Hd.
  2:{ simpl. split_and!; [done|intros; lia|right; right; lia]. }
  cbv zeta. cbn [fst snd].
  rewrite sleeps_cons_attempt, sleeps_cons_sleep.
  destruct IH as (Hsl & Hbefore & Hstop); [lia|].
  set (n := length (sleeps (backoff (retries - 1) (fn_after fn) (delay * 2)).1))
    in *.
  assert (Hpow : ∀ i : nat, delay * 2 * 2 ^ Z.of_nat i
                            = delay * 2 ^ Z.of_nat (S i)).
  { intros i. rewrite Nat2Z.inj_succ, Z.pow_succ_r; lia. }
  cbn [length]. split_and!.
  - cbn [seq map]. rewrite Z.mul_1_r. f_equal.
    rewrite <- seq_shift, map_map. etrans; [exact Hsl|].
    apply map_ext. intros i. apply Hpow.
  - intros [|i] Hi.
    + rewrite Hfn. split_and!; [done|lia|simpl; lia].
    + destruct (Hbefore i) as (H1 & H2 & H3); [lia|].
      rewrite <- Hpow. split_and!; [done|lia|done].
  - rewrite <- Hpow. unfold fn_after in Hstop.
    destruct Hstop as [?|[?|?]]; [by left|right; left; lia|by right; right].
Qed.

(** X1: [backoff] waits [delay], then twice as long each time, and makes one
    attempt more than it waits. *)
Theorem backoff_waits_double {E} retries (fn : nat → option E) delay :
  let tr := (backoff retries fn delay).1 in
  sleeps tr = map (fun i => delay * 2 ^ Z.of_nat i) (seq 0 (length (sleeps tr)))
  ∧ attempts tr = S (length (sleeps tr)).
Proof.
  split; [apply backoff_shape|apply backoff_attempts_sleeps].
Qed.

(** X2: [backoff] tries again only after a failed attempt, with retries left
    and a delay of at most 32000 ms, and it stops only when the attempt
    succeeds, the retries are used up or the delay is above 32000 ms. *)
Theorem backoff_retry_rule {E} retries (fn : nat → option E) delay :
  let n := length (sleeps (backoff retries fn delay).1) in
  (∀ i, (i < n)%nat →
     fn i ≠ None ∧ Z.of_nat i + 1 < retries
     ∧ delay * 2 ^ Z.of_nat i <= 32000)
  ∧ (fn n = None ∨ retries <= Z.of_nat n + 1
     ∨ 32000 < delay * 2 ^ Z.of_nat n).
Proof.
  apply backoff_shape.
Qed.

Lemma backoff_success {E} retries (fn : nat → option E) delay :
  (backoff retries fn delay).2 = None
  ↔ ∃ k, fn k = None
         ∧ ∀ i, (i < k)%nat →
             Z.of_nat i + 1 < retries ∧ delay * 2 ^ Z.of_nat i <= 32000.
Proof.
  rewrite backoff_result.
  destruct (backoff_shape retries fn delay) as (_ & Hbefore & Hstop).
  set (n := length (sleeps (backoff retries fn delay).1)) in *.
  split.
  - intros Hn. exists n. split; [done|]. intros i Hi.
    by destruct (Hbefore i Hi) as (_ & ? & ?).
  - intros (k & Hk & Hallowed).
    destruct (Nat.lt_trichotomy n k) as [Hlt|[->|Hgt]]; [|done|].
    + destruct (Hallowed n Hlt). destruct Hstop as [?|[?|?]]; [done|lia|lia].
    + by destruct (Hbefore k Hgt) as (? & _).
Qed.

(** X3: [backoff] resolves exactly when some attempt succeeds that the retries
    and the ceiling of the delay let it reach. *)
Theorem backoff_succeeds_iff {E} retries (fn : nat → option E) delay :
  (backoff retries fn delay).2 = None
  ↔ ∃ k, fn k = None
         ∧ ∀ i, (i < k)%nat →
             Z.of_nat i + 1 < retries ∧ delay * 2 ^ Z.of_nat i <= 32000.
Proof.
  apply backoff_success.
Qed.

(** ** [downloadTask]: five attempts at most *)

Lemma downloads_events downloadUrl tr :
  downloads (map (event_action downloadUrl) tr) = attempts tr.
Proof.
  unfold downloads, attempts.
  induction tr as [|[|ms] tr IH]; simpl; [done|by f_equal|done].
Qed.

Lemma downloads_app l k : (downloads (l ++ k) = downloads l + downloads k)%nat.
Proof. unfold downloads. by rewrite List.filter_app, length_app. Qed.

Lemma sleep_of_events downloadUrl tr ms :
  ASleep ms ∈ map (event_action downloadUrl) tr → ms ∈ sleeps tr.
Proof.
  induction tr as [|[|d] tr IH]; cbn [map event_action].
  - by intros ?%elem_of_nil.
  - intros [?|?]%elem_of_cons; [done|by apply IH].
  - rewrite sleeps_cons_sleep.
    intros [?|?]%elem_of_cons; [simplify_eq; by left|right; by apply IH].
Qed.

Lemma append_not_event downloadUrl tr data ok :
  AAppend data ok ∉ map (event_action downloadUrl) tr.
Proof.
  induction tr as [|[|d] tr IH]; simpl.
  - by intros ?%elem_of_nil.
  - by intros [?|?]%elem_of_cons.
  - by intros [?|?]%elem_of_cons.
Qed.

(** With five retries from 1000 ms the ceiling of the delay plays no part:
    the download gets through exactly when one of the first five attempts
    does. *)
Lemma backoff_five {E} (fn : nat → option E) :
  (backoff 5 fn 1000).2 = None ↔ ∃ k, (k < 5)%nat ∧ fn k = None.
Proof.
  rewrite backoff_success. split.
  - intros (k & Hk & Hallowed). exists k. split; [|done].
    destruct (Nat.lt_ge_cases k 5) as [|Hge]; [done|].
    destruct (Hallowed 4%nat); lia.
  - intros (k & Hlt & Hk). exists k. split; [done|]. intros i Hi.
    split; [lia|].
    destruct i as [|[|[|[|i]]]]; [simpl; lia..|lia].
Qed.

Lemma backoff_five_waits {E} (fn : nat → option E) ms :
  ms ∈ sleeps (backoff 5 fn 1000).1 → ms ∈ [1000; 2000; 4000; 8000].
Proof.
  destruct (backoff_shape 5 fn 1000) as (Hsl & Hbefore & _).
  set (n := length (sleeps (backoff 5 fn 1000).1)) in *.
  assert (n ≤ 4)%nat as Hn.
  { destruct (Nat.le_gt_cases n 4) as [|Hgt]; [done|].
    destruct (Hbefore 4%nat) as (_ & ? & _); lia. }
  rewrite Hsl. intros (i & -> & Hi)%list_elem_of_fmap.
  apply elem_of_seq in Hi.
  destruct i as [|[|[|[|i]]]]; [| | | |lia]; simpl.
  - by left.
  - right; by left.
  - do 2 right; by left.
  - do 3 right; by left.
Qed.

(** X4: a task calls [downloadLoomVideo] at most five times, waits 1000, 2000,
    4000 or 8000 ms between the calls and 5000 ms after the append, and
    appends the URL to the log exactly when the video URL was found, one of
    the first five calls succeeded and the append goes through. *)
Theorem downloadTask_five_attempts a te url :
  let s := steps (downloadTask a te url) in
  (downloads s ≤ 5)%nat
  ∧ (∀ ms, ASleep ms ∈ s → ms ∈ [1000; 2000; 4000; 8000; 5000])
  ∧ (AAppend (log_line url) true ∈ s
     ↔ is_return (fetchLoomDownloadUrl (net te) (extractId url)) = true
       ∧ (∃ k, (k < 5)%nat ∧ download te k = None)
       ∧ append_ok te = true).
Proof.
  cbv zeta. unfold downloadTask. cbn [steps].
  destruct (fetchLoomDownloadUrl (net te) (extractId url)) as [v|e];
    cbn [is_return].
  2:{ split_and!.
      - unfold downloads. simpl. lia.
      - by intros ms [?|?%elem_of_nil]%elem_of_cons.
      - split; [by intros [?|?%elem_of_nil]%elem_of_cons|by intros (? & _)]. }
  cbv zeta.
  pose proof (backoff_attempts_sleeps 5 (download te) 1000) as Hatt.
  pose proof (backoff_shape 5 (download te) 1000) as (_ & Hbefore & _).
  pose proof (@backoff_five_waits _ (download te)) as Hwaits.
  pose proof (backoff_five (download te)) as Hfive.
  set (r := backoff 5 (download te) 1000) in *.
  assert (length (sleeps r.1) ≤ 4)%nat as Hn.
  { destruct (Nat.le_gt_cases (length (sleeps r.1)) 4) as [|Hgt]; [done|].
    destruct (Hbefore 4%nat) as (_ & ? & _); lia. }
  clear Hbefore. split_and!.
  - change (AFetch (extractId url) :: ?l) with ([AFetch (extractId url)] ++ l).
    rewrite !downloads_app, downloads_events, Hatt.
    assert (downloads [AFetch (extractId url)] = 0)%nat as -> by done.
    destruct r.2; [unfold downloads; simpl; lia|].
    destruct (append_ok te); unfold downloads; simpl; lia.
  - intros ms [?|[Hev|Hend]%elem_of_app]%elem_of_cons; [done| |].
    + apply sleep_of_events, Hwaits in Hev.
      repeat (apply elem_of_cons in Hev as [->|Hev]);
        [by left|right; by left|do 2 right; by left|do 3 right; by left|].
      by apply elem_of_nil in Hev.
    + destruct r.2; [by apply elem_of_nil in Hend|].
      destruct (append_ok te).
      * apply elem_of_cons in Hend as [?|Hend]; [done|].
        apply elem_of_cons in Hend as [?|Hend]; [|by apply elem_of_nil in Hend].
        simplify_eq. do 4 right. by left.
      * apply elem_of_cons in Hend as [?|Hend]; [done|].
        by apply elem_of_nil in Hend.
  - rewrite <- Hfive. split.
    + intros [?|[Hev|Hend]%elem_of_app]%elem_of_cons; [done| |].
      { by apply append_not_event in Hev. }
      destruct r.2; [by apply elem_of_nil in Hend|].
      destruct (append_ok te); [done|].
      apply elem_of_cons in Hend as [?|Hend]; [done|].
      by apply elem_of_nil in Hend.
    + intros (_ & -> & ->). right. apply elem_of_app. right. by left.
Qed.

(** ** The log of downloaded URLs: what is appended is read back *)

Lemma split_lines_nonempty t : ∃ seg segs, split_lines t = seg :: segs.
Proof.
  induction t as [|a t (seg & segs & IH)]; [by exists [], []|].
  cbn [split_lines]. rewrite IH.
  destruct (a =? c_lf)%N; [by eauto|].
  destruct (a =? c_cr)%N; [|by eauto].
  destruct t as [|b t]; [by eauto|].
  destruct (b =? c_lf)%N; by eauto.
Qed.

Lemma split_lines_cases c s :
  (c = c_lf ∧ split_lines (c :: s) = [] :: split_lines s)
  ∨ (c = c_cr ∧ (∃ t, s = c_lf :: t) ∧ split_lines (c :: s) = split_lines s)
  ∨ (c ≠ c_lf ∧ (c = c_cr → ∀ t, s ≠ c_lf :: t)
     ∧ ∃ seg segs, split_lines s = seg :: segs
                   ∧ split_lines (c :: s) = (c :: seg) :: segs).
Proof.
  pose proof split_lines_nonempty as Hne.
  cbn [split_lines]. destruct (N.eqb_spec c c_lf) as [->|Hlf]; [by left|].
  right. destruct (N.eqb_spec c c_cr) as [->|Hcr].
  - destruct s as [|d s].
    + right. split_and!; [done|done|]. by exists [], [].
    + destruct (N.eqb_spec d c_lf) as [->|Hd].
      * left. split_and!; [done|by eauto|done].
      * right. split_and!; [done|intros _ t ?; by simplify_eq|].
        destruct (Hne (d :: s)) as (seg & segs & Hs). rewrite Hs. by eauto.
  - right. split_and!; [done|done|].
    destruct (Hne s) as (seg & segs & Hs). rewrite Hs. by eauto.
Qed.

(** No line holds a line feed. *)
Lemma split_lines_no_lf s u : u ∈ split_lines s → c_lf ∉ u.
Proof.
  revert u. induction s as [|c s IH]; intros u.
  - intros [->|?%elem_of_nil]%elem_of_cons; [|done]. by intros ?%elem_of_nil.
  - destruct (split_lines_cases c s)
      as [(_ & ->)|[(_ & _ & ->)|(Hc & _ & seg & segs & Hs & ->)]].
    + intros [->|?]%elem_of_cons; [by intros ?%elem_of_nil|by apply IH].
    + apply IH.
    + rewrite Hs in IH.
      intros [->|?]%elem_of_cons.
      * intros [?|?]%elem_of_cons; [done|]. by apply (IH seg); [left|].
      * apply IH. by right.
Qed.

(** What precedes a line feed is split on its own. *)
Lemma split_lines_after_lf d :
  ∃ L, L ≠ [] ∧ ∀ y, split_lines (d ++ c_lf :: y) = L ++ split_lines y.
Proof.
  induction d as [|c d (L & HL & IH)].
  - exists [[]]. split; [done|]. intros y. done.
  - destruct (split_lines_cases c (d ++ [c_lf]))
      as [(-> & _)|[(-> & (t & Ht) & _)|(Hc & Hcr & _)]].
    + exists ([] :: L). split; [done|]. intros y.
      rewrite <- app_comm_cons.
      change (split_lines (c_lf :: ?s)) with ([] :: split_lines s).
      by rewrite IH.
    + exists L. split; [done|]. intros y. rewrite <- app_comm_cons.
      destruct (split_lines_cases c_cr (d ++ c_lf :: y))
        as [(? & _)|[(_ & _ & ->)|(_ & Hno & _)]]; [done|apply IH|].
      exfalso. destruct d as [|d0 d]; simpl in *.
      * by apply (Hno eq_refl y).
      * simplify_eq. by apply (Hno eq_refl (d ++ c_lf :: y)).
    + destruct L as [|l0 L0]; [done|].
      exists ((c :: l0) :: L0). split; [done|]. intros y.
      rewrite <- app_comm_cons.
      destruct (split_lines_cases c (d ++ c_lf :: y))
        as [(? & _)|[(-> & (t & Ht) & _)|(_ & _ & seg & segs & Hs & ->)]];
        [done| |].
      * exfalso. destruct d as [|d0 d]; simpl in *.
        -- by apply (Hcr eq_refl []).
        -- simplify_eq. by apply (Hcr eq_refl (d ++ [c_lf])).
      * rewrite IH in Hs. simpl in Hs. by simplify_eq.
Qed.

(** A line without a line feed that does not end in a carriage return is
    read back as it was written. *)
Lemma split_lines_clean url y :
  c_lf ∉ url → List.last url c_lf ≠ c_cr →
  split_lines (url ++ c_lf :: y) = url :: split_lines y.
Proof.
  induction url as [|c url IH]; intros Hlf Hcr; [done|].
  rewrite <- app_comm_cons.
  assert (c ≠ c_lf) as Hc by (intros ->; apply Hlf; by left).
  assert (c_lf ∉ url) as Hlf' by (intros ?; apply Hlf; by right).
  assert (List.last url c_lf ≠ c_cr) as Hcr'.
  { destruct url as [|d url]; [done|exact Hcr]. }
  destruct (split_lines_cases c (url ++ c_lf :: y))
    as [(? & _)|[(-> & (t & Ht) & _)|(_ & _ & seg & segs & Hs & ->)]]; [done| |].
  - exfalso. destruct url as [|d url]; simpl in *; [done|].
    simplify_eq. apply Hlf'. by left.
  - rewrite IH in Hs by done. by simplify_eq.
Qed.

Lemma closed_append file url : closed_log (appendFile file (log_line url)).
Proof.
  right. exists (default [] file ++ url). unfold log_line.
  by rewrite app_assoc.
Qed.

Lemma read_append file url x :
  closed_log file → c_lf ∉ url → List.last url c_lf ≠ c_cr →
  x ∈ readDownloadedLog (appendFile file (log_line url))
  ↔ x = url ∨ x = [] ∨ x ∈ readDownloadedLog file.
Proof.
  intros Hfile Hlf Hcr. unfold appendFile, readDownloadedLog, log_line.
  rewrite elem_of_list_to_set.
  pose proof (split_lines_clean url [] Hlf Hcr) as Hurl.
  change (split_lines []) with [@nil N] in Hurl.
  destruct file as [data|]; simpl.
  - rewrite elem_of_list_to_set. destruct Hfile as [->|[d ->]].
    + simpl. rewrite Hurl. change (split_lines []) with [@nil N].
      rewrite !elem_of_cons, !elem_of_nil. tauto.
    + destruct (split_lines_after_lf d) as (L & _ & HL).
      rewrite <- !app_assoc. simpl. rewrite !HL, Hurl.
      change (split_lines []) with [@nil N].
      rewrite !elem_of_app, !elem_of_cons, !elem_of_nil. tauto.
  - rewrite Hurl, !elem_of_cons, !elem_of_nil, elem_of_empty. tauto.
Qed.

Lemma log_line_inj u v : log_line u = log_line v → u = v.
Proof. unfold log_line. by intros [? _]%app_inj_tail. Qed.

(** The log after a series of appends holds the lines it held and the
    lines appended. *)
Lemma read_write_all ds : ∀ file,
  closed_log file →
  (∀ d, d ∈ ds → ∃ u, d = log_line u ∧ (c_lf ∉ u) ∧ List.last u c_lf ≠ c_cr) →
  closed_log (write_all file ds)
  ∧ ∀ x, x ≠ [] →
      (x ∈ readDownloadedLog (write_all file ds)
       ↔ log_line x ∈ ds ∨ x ∈ readDownloadedLog file).
Proof.
  induction ds as [|d ds IH]; intros file Hfile Hds.
  - split; [done|]. intros x _. rewrite elem_of_nil. simpl. tauto.
  - destruct (Hds d) as (u & -> & Hlf & Hcr); [by left|].
    destruct (IH (appendFile file (log_line u))) as [Hclosed Hread].
    { apply closed_append. }
    { intros d' Hd'. apply Hds. by right. }
    split; [exact Hclosed|]. intros x Hx.
    change (write_all file (log_line u :: ds))
      with (write_all (appendFile file (log_line u)) ds).
    rewrite (Hread x Hx), (read_append file u x Hfile Hlf Hcr), elem_of_cons.
    split.
    + intros [?|[->|[?|?]]]; [by left; right|by left; left|done|by right].
    + intros [[->%log_line_inj|?]|?]; [right; by left|by left|by right; right; right].
Qed.

Lemma filter_filter {A} (f g : A → bool) l :
  List.filter f (List.filter g l) = List.filter (fun x => g x && f x) l.
Proof.
  induction l as [|x l IH]; [done|]. simpl.
  destruct (g x); simpl; [|done]. destruct (f x); by rewrite IH.
Qed.

(** A bigger set of downloaded URLs takes its new elements out of the
    work list and leaves the rest in its order. *)
Lemma batch_urls_more (S1 S2 : gset jsstring) (q : jsstring → bool) content :
  (∀ x, x ≠ [] → (x ∈ S2 ↔ q x = true ∨ x ∈ S1)) →
  batch_urls S2 content
  = List.filter (fun u => negb (q u)) (batch_urls S1 content).
Proof.
  intros HS. unfold batch_urls. rewrite filter_filter.
  apply List.filter_ext. intros u.
  destruct u as [|c u]; [done|].
  specialize (HS (c :: u) ltac:(done)).
  destruct (nonempty (trim (c :: u))); [|done]. cbn [andb].
  destruct (q (c :: u)).
  - rewrite bool_decide_eq_true_2 by (apply HS; by left).
    by rewrite andb_false_r.
  - rewrite andb_true_r. f_equal. apply bool_decide_ext.
    rewrite HS. split; [by intros [?|?]|by right].
Qed.

(** X5: after [appendToLogFile(url)] on a log that is missing, empty or ended
    by a line feed, [readDownloadedLog] finds the URL next to everything
    it found before, the log is again ended by a line feed, and the filter
    of [downloadFromList] drops the URL from any list and nothing else. *)
Theorem log_round_trip file url :
  closed_log file → clean_line url →
  url ∈ readDownloadedLog (appendFile file (log_line url))
  ∧ readDownloadedLog file ⊆ readDownloadedLog (appendFile file (log_line url))
  ∧ closed_log (appendFile file (log_line url))
  ∧ ∀ fileContent,
      batch_urls (readDownloadedLog (appendFile file (log_line url)))
        fileContent
      = List.filter (fun u => negb (bool_decide (u = url)))
          (batch_urls (readDownloadedLog file) fileContent).
Proof.
  intros Hfile (_ & Hlf & Hcr). split_and!.
  - apply read_append; auto.
  - intros x Hx. apply read_append; auto.
  - apply closed_append.
  - intros fileContent. apply batch_urls_more. intros x Hx.
    rewrite (read_append file url x Hfile Hlf Hcr), bool_decide_eq_true.
    split; [intros [?|[?|?]]|intros [?|?]]; auto. done.
Qed.

Lemma log_round_trip_witness :
  url_B ∈ readDownloadedLog (appendFile log_with_A (log_line url_B)).
Proof.
  refine (proj1 (log_round_trip log_with_A url_B _ _)).
  - right. by exists url_A.
  - split_and!.
    + vm_compute. reflexivity.
    + apply (bool_decide_unpack _). vm_compute. exact I.
    + vm_compute. discriminate.
Defined.

(** ** A second run of the batch *)

Lemma succeeded_elem (s : nat → jsstring → bool) l d :
  d ∈ concat (imap (fun i v => if s i v then [log_line v] else []) l) →
  ∃ u, u ∈ l ∧ d = log_line u.
Proof.
  revert s. induction l as [|v l IH]; intros s; simpl.
  - by intros ?%elem_of_nil.
  - intros [Hd|Hd]%elem_of_app.
    + destruct (s 0%nat v); [|by apply elem_of_nil in Hd].
      apply elem_of_cons in Hd as [->|?%elem_of_nil]; [|done].
      exists v. split; [by left|done].
    + destruct (IH (fun i => s (S i)) Hd) as (u & Hu & ->).
      exists u. split; [by right|done].
Qed.

Lemma got_through_lookup (s : nat → jsstring → bool) l u :
  existsb id (imap (fun i v => bool_decide (v = u) && s i v) l) = true
  ↔ ∃ i, l !! i = Some u ∧ s i u = true.
Proof.
  revert s. induction l as [|v l IH]; intros s; simpl.
  - split; [done|]. by intros (i & ? & _).
  - rewrite orb_true_iff. unfold id at 1. split.
    + intros [[Hv Hs]%andb_prop|H].
      * apply bool_decide_eq_true in Hv as ->. by exists 0%nat.
      * apply (IH (fun i => s (S i))) in H as (i & Hi & Hs). by exists (S i).
    + intros ([|i] & Hi & Hs); simpl in Hi.
      * left. simplify_eq. by rewrite bool_decide_eq_true_2.
      * right. apply (IH (fun i => s (S i))). by exists i.
Qed.

Lemma succeeded_lookup (s : nat → jsstring → bool) l u :
  log_line u ∈ concat (imap (fun i v => if s i v then [log_line v] else []) l)
  ↔ ∃ i, l !! i = Some u ∧ s i u = true.
Proof.
  revert s. induction l as [|v l IH]; intros s; simpl.
  - split; [by intros ?%elem_of_nil|]. by intros (i & ? & _).
  - rewrite elem_of_app. split.
    + intros [Hv|H].
      * destruct (s 0%nat v) eqn:Hs; [|by apply elem_of_nil in Hv].
        apply elem_of_cons in Hv as [->%log_line_inj|?%elem_of_nil]; [|done].
        by exists 0%nat.
      * apply (IH (fun i => s (S i))) in H as (i & Hi & Hs). by exists (S i).
    + intros ([|i] & Hi & Hs); simpl in Hi.
      * left. simplify_eq. rewrite Hs. by left.
      * right. apply (IH (fun i => s (S i))). by exists i.
Qed.

(** X6: when a batch has returned from a log that was missing, empty or ended
    by a line feed, and no line of the list ends in a carriage return, a
    second run on the same list has for its work list the first one
    without the URLs of the tasks that got through, in the same order. *)
Theorem second_run_resumes a world logfile0 fileContent st :
  batch_reachable a world logfile0 fileContent st →
  ctl st = Returned →
  closed_log logfile0 →
  (∀ u, u ∈ split_lines fileContent → List.last u c_lf ≠ c_cr) →
  closed_log (logfile st)
  ∧ urls (logfile st) fileContent
    = List.filter (fun u => negb (got_through world logfile0 fileContent u))
        (urls logfile0 fileContent)
  ∧ ∀ u, got_through world logfile0 fileContent u = true
         ↔ ∃ i, urls logfile0 fileContent !! i = Some u
                ∧ succeeds world i u = true.
Proof.
  intros Hst Hc Hclosed Hcr.
  pose proof (reachable_structure _ _ _ _ _ Hst) as Hinv.
  pose proof (reachable_writes _ _ _ _ _ Hst) as (written & Hlog & Hperm).
  rewrite batch_total_writes in Hperm.
  assert (pending_writes (batch_task a world) st = []) as Hnone.
  { destruct Hinv as [_ _ _ _ _ _ _ Hdone Hreturned].
    unfold pending_writes. rewrite Hdone by by right.
    by rewrite fulfilled_no_writes by by apply Hreturned. }
  rewrite Hnone, app_nil_r in Hperm.
  destruct (read_write_all written logfile0 Hclosed) as [Hclosed' Hread].
  { intros d Hd. rewrite Hperm in Hd.
    apply succeeded_elem in Hd as (u & Hu & ->).
    exists u. split; [done|].
    apply list_elem_of_In, List.filter_In in Hu as [Hu%list_elem_of_In _].
    split; [by eapply split_lines_no_lf|by apply Hcr]. }
  rewrite Hlog. split_and!; [done| |].
  - unfold urls. apply batch_urls_more. intros x Hx.
    rewrite (Hread x Hx), Hperm. unfold got_through, succeeded_lines.
    by rewrite got_through_lookup, succeeded_lookup.
  - intros u. apply got_through_lookup.
Qed.

Lemma second_run_resumes_witness :
  closed_log (logfile batch_done)
  ∧ urls (logfile batch_done) five_list
    = [str "https://www.loom.com/share/v1"; str "https://www.loom.com/share/v3"].
Proof.
  destruct (second_run_resumes (timeout_argv 1000) first_and_third_fail None
              five_list batch_done batch_done_reachable)
    as (Hclosed & Hurls & _).
  - vm_compute. reflexivity.
  - exact I.
  - intros u Hu%list_elem_of_In. vm_compute in Hu.
    repeat (destruct Hu as [<-|Hu]; [vm_compute; discriminate|]). done.
  - split; [done|]. rewrite Hurls. vm_compute. reflexivity.
Defined.

(** ** From the share URL to the page that is requested *)

Lemma after_last_unique (c : N) (l1 l2 r1 r2 : jsstring) :
  l1 ++ r1 = l2 ++ r2 →
  c ∉ r1 → c ∉ r2 →
  (l1 = [] ∨ ∃ l, l1 = l ++ [c]) → (l2 = [] ∨ ∃ l, l2 = l ++ [c]) →
  r1 = r2.
Proof.
  intros Heq H1 H2 Hl1 Hl2.
  apply (f_equal (@rev N)) in Heq. rewrite !rev_app_distr in Heq.
  rewrite <- (rev_involutive r1), <- (rev_involutive r2). f_equal.
  apply (before_first_unique c _ _ _ _ Heq).
  - intros Hin. by apply H1, list_elem_of_In, in_rev, list_elem_of_In.
  - intros Hin. by apply H2, list_elem_of_In, in_rev, list_elem_of_In.
  - destruct Hl1 as [->|[l ->]]; [by left|right].
    rewrite rev_app_distr. by eauto.
  - destruct Hl2 as [->|[l ->]]; [by left|right].
    rewrite rev_app_distr. by eauto.
Qed.

(** X7: [extractId] undoes the address line 72 builds: from a share URL of the
    documented form, with or without a query string, it gives the
    identifier, and the page requested is the URL without the query. *)
Theorem share_url_round_trip id query :
  c_slash ∉ id → c_qmark ∉ id →
  query = [] ∨ (∃ q, query = c_qmark :: q) →
  extractId (videoPageUrl id ++ query) = id
  ∧ videoPageUrl (extractId (videoPageUrl id ++ query)) = videoPageUrl id.
Proof.
  intros Hslash Hqmark Hquery.
  assert (extractId (videoPageUrl id ++ query) = id) as ->; [|done].
  destruct (extractId_decompose (videoPageUrl id ++ query))
    as (pre & rest & Hurl & Hrest & Hpre & Hq & Hs).
  set (eid := extractId (videoPageUrl id ++ query)) in *.
  assert (c_qmark ∉ videoPageUrl id) as Hq'.
  { unfold videoPageUrl. intros [Hin|Hin]%elem_of_app; [|done].
    revert Hin. apply (bool_decide_unpack _). vm_compute. exact I. }
  assert (pre ++ eid = videoPageUrl id) as Hbase.
  { symmetry. apply (before_first_unique c_qmark _ _ query rest); try done.
    by rewrite <- app_assoc. }
  symmetry.
  apply (after_last_unique c_slash (str "https://www.loom.com/share/") pre);
    try done.
  right. by exists (str "https://www.loom.com/share").
Qed.

Lemma share_url_round_trip_witness :
  extractId (videoPageUrl (str "abc123") ++ str "?t=5") = str "abc123".
Proof.
  refine (proj1 (share_url_round_trip (str "abc123") (str "?t=5") _ _ _)).
  - apply (bool_decide_unpack _). vm_compute. exact I.
  - apply (bool_decide_unpack _). vm_compute. exact I.
  - right. by exists (str "t=5").
Defined.

(** ** The matcher finds only what the expression describes *)

Lemma star_sound k greedy a (P : jsstring → Prop) :
  (∀ s m m' rest, k s m = Some (m', rest) →
     ∃ w, s = w ++ rest ∧ whole m' = rev w ++ whole m ∧ P w) →
  ∀ s m m' rest,
    star k greedy a s m = Some (m', rest) →
    ∃ cs w, s = (cs ++ w) ++ rest ∧ whole m' = rev (cs ++ w) ++ whole m
            ∧ Forall (fun c => atom_matches a c = true) cs ∧ P w.
Proof.
  intros Hk. induction s as [|c s IH]; intros m m' rest H; cbn [star] in H.
  - assert (k [] m = Some (m', rest)) as Hk0.
    { destruct greedy; [done|]. by destruct (k [] m). }
    destruct (Hk _ _ _ _ Hk0) as (w & Hs & Hw & HP).
    exists [], w. by split_and!.
  - assert (Hmore :
      (if atom_matches a c then star k greedy a s (take_char c m) else None)
      = Some (m', rest) →
      ∃ cs w, c :: s = (cs ++ w) ++ rest
              ∧ whole m' = rev (cs ++ w) ++ whole m
              ∧ Forall (fun c => atom_matches a c = true) cs ∧ P w).
    { destruct (atom_matches a c) eqn:Hc; [|done]. intros Hx.
      apply IH in Hx as (cs & w & Hs & Hw & Hcs & HP).
      exists (c :: cs), w. split_and!; [by rewrite Hs| |by constructor|done].
      rewrite Hw. simpl. by rewrite <- !app_assoc. }
    assert (Hstop : k (c :: s) m = Some (m', rest) →
      ∃ cs w, c :: s = (cs ++ w) ++ rest
              ∧ whole m' = rev (cs ++ w) ++ whole m
              ∧ Forall (fun c => atom_matches a c = true) cs ∧ P w).
    { intros Hk0. destruct (Hk _ _ _ _ Hk0) as (w & Hs & Hw & HP).
      exists [], w. by split_and!. }
    destruct greedy.
    + destruct (if atom_matches a c then _ else _) as [x|] eqn:Hx.
      * simplify_eq. by apply Hmore.
      * by apply Hstop.
    + destruct (k (c :: s) m) eqn:Hk0.
      * simplify_eq. by apply Hstop.
      * by apply Hmore.
Qed.

Lemma run_sound r :
  ∀ s m m' rest,
    run r s m = Some (m', rest) →
    ∃ w, s = w ++ rest ∧ whole m' = rev w ++ whole m ∧ lang r w.
Proof.
  induction r as [|n r IH]; intros s m m' rest H; cbn [run] in H.
  - simplify_eq. exists []. split_and!; [done|done|constructor].
  - destruct n as [a|greedy a| |].
    + destruct s as [|c s]; [done|].
      destruct (atom_matches a c) eqn:Hc; [|done].
      apply IH in H as (w & -> & Hw & Hl). exists (c :: w).
      split_and!; [done| |by constructor].
      rewrite Hw. simpl. by rewrite <- app_assoc.
    + apply (star_sound _ _ _ (lang r) (IH)) in H
        as (cs & w & Hs & Hw & Hcs & Hl).
      exists (cs ++ w). split_and!; [done|done|by constructor].
    + apply IH in H as (w & -> & Hw & Hl). exists w.
      split_and!; [done|done|by constructor].
    + apply IH in H as (w & -> & Hw & Hl). exists w.
      split_and!; [done|done|by constructor].
Qed.

(** Every match of [s.match(regex)] is a piece of [s] that the expression
    describes. *)
Lemma match_all_sound r s : ∀ skip w,
  w ∈ match_all r s skip → (∃ pre post, s = pre ++ w ++ post) ∧ lang r w.
Proof.
  induction s as [|c s IH]; intros skip w.
  - destruct skip; cbn [match_all]; [|by intros ?%elem_of_nil].
    destruct (run r [] no_captures) as [[m rest]|] eqn:Hrun;
      [|by intros ?%elem_of_nil].
    intros [->|?%elem_of_nil]%elem_of_cons; [|done].
    apply run_sound in Hrun as (w & Hs & Hw & Hl).
    simpl in Hw. rewrite app_nil_r in Hw. rewrite Hw, rev_involutive.
    split; [|done]. exists [], rest. exact Hs.
  - assert (Hlater : ∀ k, w ∈ match_all r s k →
              (∃ pre post, c :: s = pre ++ w ++ post) ∧ lang r w).
    { intros k [(pre & post & ->) Hl]%IH. split; [|done].
      by exists (c :: pre), post. }
    destruct skip as [|k]; cbn [match_all]; [|by apply Hlater].
    destruct (run r (c :: s) no_captures) as [[m rest]|] eqn:Hrun;
      [|by apply Hlater].
    intros [->|Hw]%elem_of_cons; [|by eapply Hlater].
    apply run_sound in Hrun as (w & Hs & Hw & Hl).
    simpl in Hw. rewrite app_nil_r in Hw. rewrite Hw, rev_involutive.
    split; [|done]. exists [], rest. exact Hs.
Qed.

Lemma lang_end_inv w : lang [] w → w = [].
Proof. by inversion 1. Qed.

Lemma lang_one_inv a r w :
  lang (One a :: r) w →
  ∃ c w', w = c :: w' ∧ atom_matches a c = true ∧ lang r w'.
Proof. inversion 1; subst. by eauto. Qed.

Lemma lang_star_inv greedy a r w :
  lang (Star greedy a :: r) w →
  ∃ cs w', w = cs ++ w' ∧ Forall (fun c => atom_matches a c = true) cs
           ∧ lang r w'.
Proof. inversion 1; subst. by eauto. Qed.

Lemma lang_lit p r w : lang (lit p ++ r) w → ∃ w', w = p ++ w' ∧ lang r w'.
Proof.
  revert w. induction p as [|c p IH]; intros w; simpl.
  - intros H. by exists w.
  - intros (c' & w0 & -> & Hc & Hl)%lang_one_inv.
    apply IH in Hl as (w' & -> & Hl). exists w'.
    simpl in Hc. apply N.eqb_eq in Hc as ->. done.
Qed.

Lemma startsWith_app p s : startsWith (p ++ s) p = true.
Proof.
  induction p as [|c p IH]; [by destruct s|]. simpl.
  by rewrite N.eqb_refl.
Qed.

Lemma includes_app pre sub post : includes (pre ++ sub ++ post) sub = true.
Proof.
  induction pre as [|c pre IH].
  - simpl. destruct (sub ++ post) eqn:H; cbn [includes];
      rewrite <- H, startsWith_app; done.
  - simpl. rewrite IH. by rewrite orb_true_r.
Qed.

(** X8: what method 2 picks is a piece of the page that starts with
    [https://], holds [.mp4], and has no quote and no white space in it. *)
Theorem mp4_link_shape html url :
  longest (match_all mp4Regex html 0) = Some url →
  includes html url = true
  ∧ startsWith url (str "https://") = true
  ∧ includes url (str ".mp4") = true
  ∧ ∀ c, c ∈ url → c ≠ c_dquote ∧ c ≠ c_squote ∧ is_space c = false.
Proof.
  intros Hl.
  assert (url ∈ match_all mp4Regex html 0) as Hin.
  { destruct (match_all mp4Regex html 0) as [|first l] eqn:Hm; [done|].
    destruct (longest_spec (first :: l)) as (u & Hu & Hin & _); [done|].
    by simplify_eq. }
  apply match_all_sound in Hin as [(pre & post & ->) Hlang].
  split; [apply includes_app|].
  unfold mp4Regex in Hlang.
  apply lang_lit in Hlang as (w1 & -> & Hlang).
  unfold plus in Hlang. cbn [app] in Hlang.
  apply lang_one_inv in Hlang as (c & w2 & -> & Hc & Hl2).
  apply lang_star_inv in Hl2 as (cs & w3 & -> & Hcs & Hl3).
  apply lang_lit in Hl3 as (w4 & -> & Hl4).
  apply lang_star_inv in Hl4 as (cs' & w5 & -> & Hcs' & Hl5).
  apply lang_end_inv in Hl5 as ->. rewrite app_nil_r.
  split_and!.
  - apply startsWith_app.
  - apply (includes_app (str "https://" ++ c :: cs) (str ".mp4") cs').
  - assert (Hclass : ∀ x,
      atom_matches (NotIn [c_dquote; c_squote] true) x = true →
      x ≠ c_dquote ∧ x ≠ c_squote ∧ is_space x = false).
    { intros x Hx. simpl in Hx. revert Hx.
      destruct (N.eqb_spec x c_dquote), (N.eqb_spec x c_squote),
        (is_space x); simpl; done. }
    assert (Hlit : ∀ p x, forallb (fun y =>
        negb (y =? c_dquote)%N && negb (y =? c_squote)%N && negb (is_space y))
        p = true → x ∈ p →
      x ≠ c_dquote ∧ x ≠ c_squote ∧ is_space x = false).
    { intros p x Hp Hx. apply list_elem_of_In in Hx.
      pose proof (proj1 (forallb_forall _ p) Hp x Hx) as H.
      cbv beta in H. revert H.
      destruct (N.eqb_spec x c_dquote), (N.eqb_spec x c_squote),
        (is_space x); simpl; done. }
    rewrite Forall_forall in Hcs, Hcs'.
    intros x [Hx|Hx]%elem_of_app; [by apply (Hlit (str "https://"))|].
    apply elem_of_cons in Hx as [->|Hx]; [by apply Hclass|].
    apply elem_of_app in Hx as [Hx|Hx]; [by apply Hclass, Hcs|].
    apply elem_of_app in Hx as [Hx|Hx]; [by apply (Hlit (str ".mp4"))|].
    by apply Hclass, Hcs'.
Qed.

Lemma mp4_link_shape_witness :
  includes two_links_page (str "https://cdn.loom.com/v/1080.mp4?sig=abc") = true.
Proof.
  refine (proj1 (mp4_link_shape two_links_page
                   (str "https://cdn.loom.com/v/1080.mp4?sig=abc") _)).
  vm_compute. reflexivity.
Defined.

(** ** Escaped slashes *)

Lemma replace_escaped E :
  replace_all escapedSlashRegex (str "/") (escaped_slash ++ E) 0
  = c_slash :: replace_all escapedSlashRegex (str "/") E 0.
Proof. reflexivity. Qed.

Lemma replace_other c E :
  c ≠ c_bslash →
  replace_all escapedSlashRegex (str "/") (c :: E) 0
  = c :: replace_all escapedSlashRegex (str "/") E 0.
Proof.
  intros Hc. cbn [replace_all].
  change escapedSlashRegex with (One (Chr c_bslash) :: lit (str "u002F")).
  cbn [run atom_matches].
  by rewrite (proj2 (N.eqb_neq c c_bslash) Hc).
Qed.

Lemma escape_slashes_cons c url :
  escape_slashes (c :: url)
  = (if (c =? c_slash)%N then escaped_slash else [c]) ++ escape_slashes url.
Proof. done. Qed.

Lemma unescape url :
  c_bslash ∉ url →
  replace_all escapedSlashRegex (str "/") (escape_slashes url) 0 = url.
Proof.
  induction url as [|c url IH]; intros Hb; [done|].
  assert (c ≠ c_bslash) as Hc by (intros ->; apply Hb; by left).
  assert (c_bslash ∉ url) as Hb' by (intros ?; apply Hb; by right).
  rewrite escape_slashes_cons. destruct (N.eqb_spec c c_slash) as [->|Hs].
  - by rewrite replace_escaped, IH.
  - cbn [app]. by rewrite replace_other, IH.
Qed.

(** X9: the replacement of lines 154, 163 and 172 undoes the escape of the
    slashes of a URL that holds no backslash. *)
Theorem unescape_round_trip url :
  c_bslash ∉ url →
  replace_all escapedSlashRegex (str "/") (escape_slashes url) 0 = url.
Proof.
  apply unescape.
Qed.

Lemma unescape_round_trip_witness :
  replace_all escapedSlashRegex (str "/") (escape_slashes url_A) 0 = url_A.
Proof.
  apply (unescape_round_trip url_A).
  apply (bool_decide_unpack _). vm_compute. exact I.
Defined.

(** ** A field of the page, found and unescaped *)

Lemma run_chr c r s m :
  run (One (Chr c) :: r) (c :: s) m = run r s (take_char c m).
Proof. cbn [run atom_matches]. by rewrite N.eqb_refl. Qed.

Lemma run_one a c r s m :
  atom_matches a c = true →
  run (One a :: r) (c :: s) m = run r s (take_char c m).
Proof. intros H. cbn [run]. by rewrite H. Qed.

Lemma run_lit p r s m : run (lit p ++ r) (p ++ s) m = run r s (taken p m).
Proof.
  revert m. induction p as [|c p IH]; intros m; [done|].
  change (lit (c :: p) ++ r) with (One (Chr c) :: (lit p ++ r)).
  rewrite <- app_comm_cons, run_chr. apply IH.
Qed.

Lemma taken_group cs : ∀ m,
  group_open (taken cs m) = group_open m
  ∧ group (taken cs m)
    = if group_open m then option_map (app (rev cs)) (group m) else group m.
Proof.
  induction cs as [|c cs IH]; intros m.
  - split; [done|]. simpl. destruct (group_open m); [|done].
    by destruct (group m).
  - destruct (IH (take_char c m)) as [Ho Hg]. split; [exact Ho|].
    change (taken (c :: cs) m) with (taken cs (take_char c m)).
    rewrite Hg. simpl. destruct (group_open m); [|done].
    destruct (group m); [|done]. simpl. by rewrite <- app_assoc.
Qed.

Lemma run_star_greedy a r cs d s x : ∀ m,
  Forall (fun c => atom_matches a c = true) cs →
  atom_matches a d = false →
  run r (d :: s) (taken cs m) = Some x →
  run (Star true a :: r) (cs ++ d :: s) m = Some x.
Proof.
  induction cs as [|c cs IH]; intros m Hcs Hd Hk; cbn [run app star].
  - rewrite Hd. exact Hk.
  - inversion Hcs as [|? ? Hc Hcs']; subst. rewrite Hc.
    specialize (IH (take_char c m) Hcs' Hd Hk). cbn [run] in IH.
    by rewrite IH.
Qed.

Lemma exec_skip r pre s :
  c_dquote ∉ pre →
  exec (One (Chr c_dquote) :: r) (pre ++ s) = exec (One (Chr c_dquote) :: r) s.
Proof.
  induction pre as [|c pre IH]; intros Hpre; [done|].
  rewrite <- app_comm_cons. cbn [exec run atom_matches].
  assert (c ≠ c_dquote) as Hc by (intros ->; apply Hpre; by left).
  rewrite (proj2 (N.eqb_neq c c_dquote) Hc).
  apply IH. intros ?. apply Hpre. by right.
Qed.

Lemma exec_run r s m rest :
  run r s no_captures = Some (m, rest) → exec r s = Some (found_of m).
Proof. intros H. destruct s; simpl; by rewrite H. Qed.

Lemma field_found name ws value rest :
  Forall (fun c => is_space c = true) ws →
  value ≠ [] → c_dquote ∉ value →
  ∃ m, run (field_regex name) (field_text name ws value ++ rest) no_captures
       = Some (m, rest)
       ∧ group m = Some (rev value).
Proof.
  intros Hws Hne Hdq. destruct value as [|v0 value]; [done|].
  assert (Hclass : ∀ c, c ≠ c_dquote →
            atom_matches (NotIn [c_dquote] false) c = true).
  { intros c Hc. simpl. by rewrite (proj2 (N.eqb_neq c c_dquote) Hc). }
  assert (v0 ≠ c_dquote) as Hv0 by (intros ->; apply Hdq; by left).
  assert (Forall (fun c => atom_matches (NotIn [c_dquote] false) c = true)
            value) as Hvalue.
  { apply Forall_forall. intros c Hc. apply Hclass. intros ->.
    apply Hdq. by right. }
  eexists. split.
  - unfold field_regex, field_text, plus.
    rewrite <- !app_assoc. cbn [app].
    rewrite run_chr, run_lit, run_chr, run_lit.
    apply run_star_greedy; [exact Hws|done|].
    rewrite run_chr.
    change (run (Open :: ?r) ?s ?m) with (run r s (open_group m)).
    rewrite (run_one _ v0) by by apply Hclass.
    apply run_star_greedy; [exact Hvalue|done|].
    change (run (Close :: ?r) ?s ?m) with (run r s (close_group m)).
    rewrite run_chr. reflexivity.
  - cbn [take_char close_group group group_open].
    destruct (taken_group value
                (take_char v0 (open_group
                   (take_char c_dquote (taken ws
                      (taken (str ":") (take_char c_dquote
                         (taken name (take_char c_dquote no_captures)))))))))
      as [_ ->].
    cbn [take_char open_group group group_open option_map].
    done.
Qed.

Lemma escape_slashes_quote url :
  c_dquote ∉ url → c_dquote ∉ escape_slashes url.
Proof.
  induction url as [|c url IH]; intros Hq; [done|].
  rewrite escape_slashes_cons. intros [Hin|Hin]%elem_of_app.
  - destruct (c =? c_slash)%N.
    + revert Hin. apply (bool_decide_unpack _). vm_compute. exact I.
    + apply list_elem_of_singleton in Hin. apply Hq. rewrite Hin. by left.
  - apply IH; [|done]. intros ?. apply Hq. by right.
Qed.

Lemma escape_slashes_nonempty url : url ≠ [] → escape_slashes url ≠ [].
Proof.
  destruct url as [|c url]; [done|]. intros _.
  rewrite escape_slashes_cons. by destruct (c =? c_slash)%N.
Qed.

Lemma field_method name pre ws url rest v :
  truthy v = false → c_dquote ∉ pre →
  Forall (fun c => is_space c = true) ws →
  url ≠ [] → c_dquote ∉ url → c_bslash ∉ url →
  method_field (field_regex name)
    (pre ++ field_text name ws (escape_slashes url) ++ rest) v
  = JStr url.
Proof.
  intros Hv Hpre Hws Hne Hdq Hb. unfold method_field. rewrite Hv. cbn [negb].
  change (field_regex name) with (One (Chr c_dquote) :: tl (field_regex name)).
  rewrite exec_skip by done.
  destruct (field_found name ws (escape_slashes url) rest Hws)
    as (m & Hrun & Hgroup);
    [by apply escape_slashes_nonempty|by apply escape_slashes_quote|].
  change (One (Chr c_dquote) :: tl (field_regex name)) with (field_regex name).
  rewrite (exec_run _ _ _ _ Hrun). cbn [found_of group1].
  rewrite Hgroup. cbn [option_map]. rewrite rev_involutive.
  pose proof (escape_slashes_nonempty url Hne).
  destruct (escape_slashes url) eqn:He; [done|]. cbn [nonempty].
  rewrite <- He. by rewrite unescape.
Qed.

(** X10: when no earlier method has found a URL and the first double quote of
    the page opens the field [videoUrl], or [downloadUrl], whose value is
    a URL with its slashes escaped, methods 3 and 4 return that URL. *)
Theorem field_round_trip pre ws url rest v :
  truthy v = false → c_dquote ∉ pre →
  Forall (fun c => is_space c = true) ws →
  url ≠ [] → c_dquote ∉ url → c_bslash ∉ url →
  method_field scriptRegex
    (pre ++ field_text (str "videoUrl") ws (escape_slashes url) ++ rest) v
  = JStr url
  ∧ method_field downloadRegex
      (pre ++ field_text (str "downloadUrl") ws (escape_slashes url) ++ rest) v
    = JStr url.
Proof.
  intros. split.
  - by apply (field_method (str "videoUrl")).
  - by apply (field_method (str "downloadUrl")).
Qed.

Lemma field_round_trip_witness :
  method_field scriptRegex
    (str "<script>{" ++
     field_text (str "videoUrl") (str " ") (escape_slashes url_A) ++ str "}")
    JNull
  = JStr url_A.
Proof.
  refine (proj1 (field_round_trip (str "<script>{") (str " ") url_A (str "}")
                   JNull _ _ _ _ _ _)).
  - reflexivity.
  - apply (bool_decide_unpack _). vm_compute. exact I.
  - repeat constructor.
  - discriminate.
  - apply (bool_decide_unpack _). vm_compute. exact I.
  - apply (bool_decide_unpack _). vm_compute. exact I.
Defined.

(** ** [asyncPool] for any iterator function *)

Section PoolFurther.
Context (poolLimit : Z) (array : list jsstring)
        (iteratorFn : nat → jsstring → program).

Abbreviation Step := (step poolLimit array iteratorFn).
Abbreviation Run := (run_pool poolLimit array iteratorFn).
Abbreviation Reachable := (reachable poolLimit array iteratorFn).
Abbreviation Transition := (transition poolLimit array iteratorFn).
Abbreviation Quiescent := (quiescent poolLimit array iteratorFn).
Abbreviation StructureInv := (structure_inv poolLimit array).
Abbreviation Measure := (measure iteratorFn).

(** The promise at position [i] runs the iterator function on its item,
    and it is fulfilled only if the iterator function does not reject. *)
Lemma reachable_tasks file st :
  Reachable file st →
  ∀ i p, ret st !! i = Some p →
    prog p = iteratorFn i (item p)
    ∧ (state p = Fulfilled → rejects (prog p) = false).
Proof.
  revert st.
  refine (reachable_ind poolLimit array iteratorFn file
            (fun st => ∀ i p, ret st !! i = Some p →
               prog p = iteratorFn i (item p)
               ∧ (state p = Fulfilled → rejects (prog p) = false)) _ _).
  - intros i p Hp. simpl in Hp. by rewrite lookup_nil in Hp.
  - intros st st' IH Hstep.
    assert (Htask : ∀ j s file', 
      (∀ p0, ret st !! j = Some p0 → s = Fulfilled →
             rejects (prog p0) = false) →
      ∀ i p, ret (with_task j s file' st) !! i = Some p →
        prog p = iteratorFn i (item p)
        ∧ (state p = Fulfilled → rejects (prog p) = false)).
    { intros j s file' Hs i p.
      intros [(-> & p0 & Hp0 & Hitem & Hprog & Hstate)|(_ & Hp)]
        %set_state_lookup; [|by apply IH].
      destruct (IH j p0 Hp0) as [Hfn _]. rewrite Hprog, Hitem.
      split; [done|]. rewrite Hstate. by apply Hs. }
    destruct Hstep as [x rest Hc Ht|Hc Ht|Hc|Hc Hf|i p Hp Hs|i p a rest Hp Hs
                      |i p Hp Hs|i p Hp Hs Hi|Hc He];
      try (by apply IH).
    + intros i p. simpl.
      intros [Hp|(Hle & Hp)]%lookup_app_Some; [by apply IH|].
      destruct (i - length (ret st))%nat as [|k] eqn:Hk; simpl in Hp;
        [|by rewrite lookup_nil in Hp].
      simplify_eq. simpl. replace i with (length (ret st)) by lia. done.
    + by apply Htask.
    + by apply Htask.
    + apply Htask. intros p0 Hp0 Hful. rewrite Hp in Hp0.
      injection Hp0 as <-. by destruct (rejects (prog p)).
Qed.

(** X11: the promises of [ret] are those of the items of the array, in the
    order of the array, each item handed to the iterator function once,
    whatever the order in which the tasks run and settle. *)
Theorem asyncPool_keeps_order file st i p :
  reachable poolLimit array iteratorFn file st → ret st !! i = Some p →
  array !! i = Some (item p) ∧ prog p = iteratorFn i (item p).
Proof.
  intros Hst Hp. split; [|by apply (reachable_tasks file st Hst)].
  destruct (reachable_structure _ _ _ _ _ Hst) as [Hitems _ _ _ _ _ _ _ _].
  rewrite <- Hitems. apply lookup_app_l_Some.
  change (map item) with (fmap (M:=list) item).
  by rewrite list_lookup_fmap, Hp.
Qed.

Lemma reachable_run file st cs st' :
  Reachable file st → Run cs st = Some st' → Reachable file st'.
Proof.
  intros [cs0 Hcs0] Hrun. exists (cs0 ++ cs).
  by rewrite run_pool_app, Hcs0.
Qed.

Lemma rejecting_never_returns file st i x :
  array !! i = Some x → rejects (iteratorFn i x) = true →
  Reachable file st → ctl st ≠ Returned.
Proof.
  intros Hx Hrej Hst Hc.
  destruct (reachable_structure _ _ _ _ _ Hst)
    as [Hitems _ _ _ _ _ _ Hdone Hreturned].
  rewrite Hdone, app_nil_r in Hitems by by right.
  rewrite <- Hitems in Hx. clear Hitems.
  change (map item) with (fmap (M:=list) item) in Hx.
  rewrite list_lookup_fmap in Hx.
  destruct (ret st !! i) as [p|] eqn:Hp; [|done]. simpl in Hx. simplify_eq.
  destruct (reachable_tasks file st Hst i p Hp) as [Hprog Hful].
  rewrite <- Hprog in Hrej.
  pose proof (forallb_fulfilled_lookup _ _ _ (Hreturned Hc) Hp) as Hstate.
  rewrite Hful in Hrej; [done|].
  unfold is_fulfilled in Hstate. by destruct (state p).
Qed.

(** X12: when the iterator function rejects on some item of the array,
    [asyncPool] never returns: every state in which nothing can run any
    more is one in which it has thrown, and such a state can be reached
    from every state. *)
Theorem asyncPool_rejection file st i x :
  array !! i = Some x → rejects (iteratorFn i x) = true →
  reachable poolLimit array iteratorFn file st →
  ctl st ≠ Returned
  ∧ (quiescent poolLimit array iteratorFn st → ctl st = Failed)
  ∧ ∃ cs st', run_pool poolLimit array iteratorFn cs st = Some st'
              ∧ ctl st' = Failed.
Proof.
  intros Hx Hrej Hst.
  pose proof (reachable_structure _ _ _ _ _ Hst) as Hinv.
  split_and!.
  - by eapply rejecting_never_returns.
  - intros Hq.
    destruct (quiescent_final poolLimit array iteratorFn st Hinv Hq)
      as [Hc|Hc]; [|done].
    by eapply rejecting_never_returns in Hc.
  - destruct (completion poolLimit array iteratorFn st Hinv)
      as (cs & st' & Hrun & [Hc|Hc]); [|by eauto].
    eapply rejecting_never_returns in Hc; [done..|].
    by eapply reachable_run.
Qed.

(** X13: when the iterator function never rejects, [asyncPool] never throws;
    it can always be run on until it returns, every schedule is finite,
    and when nothing can run any more it has returned, with a fulfilled
    promise for every item of the array, in order. *)
Theorem asyncPool_returns file st :
  (∀ i x, rejects (iteratorFn i x) = false) →
  reachable poolLimit array iteratorFn file st →
  ctl st ≠ Failed
  ∧ (quiescent poolLimit array iteratorFn st →
     ctl st = Returned ∧ map item (ret st) = array
     ∧ forallb is_fulfilled (ret st) = true)
  ∧ (∃ cs st', run_pool poolLimit array iteratorFn cs st = Some st'
               ∧ ctl st' = Returned)
  ∧ (∀ cs st', run_pool poolLimit array iteratorFn cs st = Some st' →
               (length cs ≤ measure iteratorFn st)%nat).
Proof.
  intros Hfn Hst.
  pose proof (reachable_structure _ _ _ _ _ Hst) as Hinv.
  pose proof (reachable_never_rejected _ _ _ _ _ Hfn Hst) as [_ Hctl].
  split_and!.
  - done.
  - intros Hq.
    destruct (quiescent_final poolLimit array iteratorFn st Hinv Hq)
      as [Hc|Hc]; [|done].
    destruct Hinv as [Hitems _ _ _ _ _ _ Hdone Hreturned].
    rewrite Hdone, app_nil_r in Hitems by by right.
    split_and!; [done|done|by apply Hreturned].
  - destruct (completion poolLimit array iteratorFn st Hinv)
      as (cs & st' & Hrun & [Hc|Hc]); [by eauto|].
    by destruct (reachable_never_rejected _ _ _ _ _ Hfn
                   (reachable_run _ _ _ _ Hst Hrun)).
  - intros cs st' Hrun. apply run_pool_measure in Hrun. lia.
Qed.

Lemma reachable_full file st :
  Reachable file st →
  StructureInv st
  ∧ (ctl st = Racing false →
     Z.of_nat (length (executing st)) = Z.max poolLimit 1).
Proof.
  revert st.
  refine (reachable_ind poolLimit array iteratorFn file
            (fun st => StructureInv st
               ∧ (ctl st = Racing false →
                  Z.of_nat (length (executing st)) = Z.max poolLimit 1))
            _ _).
  - split; [apply structure_inv_init|done].
  - intros st st' [Hinv Hfull] Hstep.
    split; [by eapply structure_inv_step|].
    destruct Hstep as [x rest Hc Ht|Hc Ht|Hc|Hc Hf|i p Hp Hs|i p a rest Hp Hs
                      |i p Hp Hs|i p Hp Hs Hi|Hc He];
      simpl; try done.
    + destruct Hinv as [_ _ _ _ _ Hroom _ _ _].
      specialize (Hroom (or_introl Hc)).
      destruct (tracked poolLimit array); simpl; [|done].
      rewrite length_app. simpl.
      destruct (Z.leb_spec poolLimit (Z.of_nat (length (executing st) + 1)));
        [|done].
      intros _. lia.
    + by destruct (ctl st) as [|[]| | |].
Qed.

(** X14: the loop of [asyncPool] waits for a task to finish only while
    [executing] is full: it holds as many promises as the limit allows
    (one when the limit is below one), and the limit does not exceed the
    length of the array. *)
Theorem asyncPool_waits_when_full file st :
  reachable poolLimit array iteratorFn file st → ctl st = Racing false →
  Z.of_nat (length (executing st)) = Z.max poolLimit 1
  ∧ poolLimit <= Z.of_nat (length array).
Proof.
  intros Hst Hc. destruct (reachable_full file st Hst) as [Hinv Hfull].
  split; [by apply Hfull|].
  destruct Hinv as [_ _ _ Huntracked _ _ _ _ _].
  destruct (Z.leb_spec poolLimit (Z.of_nat (length array))) as [|Hlt];
    [done|].
  destruct Huntracked as [_ Hno].
  { unfold tracked. by apply Z.leb_gt. }
  by destruct (Hno false).
Qed.
End PoolFurther.

Lemma asyncPool_keeps_order_witness :
  five_urls !! 1%nat = Some (str "https://www.loom.com/share/v2").
Proof.
  refine (proj1 (asyncPool_keeps_order 2 five_urls five_tasks None two_started
                   1%nat
                   {| item := str "https://www.loom.com/share/v2";
                      prog := five_tasks 1%nat
                                (str "https://www.loom.com/share/v2");
                      state := Running (steps (five_tasks 1%nat
                                 (str "https://www.loom.com/share/v2"))) |}
                   two_started_reachable _)).
  vm_compute. reflexivity.
Defined.

Lemma asyncPool_rejection_witness :
  ctl (pool_init five_urls None) ≠ Returned.
Proof.
  refine (proj1 (asyncPool_rejection 2 five_urls rejecting_task None
                   (pool_init five_urls None) 0%nat
                   (str "https://www.loom.com/share/v1") _ _ _)).
  - reflexivity.
  - reflexivity.
  - by exists [].
Defined.

Lemma asyncPool_returns_witness : ctl two_started ≠ Failed.
Proof.
  refine (proj1 (asyncPool_returns 2 five_urls five_tasks None two_started
                   _ two_started_reachable)).
  reflexivity.
Defined.

Lemma asyncPool_waits_when_full_witness :
  Z.of_nat (length (executing two_started)) = Z.max 2 1.
Proof.
  refine (proj1 (asyncPool_waits_when_full 2 five_urls five_tasks None
                   two_started two_started_reachable _)).
  vm_compute. reflexivity.
Defined.

(** ** The programs that are started *)

Lemma spawned_return failed_with wrap r :
  spawned failed_with wrap r = Return () ↔ exited_zero r = true.
Proof.
  unfold spawned. destruct r as [code|message]; [|done].
  by destruct (exited_zero (Closed code)).
Qed.

Lemma is_return_spawned failed_with wrap r :
  is_return (spawned failed_with wrap r) = exited_zero r.
Proof.
  unfold spawned. destruct r as [code|message]; [|done].
  by destruct (exited_zero (Closed code)).
Qed.

Lemma download_https_return a :
  download_https a = Return () ↔ ∃ location, a = Response 200 location.
Proof.
  destruct a as [statusCode location|message]; simpl.
  - destruct (Z.eqb_spec statusCode 403) as [->|H403].
    { split; [done|]. by intros [? ?]. }
    destruct (Z.eqb_spec statusCode 302) as [->|H302]; simpl.
    { split; [done|]. by intros [? ?]. }
    destruct (Z.eqb_spec statusCode 301) as [->|H301]; simpl.
    { split; [done|]. by intros [? ?]. }
    destruct (Z.eqb_spec statusCode 200) as [->|H200]; simpl.
    + split; [|done]. by exists location.
    + split; [done|]. intros [? ?]. by simplify_eq.
  - split; [done|]. by intros [? ?].
Qed.

(** ** [downloadLoomVideo] *)

(** X15: a download succeeds exactly when the directory is there and either
    yt-dlp is found and exits with 0, or the URL holds [.m3u8] and ffmpeg
    exits with 0, or the URL holds no [.m3u8] and the server answers 200:
    a redirect is not followed. *)
Theorem downloadLoomVideo_succeeds_iff w url :
  downloadLoomVideo w url = Return ()
  ↔ make_dir w = Return ()
    ∧ ((exited_zero (ytdlp_version w) = true ∧ exited_zero (ytdlp w) = true)
       ∨ (includes url (str ".m3u8") = true ∧ exited_zero (ffmpeg w) = true)
       ∨ (includes url (str ".m3u8") = false
          ∧ ∃ location, https w = Response 200 location)).
Proof.
  unfold downloadLoomVideo, downloadWithYtDlp, checkYtDlpAvailability,
    download_m3u8.
  rewrite is_return_spawned.
  destruct (make_dir w) as [[]|e]; [|split; [done|by intros [? _]]].
  assert (Hrest :
    (if includes url (str ".m3u8")
     then spawned (str "ffmpeg exited with code ") [] (ffmpeg w)
     else download_https (https w)) = Return ()
    ↔ (includes url (str ".m3u8") = true ∧ exited_zero (ffmpeg w) = true)
      ∨ (includes url (str ".m3u8") = false
         ∧ ∃ location, https w = Response 200 location)).
  { destruct (includes url (str ".m3u8"));
      [rewrite spawned_return|rewrite download_https_return];
      (split; [by auto|by intros [[? ?]|[? ?]]]). }
  destruct (exited_zero (ytdlp_version w)) eqn:Hv;
    destruct (exited_zero (ytdlp w)) eqn:Hy; cbn [andb].
  - split; [by auto|done].
  - rewrite Hrest. split; [by auto|]. by intros [_ [[? ?]|?]].
  - rewrite Hrest. split; [by auto|]. by intros [_ [[? ?]|?]].
  - rewrite Hrest. split; [by auto|]. by intros [_ [[? ?]|?]].
Qed.

(** X16: the error of a failed download is that of the directory, of ffmpeg or
    of the request, by the kind of the URL: what went wrong with yt-dlp is
    never reported. *)
Theorem downloadLoomVideo_error_source w url e :
  downloadLoomVideo w url = Throw e →
  make_dir w = Throw e
  ∨ (includes url (str ".m3u8") = true ∧ download_m3u8 (ffmpeg w) = Throw e)
  ∨ (includes url (str ".m3u8") = false
     ∧ download_https (https w) = Throw e).
Proof.
  unfold downloadLoomVideo.
  destruct (make_dir w) as [[]|e']; [|intros; simplify_eq; by left].
  destruct (checkYtDlpAvailability (ytdlp_version w)
            && is_return (downloadWithYtDlp (ytdlp w))); [done|].
  destruct (includes url (str ".m3u8")); intros H; right; [left|right]; done.
Qed.

Lemma downloadLoomVideo_error_source_witness :
  download_https (https redirect_world)
  = Throw (str "Received redirect 302 to https://cdn.loom.com/next.mp4").
Proof.
  destruct (downloadLoomVideo_error_source redirect_world
              (str "https://cdn.loom.com/v/720.mp4")
              (str "Received redirect 302 to https://cdn.loom.com/next.mp4"))
    as [H|[[H _]|[_ H]]].
  - vm_compute. reflexivity.
  - discriminate H.
  - vm_compute in H. discriminate H.
  - exact H.
Defined.

(** ** [downloadWithSeparateStreams] *)

(** X17: the three programs run in a row and each must exit with 0; when the
    video stream fails, the audio stream and ffmpeg play no part. *)
Theorem downloadWithSeparateStreams_all_three w :
  (downloadWithSeparateStreams w = Return ()
   ↔ exited_zero (video_stream w) = true
     ∧ exited_zero (audio_stream w) = true
     ∧ exited_zero (combine w) = true)
  ∧ (exited_zero (video_stream w) = false →
     ∀ w', video_stream w' = video_stream w →
           downloadWithSeparateStreams w' = downloadWithSeparateStreams w).
Proof.
  unfold downloadWithSeparateStreams. split.
  - destruct (spawned _ _ (video_stream w)) as [[]|e] eqn:Hv.
    + apply spawned_return in Hv.
      destruct (spawned _ _ (audio_stream w)) as [[]|e] eqn:Ha.
      * apply spawned_return in Ha. rewrite spawned_return. tauto.
      * split; [done|]. intros (_ & Ha' & _).
        apply (spawned_return (str "Audio download failed with code ") [])
          in Ha'.
        by rewrite Ha' in Ha.
    + split; [done|]. intros (Hv' & _).
      apply (spawned_return (str "Video download failed with code ") [])
        in Hv'.
      by rewrite Hv' in Hv.
  - intros Hv w' ->.
    pose proof (is_return_spawned (str "Video download failed with code ") []
                  (video_stream w)) as Hr.
    rewrite Hv in Hr.
    by destruct (spawned _ _ (video_stream w)).
Qed.

(** ** [listAvailableFormats] *)

Lemma startsWith_prefix s p :
  startsWith s p = true → ∃ post, s = p ++ post.
Proof.
  revert s. induction p as [|a p IH]; intros s; [by exists s|].
  destruct s as [|b s]; [done|]. simpl.
  intros [Hab Hs]%andb_prop. apply N.eqb_eq in Hab as ->.
  destruct (IH s Hs) as [post ->]. by exists post.
Qed.

Lemma includes_inside s sub :
  includes s sub = true → ∃ pre post, s = pre ++ sub ++ post.
Proof.
  induction s as [|c s IH]; cbn [includes].
  - rewrite orb_false_r. intros [post ->]%startsWith_prefix.
    by exists [], post.
  - intros [[post ->]%startsWith_prefix|(pre & post & ->)%IH]%orb_prop.
    + by exists [], post.
    + by exists (c :: pre), post.
Qed.

Lemma includes_concat (g : jsstring → jsstring) sub chunks :
  (∀ a b, g (a ++ b) = g a ++ g b) →
  existsb (fun chunk => includes (g chunk) sub) chunks = true →
  includes (g (concat chunks)) sub = true.
Proof.
  intros Hg. induction chunks as [|chunk chunks IH]; [done|]. simpl.
  rewrite Hg.
  intros [(pre & post & ->)%includes_inside
         |(pre & post & ->)%IH%includes_inside]%orb_prop.
  - rewrite <- !app_assoc. apply includes_app.
  - rewrite app_assoc. apply includes_app.
Qed.

Lemma existsb_or {A} (f g : A → bool) l :
  existsb (fun x => f x || g x) l = existsb f l || existsb g l.
Proof.
  induction l as [|x l IH]; [done|]. simpl. rewrite IH.
  destruct (f x), (g x), (existsb f l); done.
Qed.

(** X18: the format check resolves exactly on the exit code 0, with all the
    output, and a flag it raises on a chunk holds of the output as a
    whole. *)
Theorem listAvailableFormats_flags stdout r info :
  listAvailableFormats stdout r = Return info →
  exited_zero r = true
  ∧ output info = concat stdout
  ∧ (hasAudio info = true → audio_chunk (output info) = true)
  ∧ (hasVideo info = true → video_chunk (output info) = true).
Proof.
  unfold listAvailableFormats.
  destruct (spawned _ _ r) as [[]|e] eqn:Hr; [|done].
  apply spawned_return in Hr. intros ?. simplify_eq. cbn [output hasAudio hasVideo].
  assert (Hid : ∀ sub chunks,
    existsb (fun chunk => includes chunk sub) chunks = true →
    includes (concat chunks) sub = true).
  { intros sub chunks H. by apply (includes_concat (fun x => x)). }
  assert (Hlow : ∀ sub chunks,
    existsb (fun chunk => includes (map lower_ascii chunk) sub) chunks = true →
    includes (map lower_ascii (concat chunks)) sub = true).
  { intros sub chunks H. apply (includes_concat (map lower_ascii)); [|done].
    intros. apply map_app. }
  split_and!; [done|done| |].
  - unfold audio_chunk. rewrite !existsb_or.
    intros [[H|H]%orb_prop|H]%orb_prop.
    + by rewrite (Hlow _ _ H).
    + rewrite (Hid _ _ H). by rewrite orb_true_r.
    + rewrite (Hid _ _ H). by rewrite orb_true_r.
  - unfold video_chunk. rewrite !existsb_or.
    intros [[H|H]%orb_prop|H]%orb_prop.
    + by rewrite (Hlow _ _ H).
    + rewrite (Hid _ _ H). by rewrite orb_true_r.
    + rewrite (Hid _ _ H). by rewrite orb_true_r.
Qed.

Lemma listAvailableFormats_flags_witness :
  exited_zero (Closed (Some 0)) = true.
Proof.
  refine (proj1 (listAvailableFormats_flags one_chunk (Closed (Some 0))
                   {| output := str "audio only"; hasAudio := true;
                      hasVideo := false |} _)).
  vm_compute. reflexivity.
Defined.

(** The flags are read chunk by chunk: the same output cut in two in the
    middle of a word raises no flag. *)
Example flags_depend_on_chunks :
  concat one_chunk = concat two_chunks
  ∧ existsb audio_chunk one_chunk = true
  ∧ existsb audio_chunk two_chunks = false.
Proof. split_and!; vm_compute; reflexivity. Qed.

(** ** [downloadSingleFile] *)

Lemma is_return_formats stdout r :
  is_return (listAvailableFormats stdout r) = exited_zero r.
Proof.
  unfold listAvailableFormats.
  pose proof (is_return_spawned (str "Format check failed with code ") [] r)
    as H.
  by destruct (spawned _ _ r).
Qed.

(** X19: a single download succeeds exactly when yt-dlp is found, lists the
    formats and downloads and combines the two streams, or else the page
    gives a URL that [downloadLoomVideo] downloads; and the error it
    throws is always the one of this second way, never one of yt-dlp. *)
Theorem downloadSingleFile_outcome w url :
  (downloadSingleFile w url = Return ()
   ↔ (exited_zero (single_version w) = true
      ∧ exited_zero (formats w) = true
      ∧ downloadWithSeparateStreams (streams w) = Return ())
     ∨ manual_download w url = Return ())
  ∧ ∀ e, downloadSingleFile w url = Throw e → manual_download w url = Throw e.
Proof.
  unfold downloadSingleFile, checkYtDlpAvailability.
  rewrite is_return_formats.
  destruct (exited_zero (single_version w)); cbn [andb].
  2:{ split; [|done]. split; [by right|]. by intros [(? & _)|?]. }
  destruct (exited_zero (formats w)); cbn [andb].
  2:{ split; [|done]. split; [by right|]. by intros [(_ & ? & _)|?]. }
  destruct (downloadWithSeparateStreams (streams w)) as [[]|e'];
    cbn [is_return].
  - split; [|done]. split; [by left|done].
  - split; [|done]. split; [by right|]. by intros [(_ & _ & ?)|?].
Qed.

(** ** [main] *)

(** X20: [main] ends the process exactly when neither ffmpeg nor yt-dlp is
    found, whatever the test of the network gives; a command line that
    the check of the options accepts always starts a download, of the
    list when [--list] is given and else of the URL given. *)
Theorem main_modes a w :
  (main a w = Exit1
   ↔ checkFfmpegAvailability (ffmpeg_version w) = false
     ∧ checkYtDlpAvailability (main_ytdlp_version w) = false)
  ∧ (check a = None → main a w ≠ Nothing)
  ∧ (main a w = RunList → given (argv_list a) = true)
  ∧ (∀ url, main a w = RunSingle url →
       argv_url a = Some url ∧ nonempty url = true
       ∧ given (argv_list a) = false)
  ∧ ∀ w', ffmpeg_version w' = ffmpeg_version w →
          main_ytdlp_version w' = main_ytdlp_version w →
          main a w' = main a w.
Proof.
  assert (Hnet : ∀ x, testNetworkConnectivity (connectivity x) = true)
    by (intros x; by destruct (connectivity x)).
  unfold main. rewrite Hnet. cbn [negb].
  split_and!.
  - destruct (checkFfmpegAvailability _), (checkYtDlpAvailability _);
      cbn [negb andb]; try (split; [|by intros [? ?]]);
      try (split; done);
      destruct (given (argv_list a)); try done;
      destruct (argv_url a) as [url|]; try done; by destruct (nonempty url).
  - unfold check. intros Hcheck.
    destruct (negb (checkFfmpegAvailability _) && negb _); [done|].
    destruct (given (argv_list a)); [done|].
    unfold given in Hcheck.
    destruct (argv_url a) as [url|]; [|done].
    by destruct (nonempty url).
  - destruct (negb (checkFfmpegAvailability _) && negb _); [done|].
    destruct (given (argv_list a)); [done|].
    destruct (argv_url a) as [url|]; [|done]. by destruct (nonempty url).
  - intros url.
    destruct (negb (checkFfmpegAvailability _) && negb _); [done|].
    destruct (given (argv_list a)); [done|].
    destruct (argv_url a) as [url'|]; [|done].
    destruct (nonempty url') eqn:Hne; [|done]. intros ?. by simplify_eq.
  - intros w' -> ->. by rewrite Hnet.
Qed.

(** ** The matcher finds whatever the expression describes *)

Lemma star_complete k greedy a (P : jsstring → Prop) :
  (∀ s m, k s m = None → ∀ w rest, s = w ++ rest → ¬ P w) →
  ∀ cs s m,
    star k greedy a s m = None →
    Forall (fun c => atom_matches a c = true) cs →
    ∀ w rest, s = (cs ++ w) ++ rest → ¬ P w.
Proof.
  intros Hk. induction cs as [|c cs IH]; intros s m Hstar Hcs w rest Hs.
  - refine (Hk s m _ w rest Hs). clear Hs.
    destruct s as [|d s]; cbn [star] in Hstar.
    + destruct greedy; [done|]. by destruct (k [] m).
    + destruct greedy.
      * by destruct (if atom_matches a d then _ else _).
      * by destruct (k (d :: s) m).
  - inversion Hcs as [|? ? Hc Hcs']; subst.
    rewrite <- !app_comm_cons in Hstar. cbn [star] in Hstar.
    rewrite Hc in Hstar.
    refine (IH ((cs ++ w) ++ rest) (take_char c m) _ Hcs' w rest eq_refl).
    destruct greedy.
    + by destruct (star k true a ((cs ++ w) ++ rest) (take_char c m)).
    + by destruct (k (c :: (cs ++ w) ++ rest) m).
Qed.

Lemma run_complete r :
  ∀ s m, run r s m = None → ∀ w rest, s = w ++ rest → ¬ lang r w.
Proof.
  induction r as [|n r IH]; intros s m Hrun w rest Hs Hl; [done|].
  destruct n as [a|greedy a| |]; cbn [run] in Hrun.
  - apply lang_one_inv in Hl as (c & w' & -> & Hc & Hl). subst s.
    rewrite <- app_comm_cons, Hc in Hrun. by eapply IH.
  - apply lang_star_inv in Hl as (cs & w' & -> & Hcs & Hl).
    by eapply (star_complete _ _ _ (lang r) IH cs s m Hrun Hcs w' rest).
  - inversion Hl; subst. by eapply IH.
  - inversion Hl; subst. by eapply IH.
Qed.

Lemma match_all_complete r s :
  match_all r s 0 = [] →
  ∀ pre w post, s = pre ++ w ++ post → ¬ lang r w.
Proof.
  induction s as [|c s IH]; intros Hm pre w post Hs; cbn [match_all] in Hm.
  - destruct (run r [] no_captures) as [[m rest]|] eqn:Hrun; [done|].
    destruct pre; [|done]. by eapply run_complete.
  - destruct (run r (c :: s) no_captures) as [[m rest]|] eqn:Hrun; [done|].
    destruct pre as [|d pre].
    + by eapply run_complete.
    + simpl in Hs. simplify_eq. by eapply IH.
Qed.

Lemma lang_lit_intro p r w : lang r w → lang (lit p ++ r) (p ++ w).
Proof.
  intros Hl. induction p as [|c p IH]; [done|]. simpl.
  constructor; [|done]. simpl. apply N.eqb_refl.
Qed.

(** X21: method 2 finds a link exactly when the page holds [https://], then at
    least one character, then [.mp4], with no quote and no white space
    between them. *)
Theorem mp4_link_found html :
  match_all mp4Regex html 0 ≠ []
  ↔ ∃ pre a post,
      html = pre ++ str "https://" ++ a ++ str ".mp4" ++ post
      ∧ a ≠ []
      ∧ ∀ c, c ∈ a → c ≠ c_dquote ∧ c ≠ c_squote ∧ is_space c = false.
Proof.
  assert (Hclass : ∀ x,
    atom_matches (NotIn [c_dquote; c_squote] true) x = true
    ↔ x ≠ c_dquote ∧ x ≠ c_squote ∧ is_space x = false).
  { intros x. simpl.
    destruct (N.eqb_spec x c_dquote), (N.eqb_spec x c_squote),
      (is_space x); simpl; split; try done; by intros (? & ? & ?). }
  split.
  - intros Hm.
    destruct (match_all mp4Regex html 0) as [|w l] eqn:Hw; [done|].
    assert (w ∈ match_all mp4Regex html 0) as Hin by (rewrite Hw; by left).
    apply match_all_sound in Hin as [(pre & post & ->) Hlang].
    unfold mp4Regex in Hlang.
    apply lang_lit in Hlang as (w1 & -> & Hlang).
    unfold plus in Hlang. cbn [app] in Hlang.
    apply lang_one_inv in Hlang as (c & w2 & -> & Hc & Hl2).
    apply lang_star_inv in Hl2 as (cs & w3 & -> & Hcs & Hl3).
    apply lang_lit in Hl3 as (w4 & -> & Hl4).
    exists pre, (c :: cs), (w4 ++ post). split_and!.
    + rewrite <- !app_assoc. cbn [app]. by rewrite <- !app_assoc.
    + done.
    + rewrite Forall_forall in Hcs.
      intros x [->|Hx]%elem_of_cons; apply Hclass; [done|by apply Hcs].
  - intros (pre & a & post & -> & Ha & Hchars) Hm.
    destruct a as [|c cs]; [done|].
    apply (match_all_complete _ _ Hm pre
             (str "https://" ++ (c :: cs) ++ str ".mp4") post).
    { by rewrite <- !app_assoc. }
    unfold mp4Regex, plus. apply lang_lit_intro. cbn [app].
    constructor; [apply Hclass, Hchars; by left|].
    constructor.
    { apply Forall_forall. intros x Hx. apply Hclass, Hchars. by right. }
    rewrite <- (app_nil_r (str ".mp4")). apply lang_lit_intro.
    apply (lang_star true _ [] [] []); [done|constructor].
Qed.

(** ** The calls of yt-dlp *)

Lemma spawned_throw failed_with r e :
  spawned failed_with [] r = Throw e →
  (∃ code, r = Closed code ∧ code ≠ Some 0 ∧ e = failed_with ++ show_code code)
  ∨ r = Errored e.
Proof.
  unfold spawned. destruct r as [code|message].
  - destruct (exited_zero (Closed code)) eqn:Hz; [done|].
    intros ?. simplify_eq. left. exists code. split_and!; [done| |done].
    intros ->. done.
  - intros ?. simplify_eq. by right.
Qed.

(** X22: each of the four ways to call yt-dlp on a URL resolves exactly
    when the program exits with the code 0; the end by a signal, where the
    code is [null], and the failure to start it are rejections, the first
    with a message that ends in the code and the second with the error of
    the program. *)
Theorem yt_dlp_calls_resolve_on_zero r :
  ∀ call failed_with,
    (call, failed_with)
    ∈ [(downloadWithYtDlp, str "yt-dlp exited with code ");
       (downloadWithYtDlpAdvanced, str "yt-dlp advanced exited with code ");
       (downloadWithAudioExtraction,
        str "yt-dlp audio extraction exited with code ");
       (downloadWithExplicitAudioVideo,
        str "yt-dlp explicit A+V exited with code ")] →
    (call r = Return () ↔ r = Closed (Some 0))
    ∧ ∀ e, call r = Throw e →
           (∃ code, r = Closed code ∧ code ≠ Some 0
                    ∧ e = failed_with ++ show_code code)
           ∨ r = Errored e.
Proof.
  assert (Hzero : exited_zero r = true ↔ r = Closed (Some 0)).
  { destruct r as [[code|]|message]; simpl; [|done..].
    destruct (Z.eqb_spec code 0) as [->|Hne]; [done|].
    split; [done|]. intros ?. by simplify_eq. }
  intros call failed_with Hin.
  repeat (apply elem_of_cons in Hin as [Hin|Hin];
          [injection Hin as -> ->; split;
           [rewrite <- Hzero; apply spawned_return
           |intros e; apply spawned_throw]|]).
  by apply elem_of_nil in Hin.
Qed.

Lemma yt_dlp_calls_resolve_on_zero_witness :
  downloadWithYtDlp (Closed (Some 0)) = Return ()
  ↔ Closed (Some 0) = Closed (Some 0).
Proof.
  refine (proj1 (yt_dlp_calls_resolve_on_zero (Closed (Some 0))
                   downloadWithYtDlp (str "yt-dlp exited with code ") _)).
  by left.
Defined.

(** ** The names of the output files of a batch *)

Lemma str_cons a s : str (String a s) = N_of_ascii a :: str s.
Proof. done. Qed.

Lemma str_inj s t : str s = str t → s = t.
Proof.
  revert t. induction s as [|a s IH]; intros [|b t]; try done.
  rewrite !str_cons. intros H. injection H as Hab Hst.
  f_equal; [|by apply IH].
  by rewrite <- (ascii_N_embedding a), <- (ascii_N_embedding b), Hab.
Qed.

Lemma digits_no_minus d : c_minus ∉ str (NilEmpty.string_of_uint d).
Proof.
  induction d; cbn [NilEmpty.string_of_uint]; rewrite ?str_cons;
    [by intros ?%elem_of_nil|..];
    intros [?|?]%elem_of_cons; done.
Qed.

Lemma show_Z_no_minus z : 0 < z → c_minus ∉ show_Z z.
Proof.
  destruct z as [|p|p]; [lia| |lia]. intros _.
  unfold show_Z. cbn [Z.to_int NilZero.string_of_int].
  unfold NilZero.string_of_uint.
  pose proof (Unsigned.to_uint_nonnil p).
  destruct (Pos.to_uint p) eqn:Hp; [done|..];
    rewrite <- Hp; apply digits_no_minus.
Qed.

Lemma show_Z_inj z z' : 0 < z → 0 < z' → show_Z z = show_Z z' → z = z'.
Proof.
  destruct z as [|p|p]; [lia| |lia]. destruct z' as [|p'|p']; [lia| |lia].
  intros _ _ H%str_inj. apply DecimalZ.to_int_inj.
  assert (Hnn : ∀ q, Z.to_int (Z.pos q) ≠ Decimal.Pos Decimal.Nil
                     ∧ Z.to_int (Z.pos q) ≠ Decimal.Neg Decimal.Nil).
  { intros q. simpl. split; [|done]. intros Hq. injection Hq as Hq.
    by apply Unsigned.to_uint_nonnil in Hq. }
  destruct (Hnn p) as [H1 H2]. destruct (Hnn p') as [H1' H2'].
  pose proof (NilZero.isi _ H1 H2) as Hp.
  pose proof (NilZero.isi _ H1' H2') as Hp'.
  rewrite H in Hp. rewrite Hp in Hp'. congruence.
Qed.

Lemma indexOf_from_found url l : ∀ k,
  url ∈ l →
  ∃ i : nat, indexOf_from k url l = k + Z.of_nat i ∧ l !! i = Some url.
Proof.
  induction l as [|x l IH]; intros k Hin; [by apply elem_of_nil in Hin|].
  simpl. destruct (decide (x = url)) as [->|Hne].
  - rewrite bool_decide_eq_true_2 by done. exists 0%nat. split; [lia|done].
  - rewrite bool_decide_eq_false_2 by done.
    apply elem_of_cons in Hin as [?|Hin]; [done|].
    destruct (IH (k + 1) Hin) as (i & Hi & Hl).
    exists (S i). split; [lia|done].
Qed.

(** X23: with [--prefix], two tasks of a batch write to the same file name
    exactly when they have the same URL; without it, exactly when their
    URLs have the same identifier. *)
Theorem task_filenames a urls u v :
  u ∈ urls → v ∈ urls →
  task_filename a urls u = task_filename a urls v
  ↔ if given (argv_prefix a) then u = v else extractId u = extractId v.
Proof.
  intros Hu Hv. unfold task_filename.
  destruct (given (argv_prefix a)).
  - split; [|by intros ->].
    intros H. apply app_inv_head in H.
    destruct (indexOf_from_found u urls 0 Hu) as (i & Hi & Hiu).
    destruct (indexOf_from_found v urls 0 Hv) as (j & Hj & Hjv).
    unfold indexOf in H. rewrite Hi, Hj in H.
    change (str "-" ++ ?s) with (c_minus :: s) in H.
    injection H as H.
    assert (show_Z (0 + Z.of_nat i + 1) = show_Z (0 + Z.of_nat j + 1)) as Hij.
    { apply (before_first_unique c_minus _ _ _ _ H).
      - apply show_Z_no_minus. lia.
      - apply show_Z_no_minus. lia.
      - right. by eauto.
      - right. by eauto. }
    apply show_Z_inj in Hij; [|lia..].
    assert (i = j) as -> by lia. rewrite Hiu in Hjv. by injection Hjv.
  - split.
    + by intros ?%app_inv_tail.
    + by intros ->.
Qed.

Lemma task_filenames_witness :
  task_filename (prefix_argv (str "talk")) five_urls
    (str "https://www.loom.com/share/v2")
  = task_filename (prefix_argv (str "talk")) five_urls
      (str "https://www.loom.com/share/v2")
  ↔ str "https://www.loom.com/share/v2" = str "https://www.loom.com/share/v2".
Proof.
  apply (task_filenames (prefix_argv (str "talk")) five_urls).
  - right. by left.
  - right. by left.
Defined.

Example task_filename_with_prefix :
  task_filename (prefix_argv (str "talk")) five_urls
    (str "https://www.loom.com/share/v2")
  = str "talk-2-v2.mp4".
Proof. vm_compute. reflexivity. Qed.
